(** * Shallow embedding of the LAI event-brief extraction engine
    (src/unnamed/part_001, [parseLaiEventBrief] and its helpers).

    Text is modelled as [list ascii]: a sequence of code units, each of
    them a JavaScript UTF-16 code unit in the range 0..255 (Latin-1).
    Every regular expression of the source is written out as a small
    matcher that follows the backtracking order of the JavaScript engine
    for that pattern; each one carries the pattern it embeds. *)

From Stdlib Require Import Ascii String ZArith Lia Sorted Permutation QArith Qround.
From stdpp Require Import base list strings gmap sets.

Open Scope list_scope.

(* ------------------------------------------------------------------ *)
(** ** Characters *)

Definition sp : ascii := " "%char.
Definition nl : ascii := "010"%char.
Definition cr : ascii := "013"%char.
Definition tab : ascii := "009"%char.

Definition ceq (c d : ascii) : bool := Ascii.eqb c d.

(** [\s] of a regular expression and the white space removed by
    [String.prototype.trim]: TAB, LF, VT, FF, CR, SPACE and NBSP are the
    members of that set below 256. *)
Definition is_ws (c : ascii) : bool :=
  let n := nat_of_ascii c in
  ((9 <=? n) && (n <=? 13)) || (n =? 32) || (n =? 160).

Definition is_digit (c : ascii) : bool :=
  let n := nat_of_ascii c in (48 <=? n) && (n <=? 57).
Definition is_upper (c : ascii) : bool :=
  let n := nat_of_ascii c in (65 <=? n) && (n <=? 90).
Definition is_lower (c : ascii) : bool :=
  let n := nat_of_ascii c in (97 <=? n) && (n <=? 122).
Definition is_alpha (c : ascii) : bool := is_upper c || is_lower c.

(** [\w] (the regular expressions of the source carry no [u] flag). *)
Definition is_word (c : ascii) : bool :=
  is_alpha c || is_digit c || ceq c "_"%char.

(** Canonicalisation of the [i] flag.  Every pattern character of the
    source is ASCII, and a non-ASCII code unit never canonicalises to an
    ASCII one, so upper-casing a..z is exact for these patterns. *)
Definition upcase (c : ascii) : ascii :=
  if is_lower c then ascii_of_nat (nat_of_ascii c - 32) else c.
Definition lowcase (c : ascii) : ascii :=
  if is_upper c then ascii_of_nat (nat_of_ascii c + 32) else c.
Definition ci_eq (c d : ascii) : bool := ceq (upcase c) (upcase d).

Definition js (s : string) : list ascii := list_ascii_of_string s.

(* ------------------------------------------------------------------ *)
(** ** [String.prototype.trim] *)

Fixpoint take_while (f : ascii -> bool) (s : list ascii) : list ascii :=
  match s with
  | [] => []
  | c :: r => if f c then c :: take_while f r else []
  end.

Fixpoint drop_while (f : ascii -> bool) (s : list ascii) : list ascii :=
  match s with
  | [] => []
  | c :: r => if f c then drop_while f r else s
  end.

Definition trim (s : list ascii) : list ascii :=
  rev (drop_while is_ws (rev (drop_while is_ws s))).

(* ------------------------------------------------------------------ *)
(** ** normalize (part_001, lines 615-622)
<<
function normalize(s) {
  return String(s || "")
    .replace(/\r/g, "")
    .replace(/[ \t]+/g, " ")
    .replace(/ ?\n ?/g, "\n")
    .replace(/\n{3,}/g, "\n\n")
    .trim();
}
>>
    [String(s || "")] is the identity on strings. *)

(** [.replace(/\r/g, "")] *)
Definition strip_cr (s : list ascii) : list ascii := filter (fun c => negb (ceq c cr)) s.

Definition is_sp_tab (c : ascii) : bool := ceq c sp || ceq c tab.

(** [.replace(/[ \t]+/g, " ")]: each maximal run of spaces and tabs
    becomes one space; [in_run] records that the run's space has been
    written already. *)
Fixpoint collapse_blanks (in_run : bool) (s : list ascii) : list ascii :=
  match s with
  | [] => []
  | c :: r =>
      if is_sp_tab c then
        (if in_run then collapse_blanks true r else sp :: collapse_blanks true r)
      else c :: collapse_blanks false r
  end.

(** [.replace(/ ?\n ?/g, "\n")], scanning left to right: a space is
    only consumed when a line feed follows it, and the optional space
    after the line feed is taken greedily. *)
Fixpoint strip_nl_pad (s : list ascii) : list ascii :=
  match s with
  | [] => []
  | c :: r =>
      if ceq c sp then
        match r with
        | d :: r' =>
            if ceq d nl then
              match r' with
              | e :: r'' => if ceq e sp then nl :: strip_nl_pad r'' else nl :: strip_nl_pad r'
              | [] => [nl]
              end
            else c :: strip_nl_pad r
        | [] => [c]
        end
      else if ceq c nl then
        match r with
        | e :: r' => if ceq e sp then nl :: strip_nl_pad r' else nl :: strip_nl_pad r
        | [] => [nl]
        end
      else c :: strip_nl_pad r
  end.

(** [.replace(/\n{3,}/g, "\n\n")]: [k] counts the line feeds of the
    current run, which is written out when the run ends. *)
Definition flush_nl (k : nat) : list ascii := repeat nl (if 3 <=? k then 2 else k).

Fixpoint squeeze_nl (k : nat) (s : list ascii) : list ascii :=
  match s with
  | [] => flush_nl k
  | c :: r => if ceq c nl then squeeze_nl (S k) r else flush_nl k ++ c :: squeeze_nl 0 r
  end.

Definition normalize (s : list ascii) : list ascii :=
  trim (squeeze_nl 0 (strip_nl_pad (collapse_blanks false (strip_cr s)))).

(* ------------------------------------------------------------------ *)
(** ** String helpers shared by the matchers *)

(** [String.prototype.slice(start, end)] with offsets in range; a start
    past the end gives the empty string. *)
Definition slice (s : list ascii) (start stop : nat) : list ascii :=
  take (stop - start) (drop start s).

(** [s.split("\n")] *)
Fixpoint split_nl_acc (cur : list ascii) (s : list ascii) : list (list ascii) :=
  match s with
  | [] => [rev cur]
  | c :: r => if ceq c nl then rev cur :: split_nl_acc [] r else split_nl_acc (c :: cur) r
  end.
Definition split_nl (s : list ascii) : list (list ascii) := split_nl_acc [] s.

Definition nonempty (s : list ascii) : bool :=
  match s with [] => false | _ => true end.

(** [String(block || "").split("\n").map(s => s.trim()).filter(Boolean)] *)
Definition lines_of (s : list ascii) : list (list ascii) :=
  filter (fun l => nonempty l = true) (map trim (split_nl s)).

(** [xs.join(sep)] *)
Fixpoint join (sep : list ascii) (xs : list (list ascii)) : list ascii :=
  match xs with
  | [] => []
  | [x] => x
  | x :: r => x ++ sep ++ join sep r
  end.

(** [x || null] for a string [x]. *)
Definition or_null (s : list ascii) : option (list ascii) :=
  if nonempty s then Some s else None.

(** Truthiness of a string-or-null value. *)
Definition truthy (o : option (list ascii)) : bool :=
  match o with Some s => nonempty s | None => false end.

(** [a || b] for two string-or-null values. *)
Definition js_or (a b : option (list ascii)) : option (list ascii) :=
  if truthy a then a else b.

(* ------------------------------------------------------------------ *)
(** ** Regular-expression building blocks

    A matcher at a position receives the code unit before the position
    ([None] at the start of the text) and the rest of the text. *)

Definition word_opt (o : option ascii) : bool :=
  match o with Some c => is_word c | None => false end.

(** [\b] *)
Definition bnd (prev : option ascii) (s : list ascii) : bool :=
  negb (Bool.eqb (word_opt prev) (word_opt (head s))).

Definition last_opt (prev : option ascii) (consumed : list ascii) : option ascii :=
  match last consumed with Some c => Some c | None => prev end.

(** A literal under the [i] flag; returns the rest of the text. *)
Fixpoint ci_lit (lit s : list ascii) : option (list ascii) :=
  match lit with
  | [] => Some s
  | a :: lit' =>
      match s with
      | c :: s' => if ci_eq a c then ci_lit lit' s' else None
      | [] => None
      end
  end.

(** A literal without the [i] flag. *)
Fixpoint cs_lit (lit s : list ascii) : option (list ascii) :=
  match lit with
  | [] => Some s
  | a :: lit' =>
      match s with
      | c :: s' => if ceq a c then cs_lit lit' s' else None
      | [] => None
      end
  end.

(** Leftmost match: try the matcher at offsets 0, 1, ..., length s. *)
Fixpoint search {A} (f : option ascii -> list ascii -> option A)
    (prev : option ascii) (s : list ascii) (i : nat) : option (nat * A) :=
  match f prev s with
  | Some a => Some (i, a)
  | None =>
      match s with
      | [] => None
      | c :: r => search f (Some c) r (S i)
      end
  end.

(** [\s*(C{min,})] with a greedy [\s*]: the engine first gives [\s*] the
    whole white-space run and then hands back one code unit at a time;
    the capture is the longest run of [C] from the first split that
    leaves at least [min] of them. *)
Fixpoint ws_cap_from (cls : ascii -> bool) (min : nat) (s : list ascii) (k : nat)
    : option (list ascii) :=
  let run := take_while cls (drop k s) in
  if min <=? length run then Some run
  else match k with 0 => None | S k' => ws_cap_from cls min s k' end.

Definition ws_cap (cls : ascii -> bool) (min : nat) (s : list ascii) : option (list ascii) :=
  ws_cap_from cls min s (length (take_while is_ws s)).

(** [match1(text, re)]: the first match's capture, trimmed. *)
Definition match1 (f : option ascii -> list ascii -> option (list ascii)) (s : list ascii)
    : option (list ascii) :=
  match search f None s 0 with
  | Some (_, cap) => Some (trim cap)
  | None => None
  end.

(** Sequence patterns built by [new RegExp(...)] at run time (headings
    and labels), all compiled with the [i] flag. *)
Inductive rtok :=
  | RBnd                (* \b *)
  | RLit (c : ascii)    (* a literal code unit *)
  | RPlus (c : ascii)   (* c+  (greedy) *)
  | RWsStar.            (* \s* (greedy) *)

(** The length matched by a token sequence, in the engine's backtracking
    order: a greedy repetition first takes its longest run and gives it
    back one unit at a time. *)
Fixpoint tok_match (ts : list rtok) (prev : option ascii) (s : list ascii) : option nat :=
  match ts with
  | [] => Some 0
  | RBnd :: ts' => if bnd prev s then tok_match ts' prev s else None
  | RLit a :: ts' =>
      match s with
      | c :: s' => if ci_eq a c then option_map S (tok_match ts' (Some c) s') else None
      | [] => None
      end
  | RPlus a :: ts' =>
      (fix try (k : nat) : option nat :=
         match k with
         | 0 => None
         | S k' =>
             match tok_match ts' (last_opt prev (take k s)) (drop k s) with
             | Some n => Some (k + n)
             | None => try k'
             end
         end) (length (take_while (ci_eq a) s))
  | RWsStar :: ts' =>
      (fix try (k : nat) (fuel : nat) : option nat :=
         match tok_match ts' (last_opt prev (take k s)) (drop k s) with
         | Some n => Some (k + n)
         | None => match fuel with 0 => None | S f => try (k - 1) f end
         end) (length (take_while is_ws s)) (length (take_while is_ws s))
  end.

Definition lit_toks (s : string) : list rtok := map RLit (js s).

(** [String(s).replace(/[.*+?^${}()|[\]\\]/g, "\\$&")]: every special
    character gets a backslash; the pattern parser reads [\c] back as
    the literal [c]. *)
Definition escapeRe_tok (c : ascii) : rtok := RLit c.

(** The heading pattern of [splitByHeadingsMulti] (line 252):
<<
new RegExp(`\\b${escapeRe(h).replace(/\\s+/g, "\\\\s+")}\\b`, "ig")
>>
    [/\\s+/g] is a regular-expression literal: it matches a backslash
    followed by [s] characters, not white space.  [escapeRe(h)] holds a
    backslash only where [h] holds one of the characters [.*+?^${}()|[]\],
    and no heading of [heading_list] holds any of them, so for these
    headings the replacement never applies and the pattern is [\b], the
    heading's characters (spaces included) and [\b]. *)
Definition heading_re (h : string) : list rtok :=
  RBnd :: map escapeRe_tok (js h) ++ [RBnd].

(** [while ((m = re.exec(text))) ...] for a global pattern: the matches
    found left to right, each search resuming where the previous match
    ended.  [skip] counts the offsets still covered by the last match.
    Result: (offset, length) of each match. *)
Fixpoint exec_all (f : option ascii -> list ascii -> option nat)
    (prev : option ascii) (s : list ascii) (i skip : nat) : list (nat * nat) :=
  match (if skip =? 0 then f prev s else None) with
  | Some len =>
      (i, len) :: match s with [] => [] | c :: r => exec_all f (Some c) r (S i) (len - 1) end
  | None =>
      match s with [] => [] | c :: r => exec_all f (Some c) r (S i) (skip - 1) end
  end.

(** ** splitByHeadingsMulti (lines 248-274) *)

Record hit := mkHit { hit_heading : string; hit_idx : nat; hit_len : nat }.

Definition heading_hits (text : list ascii) (h : string) : list hit :=
  map (fun '(i, l) => mkHit h i l) (exec_all (tok_match (heading_re h)) None text 0 0).

(** [hits.sort((a, b) => a.idx - b.idx)]: Array.prototype.sort is
    stable, so this is the stable sort on the offsets. *)
Fixpoint insert_hit (x : hit) (l : list hit) : list hit :=
  match l with
  | [] => [x]
  | y :: l' => if hit_idx x <=? hit_idx y then x :: y :: l' else y :: insert_hit x l'
  end.
Fixpoint sort_hits (l : list hit) : list hit :=
  match l with [] => [] | x :: l' => insert_hit x (sort_hits l') end.

Definition all_hits (text : list ascii) (headings : list string) : list hit :=
  sort_hits (concat (map (heading_hits text) headings)).

(** The span of a hit: from the end of its match to the next hit's offset
    (or the end of the text), trimmed. *)
Definition hit_end (text : list ascii) (rest : list hit) : nat :=
  match rest with h' :: _ => hit_idx h' | [] => length text end.

Definition hit_chunk (text : list ascii) (x : hit) (rest : list hit) : list ascii :=
  trim (slice text (hit_idx x + hit_len x) (hit_end text rest)).

Fixpoint build_sections (text : list ascii) (hs : list hit)
    (out : gmap string (list (list ascii))) : gmap string (list (list ascii)) :=
  match hs with
  | [] => out
  | x :: rest =>
      build_sections text rest
        (<[hit_heading x := default [] (out !! hit_heading x) ++ [hit_chunk text x rest]]> out)
  end.

Definition splitByHeadingsMulti (text : list ascii) (headings : list string)
    : gmap string (list (list ascii)) :=
  build_sections text (all_hits text headings) ∅.

(* ------------------------------------------------------------------ *)
(** ** The field patterns *)

Definition ch (s : string) : ascii :=
  match s with String c _ => c | EmptyString => "000"%char end.

(** [[0-9()\- ]] *)
Definition is_phone_ch (c : ascii) : bool :=
  is_digit c || ceq c "("%char || ceq c ")"%char || ceq c "-"%char || ceq c sp.
Definition not_nl (c : ascii) : bool := negb (ceq c nl).
Definition not_ws (c : ascii) : bool := negb (is_ws c).
(** [[A-Z0-9]] under the [i] flag *)
Definition is_alnum (c : ascii) : bool := is_alpha c || is_digit c.

(** [/LIT\s*(C{min,})/i] *)
Definition lit_cap_re (lit : string) (cls : ascii -> bool) (min : nat)
    (prev : option ascii) (s : list ascii) : option (list ascii) :=
  match ci_lit (js lit) s with Some r => ws_cap cls min r | None => None end.

(** [/Phone:\s*([0-9()\- ]{7,})/i] *)
Definition phone_re := lit_cap_re "Phone:" is_phone_ch 7.
(** [/Office:\s*([0-9()\- ]{7,})/i] *)
Definition office_re := lit_cap_re "Office:" is_phone_ch 7.
(** [/Cell:\s*([0-9()\- ]{7,})/i] *)
Definition cell_re := lit_cap_re "Cell:" is_phone_ch 7.
(** [/Mobile:\s*([0-9()\- ]{7,})/i] *)
Definition mobile_re := lit_cap_re "Mobile:" is_phone_ch 7.
(** [/\bCell:\s*([0-9()\- ]{7,})/i] *)
Definition talent_cell_re (prev : option ascii) (s : list ascii) : option (list ascii) :=
  if bnd prev s then cell_re prev s else None.
(** [/Room Type:\s*([^\n]+)/i] *)
Definition room_type_re := lit_cap_re "Room Type:" not_nl 1.
(** [/Nights:\s*(\d+)/i] *)
Definition nights_re := lit_cap_re "Nights:" is_digit 1.

(** [/Email:\s*([^\s]+@[^\s]+)/i]: the first [[^\s]+] gives back code
    units until an [@] with at least one non-space after it is found, so
    the capture is the whole non-space run when such an [@] exists. *)
Definition email_re (prev : option ascii) (s : list ascii) : option (list ascii) :=
  match ci_lit (js "Email:") s with
  | Some r =>
      let n := take_while not_ws (drop_while is_ws r) in
      if existsb (ceq "@"%char) (take (length n - 2) (drop 1 n)) then Some n else None
  | None => None
  end.

(** [/Check-?In:\s*([^\n]+)/i] and [/Check-?Out:\s*([^\n]+)/i] *)
Definition check_re (word : string) (prev : option ascii) (s : list ascii) : option (list ascii) :=
  match ci_lit (js "Check") s with
  | Some r =>
      let r' := match r with c :: r0 => if ceq c "-"%char then r0 else r | [] => r end in
      match ci_lit (js (word ++ ":")) r' with Some r2 => ws_cap not_nl 1 r2 | None => None end
  | None => None
  end.

(** [/Confirmation(?:\s*#|\s*Number)?:\s*([A-Z0-9\-]+)/i]: the optional
    group tries [\s*#], then [\s*Number], then nothing. *)
Definition conf_tail (r : list ascii) : option (list ascii) :=
  match r with
  | c :: r' => if ceq c ":"%char then ws_cap (fun c => is_alnum c || ceq c "-"%char) 1 r' else None
  | [] => None
  end.
Definition confirmation_re (prev : option ascii) (s : list ascii) : option (list ascii) :=
  match ci_lit (js "Confirmation") s with
  | Some r =>
      let alt1 := match drop_while is_ws r with
                  | c :: r' => if ceq c "#"%char then conf_tail r' else None
                  | [] => None end in
      let alt2 := match ci_lit (js "Number") (drop_while is_ws r) with
                  | Some r' => conf_tail r' | None => None end in
      match alt1 with
      | Some x => Some x
      | None => match alt2 with Some x => Some x | None => conf_tail r end
      end
  | None => None
  end.

(** [/Rate:\s*([$€£]?\s*[0-9,]+(?:\.[0-9]{2})?)/i]; the euro sign lies
    outside the modelled code units, so the currency class is [$] and
    [£] (163). *)
Definition is_rate_digit (c : ascii) : bool := is_digit c || ceq c ","%char.
Definition rate_re (prev : option ascii) (s : list ascii) : option (list ascii) :=
  match ci_lit (js "Rate:") s with
  | Some r =>
      let r1 := drop_while is_ws r in
      let cur := match r1 with
                 | c :: _ => if ceq c "$"%char || ceq c "163"%char then [c] else []
                 | [] => [] end in
      let r2 := drop (length cur) r1 in
      let w := take_while is_ws r2 in
      let ds := take_while is_rate_digit (drop (length w) r2) in
      let r3 := drop (length ds) (drop (length w) r2) in
      let dec := match r3 with
                 | d :: d1 :: d2 :: _ =>
                     if ceq d "."%char && is_digit d1 && is_digit d2 then [d; d1; d2] else []
                 | _ => [] end in
      if nonempty ds then Some (cur ++ w ++ ds ++ dec) else None
  | None => None
  end.

(** [/Booking\s*#\s*(\d{5,12})/i] *)
Definition booking_re (prev : option ascii) (s : list ascii) : option (list ascii) :=
  match ci_lit (js "Booking") s with
  | Some r =>
      match drop_while is_ws r with
      | c :: r' =>
          if ceq c "#"%char then
            let ds := take_while is_digit (drop_while is_ws r') in
            if 5 <=? length ds then Some (take 12 ds) else None
          else None
      | [] => None
      end
  | None => None
  end.

(** [/\b(Monday|...|Sunday)\b/i] and [/\b(January|...|December)\b/i] *)
Definition word_alt_re (alts : list string) (prev : option ascii) (s : list ascii) : option unit :=
  if bnd prev s then
    (fix go (l : list string) : option unit :=
       match l with
       | [] => None
       | a :: l' =>
           match ci_lit (js a) s with
           | Some r => if bnd (last_opt prev (take (length (js a)) s)) r then Some tt else go l'
           | None => go l'
           end
       end) alts
  else None.

Definition day_names : list string :=
  ["Monday"; "Tuesday"; "Wednesday"; "Thursday"; "Friday"; "Saturday"; "Sunday"].
Definition month_names : list string :=
  ["January"; "February"; "March"; "April"; "May"; "June"; "July"; "August";
   "September"; "October"; "November"; "December"].

Definition re_test {A} (f : option ascii -> list ascii -> option A) (s : list ascii) : bool :=
  match search f None s 0 with Some _ => true | None => false end.

(** [/-\s*-\s*-\s*\n([\s\S]*?)\nCONTACT INFORMATION/i] (used by
    [matchBlock] for the header).  The third [\s*] gives back white space
    until a line feed can follow it, the last line feed of the run first;
    the lazy capture then grows until [\nCONTACT INFORMATION] follows. *)
Fixpoint lazy_until (stop : list ascii) (acc s : list ascii) : option (list ascii) :=
  match ci_lit stop s with
  | Some _ => Some (rev acc)
  | None => match s with [] => None | c :: r => lazy_until stop (c :: acc) r end
  end.

Definition header_re (prev : option ascii) (s : list ascii) : option (list ascii) :=
  let stop := nl :: js "CONTACT INFORMATION" in
  match s with
  | d1 :: r1 =>
      if ceq d1 "-"%char then
        match drop_while is_ws r1 with
        | d2 :: r2 =>
            if ceq d2 "-"%char then
              match drop_while is_ws r2 with
              | d3 :: r3 =>
                  if ceq d3 "-"%char then
                    (fix try (k : nat) : option (list ascii) :=
                       match k with
                       | 0 => None
                       | S k' =>
                           match (if bool_decide (r3 !! k' = Some nl)
                                  then lazy_until stop [] (drop k r3) else None) with
                           | Some cap => Some cap
                           | None => try k'
                           end
                       end) (length (take_while is_ws r3))
                  else None
              | [] => None
              end
            else None
        | [] => None
        end
      else None
  | [] => None
  end.

(** [matchBlock(text, re)]: the first match's capture, trimmed. *)
Definition matchBlock (f : option ascii -> list ascii -> option (list ascii)) (s : list ascii)
    : option (list ascii) :=
  match search f None s 0 with
  | Some (_, cap) => Some (trim cap)
  | None => None
  end.

(** [/^[A-Z][a-zA-Z'’.\- ]+,\s+/] (no [i] flag; the right single quote
    lies outside the modelled code units). *)
Definition is_person_ch (c : ascii) : bool :=
  is_alpha c || ceq c "'"%char || ceq c "."%char || ceq c "-"%char || ceq c sp.
Definition new_person_line (l : list ascii) : bool :=
  match l with
  | c :: r =>
      is_upper c &&
      (let run := take_while is_person_ch r in
       nonempty run &&
       match drop (length run) r with
       | d :: r' => ceq d ","%char && match r' with e :: _ => is_ws e | [] => false end
       | [] => false
       end)
  | [] => false
  end.

(** [/^(.+?)(?:\n|\(|$)/i]: [.] excludes the line terminators LF and CR. *)
Definition is_lt (c : ascii) : bool := ceq c nl || ceq c cr.
Fixpoint lazy_name (acc s : list ascii) : option (list ascii) :=
  match s with
  | [] => Some (rev acc)
  | d :: r =>
      if ceq d nl || ceq d "("%char then Some (rev acc)
      else if is_lt d then None
      else lazy_name (d :: acc) r
  end.
Definition primary_name_re (prev : option ascii) (s : list ascii) : option (list ascii) :=
  match prev, s with
  | None, c :: r => if is_lt c then None else lazy_name [c] r
  | _, _ => None
  end.

(** [/\(will be accompanied by ([^)]+)\)/i] *)
Definition companion_re (prev : option ascii) (s : list ascii) : option (list ascii) :=
  match ci_lit (js "(will be accompanied by ") s with
  | Some r =>
      let run := take_while (fun c => negb (ceq c ")"%char)) r in
      match drop (length run) r with
      | _ :: _ => if nonempty run then Some run else None
      | [] => None
      end
  | None => None
  end.

(** [/[A-Z][a-zA-Z]+[’']s Cell:\s*([0-9()\- ]{7,})/i] *)
Definition companion_cell_re (prev : option ascii) (s : list ascii) : option (list ascii) :=
  match s with
  | c :: r =>
      if is_alpha c then
        let run := take_while is_alpha r in
        if nonempty run then
          match drop (length run) r with
          | q :: r' => if ceq q "'"%char then lit_cap_re "s Cell:" is_phone_ch 7 None r' else None
          | [] => None
          end
        else None
      else None
  | [] => None
  end.

(** [/(?:Reservation Code|Airline Reservation Code):\s*([A-Z0-9]+)/i] *)
Definition reservation_re (prev : option ascii) (s : list ascii) : option (list ascii) :=
  match lit_cap_re "Reservation Code:" is_alnum 1 prev s with
  | Some x => Some x
  | None => lit_cap_re "Airline Reservation Code:" is_alnum 1 prev s
  end.

(** [/\bSeat:\s*([A-Z0-9]+)/i] *)
Definition seat_colon_re (prev : option ascii) (s : list ascii) : option (list ascii) :=
  if bnd prev s then lit_cap_re "Seat:" is_alnum 1 prev s else None.

(** [/\bSeat\s+([A-Z0-9]+)\b/i] *)
Definition seat_space_re (prev : option ascii) (s : list ascii) : option (list ascii) :=
  if bnd prev s then
    match ci_lit (js "Seat") s with
    | Some r =>
        let w := take_while is_ws r in
        let run := take_while is_alnum (drop (length w) r) in
        if nonempty w && nonempty run then
          (if bnd (last run) (drop (length run) (drop (length w) r)) then Some run else None)
        else None
    | None => None
    end
  else None.

(** ** The flight pattern of [parseFlights] (line 569, flags [g], no [i])
<<
/\b([A-Z]{2,}|[A-Z][A-Za-z]+(?:\s+[A-Z][A-Za-z]+)*
   )\s+#?(\d{2,5})\b[\s\S]*?(?=\n\n|\b([A-Z]{2,}|[A-Z][A-Za-z]+(?:\s+[A-Z][A-Za-z]+)*
   )\s+#?\d{2,5}\b|$)/g
>>
    (the pattern is one line in the source; it is broken after each [*]
    above). *)

(** [\s+#?(\d{2,5})\b] after the airline: [\s+] and [#?] can only take
    their longest choice; [\d{2,5}] gives back digits until [\b] holds.
    Result: the digits and the length consumed. *)
Definition flight_number_tail (prev : option ascii) (s : list ascii) : option (list ascii * nat) :=
  let w := take_while is_ws s in
  if nonempty w then
    let s1 := drop (length w) s in
    let h := match s1 with c :: _ => if ceq c "#"%char then 1 else 0 | [] => 0 end in
    let s2 := drop h s1 in
    let ds := take_while is_digit s2 in
    (fix try (k : nat) (fuel : nat) : option (list ascii * nat) :=
       if 2 <=? k then
         if bnd (last (take k ds)) (drop k s2) then Some (take k ds, length w + h + k)
         else match fuel with 0 => None | S f => try (k - 1) f end
       else None) (Nat.min 5 (length ds)) 5
  else None.

(** The words [\s+[A-Z][A-Za-z]+] that the greedy star can take after the
    first word, as the offsets where the star may stop, longest first. *)
Fixpoint star_stops (s : list ascii) (off : nat) (fuel : nat) : list nat :=
  match fuel with
  | 0 => [off]
  | S f =>
      let rest := drop off s in
      let w := take_while is_ws rest in
      let r := drop (length w) rest in
      match r with
      | c :: r' =>
          let run := take_while is_alpha r' in
          if nonempty w && is_upper c && nonempty run
          then star_stops s (off + length w + 1 + length run) f ++ [off]
          else [off]
      | [] => [off]
      end
  end.

(** The airline and flight number at a position: [\b], then the first
    alternative, then the second one.  Result: airline, digits, length. *)
Definition flight_head (prev : option ascii) (s : list ascii)
    : option (list ascii * list ascii * nat) :=
  if bnd prev s then
    let up := take_while is_upper s in
    let alt1 :=
      (fix try (k : nat) (fuel : nat) : option (list ascii * list ascii * nat) :=
         if 2 <=? k then
           match flight_number_tail (last (take k s)) (drop k s) with
           | Some (ds, n) => Some (take k s, ds, k + n)
           | None => match fuel with 0 => None | S f => try (k - 1) f end
           end
         else None) (length up) (length up) in
    match alt1 with
    | Some x => Some x
    | None =>
        match s with
        | c :: r =>
            if is_upper c then
              let run := take_while is_alpha r in
              (fix try (k : nat) (fuel : nat) : option (list ascii * list ascii * nat) :=
                 if 1 <=? k then
                   let stops := star_stops s (1 + k) (length s) in
                   match (fix first (l : list nat) : option (list ascii * list ascii * nat) :=
                            match l with
                            | [] => None
                            | e :: l' =>
                                match flight_number_tail (last (take e s)) (drop e s) with
                                | Some (ds, n) => Some (take e s, ds, e + n)
                                | None => first l'
                                end
                            end) stops with
                   | Some x => Some x
                   | None => match fuel with 0 => None | S f => try (k - 1) f end
                   end
                 else None) (length run) (length run)
            else None
        | [] => None
        end
    end
  else None.

(** The lookahead [(?=\n\n|<airline and number>|$)]. *)
Definition flight_stop (prev : option ascii) (s : list ascii) : bool :=
  match s with
  | [] => true
  | c :: r =>
      (ceq c nl && match r with d :: _ => ceq d nl | [] => false end)
      || match flight_head prev s with Some _ => true | None => false end
  end.

(** The lazy [[\s\S]*?]: the number of code units before the lookahead
    first holds. *)
Fixpoint lazy_to_stop (prev : option ascii) (s : list ascii) : nat :=
  if flight_stop prev s then 0
  else match s with [] => 0 | c :: r => S (lazy_to_stop (Some c) r) end.

(** One match of the flight pattern at a position: airline, digits and
    the whole match [m[0]]. *)
Definition flight_re (prev : option ascii) (s : list ascii)
    : option (list ascii * list ascii * list ascii) :=
  match flight_head prev s with
  | Some (air, ds, n) =>
      let tail := lazy_to_stop (last_opt prev (take n s)) (drop n s) in
      Some (air, ds, take (n + tail) s)
  | None => None
  end.

(** The global [exec] loop over the flight pattern. *)
Fixpoint flight_matches (prev : option ascii) (s : list ascii) (skip : nat)
    : list (list ascii * list ascii * list ascii) :=
  match (if skip =? 0 then flight_re prev s else None) with
  | Some (air, ds, m0) =>
      (air, ds, m0) :: match s with [] => [] | c :: r => flight_matches (Some c) r (length m0 - 1) end
  | None => match s with [] => [] | c :: r => flight_matches (Some c) r (skip - 1) end
  end.

(** [nextCapsLabelRe = /\n[A-Z][A-Z \/\*]{3,}:\s*/g]; it is created once
    per call of [parseSitesFromContactInfo], so its [lastIndex] carries
    over from one site to the next. *)
Definition is_caps_label_ch (c : ascii) : bool :=
  is_upper c || ceq c sp || ceq c "/"%char || ceq c "*"%char.
Definition caps_label_at (prev : option ascii) (s : list ascii) : option nat :=
  match s with
  | a :: b :: r =>
      if ceq a nl && is_upper b then
        let run := take_while is_caps_label_ch r in
        if 3 <=? length run then
          match drop (length run) r with
          | c :: r' => if ceq c ":"%char then Some (3 + length run + length (take_while is_ws r'))
                       else None
          | [] => None
          end
        else None
      else None
  | _ => None
  end.

(** [re.exec(s)] with [re.lastIndex = li]: the match offset and the new
    [lastIndex] ([0] after a failure). *)
Definition caps_label_exec (li : nat) (s : list ascii) : option nat * nat :=
  if length s <? li then (None, 0)
  else match search caps_label_at (last (take li s)) (drop li s) li with
       | Some (i, len) => (Some i, i + len)
       | None => (None, 0)
       end.

(* ------------------------------------------------------------------ *)
(** ** Records of the parsed brief *)

Module HotelDetails.
Record t := mk {
  checkIn : option (list ascii); checkOut : option (list ascii);
  confirmation : option (list ascii); roomType : option (list ascii);
  nights : option Z; rate : option (list ascii) }.
End HotelDetails.

(** A site; [hotelDetails = None] when the object has no such key. *)
Module Site.
Record t := mk {
  type_ : list ascii; label : list ascii;
  name : option (list ascii); address : option (list ascii);
  phone : option (list ascii); email : option (list ascii);
  hotelDetails : option HotelDetails.t; raw : list ascii }.
End Site.

(** A contact.  [office] is [None] when the object has no [office] key
    (records built by [parseTalentContacts]); [companion] is [None] when
    it has no [companion] key (all records but the talent one). *)
Module Contact.
Record t := mk {
  group : list ascii; name : option (list ascii); title : option (list ascii);
  office : option (option (list ascii)); cell : option (list ascii);
  email : option (list ascii); companion : option (option (list ascii));
  raw : list ascii }.
End Contact.

Module FlightLeg.
Record t := mk {
  airline : list ascii; flightNumber : list ascii;
  reservationCode : option (list ascii); seat : option (list ascii); raw : list ascii }.
End FlightLeg.

Module HeaderFacts.
Record t := mk {
  talentName : option (list ascii); clientName : option (list ascii);
  eventTitle : option (list ascii); eventDateText : option (list ascii);
  raw : option (list ascii) }.
End HeaderFacts.

Module Confidence.
Record t := mk {
  overall : Z; hasBookingNumber : bool; hasHeader : bool; hasSites : bool; hasContacts : bool }.
End Confidence.

Record Schedule := mkSchedule { flights : list FlightLeg.t; schedule_raw : list ascii }.

Record Sections := mkSections {
  contactInformation : option (list ascii); eventDetails : option (list ascii);
  clientDetails : option (list ascii); talentIntroduction : option (list ascii) }.

Record ParsedBrief := mkBrief {
  bookingNumber : option (list ascii);
  header : HeaderFacts.t;
  sites : list Site.t;
  contacts : list Contact.t;
  schedule : option Schedule;
  sections : Sections;
  confidence : Confidence.t }.

(* ------------------------------------------------------------------ *)
(** ** parseHeaderBlock (lines 282-306) *)

Definition is_date_line (l : list ascii) : bool :=
  re_test (word_alt_re day_names) l || re_test (word_alt_re month_names) l.

Fixpoint find_index {A} (f : A -> bool) (l : list A) : option nat :=
  match l with
  | [] => None
  | x :: l' => if f x then Some 0 else option_map S (find_index f l')
  end.

(** [lines[i] || null] *)
Definition line_or_null (lines : list (list ascii)) (i : nat) : option (list ascii) :=
  match lines !! i with Some l => or_null l | None => None end.

Definition parseHeaderBlock (block : option (list ascii)) : HeaderFacts.t :=
  match block with
  | None | Some [] => HeaderFacts.mk None None None None None
  | Some b =>
      let lines := lines_of b in
      let eventDateText :=
        match find_index is_date_line lines with Some i => lines !! i | None => None end in
      (* both branches of [if (dateIdx >= 0)] read lines 1 and 2 *)
      HeaderFacts.mk (line_or_null lines 0) (line_or_null lines 1) (line_or_null lines 2)
        eventDateText (Some b)
  end.

(* ------------------------------------------------------------------ *)
(** ** parseSitesFromContactInfo (lines 310-403) *)

(** [!/^Phone:/i.test(l) && !/^Email:/i.test(l)] *)
Definition starts_ci (lit : string) (l : list ascii) : bool :=
  match ci_lit (js lit) l with Some _ => true | None => false end.

Definition parseAddressBlock (block : list ascii)
    : option (list ascii) * option (list ascii) * option (list ascii) * option (list ascii) :=
  let lines := lines_of block in
  let name := line_or_null lines 0 in
  let phone := match1 phone_re block in
  let email := match1 email_re block in
  let addrLines := take 4 (filter (fun l => negb (starts_ci "Phone:" l) && negb (starts_ci "Email:" l)) lines) in
  let address := match addrLines with [] => None | _ => Some (join (js ", ") addrLines) end in
  (name, address, phone, email).

(** [Number(s)] of a run of decimal digits. *)
Definition digits_value (s : list ascii) : Z :=
  fold_left (fun acc c => acc * 10 + Z.of_nat (nat_of_ascii c - 48))%Z s 0%Z.

Definition parseHotelDetails (block : list ascii) : option HotelDetails.t :=
  let checkIn := match1 (check_re "In") block in
  let checkOut := match1 (check_re "Out") block in
  let confirmation := match1 confirmation_re block in
  let roomType := match1 room_type_re block in
  let nights := match1 nights_re block in
  let rate := match1 rate_re block in
  if truthy checkIn || truthy checkOut || truthy confirmation || truthy roomType
     || truthy nights || truthy rate then
    Some (HotelDetails.mk (js_or checkIn None) (js_or checkOut None) (js_or confirmation None)
            (js_or roomType None)
            (if truthy nights then option_map digits_value nights else None)
            (js_or rate None))
  else None.

Record site_label := mkSiteLabel { sl_type : string; sl_label : list rtok }.

Definition siteLabels : list site_label :=
  [ mkSiteLabel "event" (lit_toks "EVENT SITE");
    mkSiteLabel "event" (lit_toks "EVENT/HOTEL SITE");   (* "EVENT\\/HOTEL SITE" *)
    mkSiteLabel "hotel" (lit_toks "HOTEL SITE");
    mkSiteLabel "hotel" (lit_toks "HOTEL") ].

(** [new RegExp(`\\b${label}\\b\\s*:\\s*`, "i")] (and ["ig"]) *)
Definition label_re (label : list rtok) : list rtok :=
  RBnd :: label ++ [RBnd; RWsStar; RLit ":"%char; RWsStar].

Record label_pos := mkLabelPos { lp_type : string; lp_idx : nat; lp_len : nat }.

Definition label_positions (block : list ascii) : list label_pos :=
  omap (fun sl => match search (tok_match (label_re (sl_label sl))) None block 0 with
                  | Some (i, len) => Some (mkLabelPos (sl_type sl) i len)
                  | None => None
                  end) siteLabels.

Fixpoint insert_lp (x : label_pos) (l : list label_pos) : list label_pos :=
  match l with
  | [] => [x]
  | y :: l' => if lp_idx x <=? lp_idx y then x :: y :: l' else y :: insert_lp x l'
  end.
Fixpoint sort_lp (l : list label_pos) : list label_pos :=
  match l with [] => [] | x :: l' => insert_lp x (sort_lp l') end.

Definition make_site (ty : string) (chunk : list ascii) (hotel : option HotelDetails.t) : Site.t :=
  let '(name, address, phone, email) := parseAddressBlock chunk in
  Site.mk (js ty) (if String.eqb ty "event" then js "EVENT SITE" else js "HOTEL SITE")
    name address phone email hotel chunk.

(** The loop over the sorted labels; [li] is [nextCapsLabelRe.lastIndex]. *)
Fixpoint sites_loop (block : list ascii) (lps : list label_pos) (li : nat) : list Site.t :=
  match lps with
  | [] => []
  | x :: rest =>
      let start := lp_idx x + lp_len x in
      let stop := match rest with y :: _ => lp_idx y | [] => length block end in
      let chunk0 := trim (slice block start stop) in
      let '(m2, li') := caps_label_exec li (nl :: chunk0) in
      let chunk := match m2 with
                   | Some i => if 0 <? i then trim (take i chunk0) else chunk0
                   | None => chunk0 end in
      let hotel := if String.eqb (lp_type x) "hotel" then parseHotelDetails chunk else None in
      make_site (lp_type x) chunk hotel :: sites_loop block rest li'
  end.

Definition parseSitesFromContactInfo (contactBlock : list ascii) : list Site.t :=
  match contactBlock with
  | [] => []
  | _ =>
      match sites_loop contactBlock (sort_lp (label_positions contactBlock)) 0 with
      | [] =>
          if truthy (match1 phone_re contactBlock)
          then [make_site "event" contactBlock None]
          else []
      | sites => sites
      end
  end.

(* ------------------------------------------------------------------ *)
(** ** parseContactsFromContactInfo (lines 407-561) *)

Record label_def := mkLabelDef { ld_group : string; ld_labels : list (list rtok) }.

Definition labelDefs : list label_def :=
  [ mkLabelDef "client_onsite" [lit_toks "CLIENT ONSITE CONTACT"; lit_toks "CLIENT ONSITE CONTACTS"];
    mkLabelDef "lai_onsite" [lit_toks "LEADING AUTHORITIES ONSITE CONTACT";
                             lit_toks "LEADING AUTHORITIES ONSITE CONTACTS"];
    (* "LEADING AUTHORITIES\\s*CONTACTS" is the pattern text LEADING AUTHORITIES\s*CONTACTS *)
    mkLabelDef "lai_contacts" [lit_toks "LEADING AUTHORITIES CONTACTS";
                               lit_toks "LEADING AUTHORITIES" ++ [RWsStar] ++ lit_toks "CONTACTS"];
    mkLabelDef "talent" [lit_toks "TALENT CONTACT"] ].

Record label_hit := mkLabelHit { lh_group : string; lh_idx : nat; lh_len : nat }.

Definition label_hits (block : list ascii) : list label_hit :=
  concat (map (fun d =>
    concat (map (fun lab =>
      map (fun '(i, len) => mkLabelHit (ld_group d) i len)
          (exec_all (tok_match (label_re lab)) None block 0 0)) (ld_labels d))) labelDefs).

Fixpoint insert_lh (x : label_hit) (l : list label_hit) : list label_hit :=
  match l with
  | [] => [x]
  | y :: l' => if lh_idx x <=? lh_idx y then x :: y :: l' else y :: insert_lh x l'
  end.
Fixpoint sort_lh (l : list label_hit) : list label_hit :=
  match l with [] => [] | x :: l' => insert_lh x (sort_lh l') end.

Fixpoint chunks_of (block : list ascii) (hs : list label_hit) : list (string * list ascii) :=
  match hs with
  | [] => []
  | x :: rest =>
      let stop := match rest with y :: _ => lh_idx y | [] => length block end in
      (lh_group x, trim (slice block (lh_idx x + lh_len x) stop)) :: chunks_of block rest
  end.

Definition sliceLabeledChunks (block : list ascii) : list (string * list ascii) :=
  chunks_of block (sort_lh (label_hits block)).

(** [text.split(",")] *)
Fixpoint split_comma_acc (cur : list ascii) (s : list ascii) : list (list ascii) :=
  match s with
  | [] => [rev cur]
  | c :: r => if ceq c ","%char then rev cur :: split_comma_acc [] r else split_comma_acc (c :: cur) r
  end.
Definition split_comma (s : list ascii) : list (list ascii) := split_comma_acc [] s.

Definition parsePersonBlock (block : list ascii) (group : string) : option Contact.t :=
  let nameTitleLine := trim (default [] (head (split_nl block))) in
  match nameTitleLine with
  | [] => None
  | _ =>
      let has_comma := existsb (ceq ","%char) nameTitleLine in
      let name := if has_comma then trim (default [] (head (split_comma nameTitleLine)))
                  else trim nameTitleLine in
      let title := if has_comma then Some (trim (join (js ",") (tail (split_comma nameTitleLine))))
                   else None in
      Some (Contact.mk (js group) (or_null name)
              (match title with Some t => or_null t | None => None end)
              (Some (match1 office_re block))
              (js_or (match1 cell_re block) (match1 mobile_re block))
              (match1 email_re block) None block)
  end.

(** The grouping loop of [parsePeopleList]: [cur] is the current person,
    most recent line first. *)
Fixpoint people_blocks (cur : list (list ascii)) (lines : list (list ascii)) : list (list ascii) :=
  match lines with
  | [] => match cur with [] => [] | _ => [join [nl] (rev cur)] end
  | l :: rest =>
      if new_person_line l && negb (bool_decide (cur = []))
      then join [nl] (rev cur) :: people_blocks [l] rest
      else people_blocks (l :: cur) rest
  end.

Definition parsePeopleList (text : list ascii) (group : string) : list Contact.t :=
  let lines := lines_of text in
  match lines with
  | [] => []
  | _ =>
      let blocks := match people_blocks [] lines with
                    | [] => [join [nl] lines]
                    | bs => bs end in
      omap (fun b => parsePersonBlock b group) blocks
  end.

Definition parseTalentContacts (text : list ascii) : list Contact.t :=
  let block := trim text in
  match block with
  | [] => []
  | _ =>
      let primaryName := match1 primary_name_re block in
      let companion := match1 companion_re block in
      let talentCell := js_or (match1 talent_cell_re block) None in
      let companionCell := js_or (match1 companion_cell_re block) None in
      Contact.mk (js "talent") (js_or primaryName None) None None talentCell
        (match1 email_re block) (Some (js_or companion None)) block
      :: (if truthy companion then
            [Contact.mk (js "talent_companion") companion None None companionCell None None block]
          else [])
  end.

(** [normalizePhone] *)
Definition normalizePhone (s : list ascii) : list ascii := filter is_digit s.

(** [String.prototype.toLowerCase] on Latin-1 code units. *)
Definition to_lower (c : ascii) : ascii :=
  let n := nat_of_ascii c in
  if ((65 <=? n) && (n <=? 90)) || ((192 <=? n) && (n <=? 222) && negb (n =? 215))
  then ascii_of_nat (n + 32) else c.
Definition lower (s : list ascii) : list ascii := map to_lower s.

Definition contact_key (c : Contact.t) : list ascii :=
  join (js "|") [ lower (Contact.group c);
                  lower (default [] (Contact.name c));
                  lower (default [] (Contact.email c));
                  normalizePhone (default [] (Contact.cell c));
                  normalizePhone (default [] (mjoin (Contact.office c))) ].

Fixpoint dedupe_loop (seen : gset (list ascii)) (l : list Contact.t) : list Contact.t :=
  match l with
  | [] => []
  | c :: l' =>
      let key := contact_key c in
      if bool_decide (key ∈ seen) then dedupe_loop seen l'
      else c :: dedupe_loop ({[key]} ∪ seen) l'
  end.

Definition dedupeContacts (l : list Contact.t) : list Contact.t := dedupe_loop ∅ l.

Definition parseContactsFromContactInfo (contactBlock : list ascii) : list Contact.t :=
  match contactBlock with
  | [] => []
  | _ =>
      dedupeContacts
        (concat (map (fun '(g, txt) =>
                        if String.eqb g "talent" then parseTalentContacts txt
                        else parsePeopleList txt g) (sliceLabeledChunks contactBlock)))
  end.

(* ------------------------------------------------------------------ *)
(** ** parseFlights (lines 565-584) *)

Definition parseFlights (scheduleBlock : list ascii) : list FlightLeg.t :=
  map (fun '(air, ds, m0) =>
         let raw := normalize m0 in
         FlightLeg.mk (trim air) (trim ds) (match1 reservation_re raw)
           (js_or (match1 seat_colon_re raw) (match1 seat_space_re raw)) raw)
      (flight_matches None scheduleBlock 0).

(* ------------------------------------------------------------------ *)
(** ** computeConfidence (lines 588-611) *)

Record conf_input := mkConfInput {
  ci_bookingNumber : option (list ascii); ci_talentName : option (list ascii);
  ci_clientName : option (list ascii); ci_eventTitle : option (list ascii);
  ci_eventDateText : option (list ascii);
  ci_sites : list Site.t; ci_contacts : list Contact.t }.

Definition score (v : option (list ascii)) : Z := if truthy v then 1 else 0.

(** [Math.round((total / max) * 100)] with [max = 7]: for [total] in
    0..7 the double [total / 7 * 100] is within 1e-12 of the rational
    [100 * total / 7], which is never within 0.14 of a half-integer, so
    it rounds as the rational does: [floor(100 * total / 7 + 1/2)]. *)
Definition round_percent (total max : Z) : Z := ((200 * total + max) / (2 * max))%Z.

Definition computeConfidence (x : conf_input) : Confidence.t :=
  let headerScore := (score (ci_bookingNumber x) + score (ci_talentName x) + score (ci_clientName x)
                      + score (ci_eventTitle x) + score (ci_eventDateText x))%Z in
  let sitesScore := match ci_sites x with [] => 0%Z | _ => 1%Z end in
  let contactsScore := match ci_contacts x with [] => 0%Z | _ => 1%Z end in
  let total := (headerScore + sitesScore + contactsScore)%Z in
  Confidence.mk (round_percent total 7)
    (truthy (ci_bookingNumber x))
    (truthy (ci_talentName x) || truthy (ci_clientName x) || truthy (ci_eventTitle x)
     || truthy (ci_eventDateText x))
    (match ci_sites x with [] => false | _ => true end)
    (match ci_contacts x with [] => false | _ => true end).

(* ------------------------------------------------------------------ *)
(** ** parseLaiEventBrief (lines 175-240) *)

Definition heading_list : list string :=
  ["CONTACT INFORMATION"; "SCHEDULE OF EVENTS"; "EVENT DETAILS"; "CLIENT DETAILS";
   "EVENT AGENDA"; "TALENT INTRODUCTION"; "EMERGENCY TRAVEL NUMBERS"; "STAGE DIAGRAM";
   "COX CAMPUS MAP"].

(** [sectionMap[h]?.[0]] *)
Definition first_span (m : gmap string (list (list ascii))) (h : string) : option (list ascii) :=
  match m !! h with Some (x :: _) => Some x | _ => None end.

(** [sectionMap[h]?.[0] || null] *)
Definition first_span_or_null (m : gmap string (list (list ascii))) (h : string)
    : option (list ascii) :=
  match first_span m h with Some x => or_null x | None => None end.

Definition parseLaiEventBrief (rawText : list ascii) : ParsedBrief :=
  let t := normalize rawText in
  let bookingNumber := match1 booking_re t in
  let sectionMap := splitByHeadingsMulti t heading_list in
  let contactBlock := default [] (first_span_or_null sectionMap "CONTACT INFORMATION") in
  let headerBlock := matchBlock header_re t in
  let header := parseHeaderBlock headerBlock in
  let sites := parseSitesFromContactInfo contactBlock in
  let contacts := parseContactsFromContactInfo contactBlock in
  let scheduleBlock := first_span_or_null sectionMap "SCHEDULE OF EVENTS" in
  let flights := match scheduleBlock with Some b => parseFlights b | None => [] end in
  let eventDetails := first_span_or_null sectionMap "EVENT DETAILS" in
  let clientDetails := first_span_or_null sectionMap "CLIENT DETAILS" in
  let talentIntro := first_span_or_null sectionMap "TALENT INTRODUCTION" in
  let confidence := computeConfidence
    (mkConfInput bookingNumber (HeaderFacts.talentName header) (HeaderFacts.clientName header)
       (HeaderFacts.eventTitle header) (HeaderFacts.eventDateText header) sites contacts) in
  mkBrief bookingNumber header sites contacts
    (match scheduleBlock with Some b => Some (mkSchedule flights b) | None => None end)
    (mkSections (or_null contactBlock) eventDetails clientDetails talentIntro)
    confidence.

(* ------------------------------------------------------------------ *)
(** ** clampInt (lines 110-114)
<<
function clampInt(v, min, max, def) {
  const n = Number(v);
  if (!Number.isFinite(n)) return def;
  return Math.max(min, Math.min(max, Math.floor(n)));
}
>>
    [Number(v)] is the platform's conversion; [clampInt] below starts from
    its result, a JavaScript number: NaN, an infinity, or a finite double
    given by its exact rational value ([Math.floor] of a double is exact).
    The bounds and the default are the integer literals of the call
    site [clampInt(qp.get("maxPages"), 1, 10, 1)]. *)
Inductive jsnum := JNaN | JPosInf | JNegInf | JFin (q : Q).

Definition clampInt (n : jsnum) (min max def : Z) : Z :=
  match n with
  | JFin q => Z.max min (Z.min max (Qfloor q))
  | _ => def
  end.

(** [Number(null)], the value of [Number(qp.get("maxPages"))] when the
    query has no [maxPages] parameter. *)
Definition number_of_null : jsnum := JFin 0.

(* ------------------------------------------------------------------ *)
(** ** base64ToUint8Array (lines 128-134)
<<
function base64ToUint8Array(b64) {
  const clean = String(b64 || "").replace(/^data:.*?;base64,/, "");
  const bin = atob(clean);
  const arr = new Uint8Array(bin.length);
  for (let i = 0; i < bin.length; i++) arr[i] = bin.charCodeAt(i);
  return arr;
}
>>
    Bytes are [Z] values in 0..255; [None] is the [InvalidCharacterError]
    that [atob] throws. *)

(** [.*?;base64,] after [^data:]: the lazy [.*?] stops at the first
    [";base64,"]; [.] matches no line terminator (LF and CR; U+2028 and
    U+2029 lie above 255). *)
Fixpoint lazy_base64 (s : list ascii) : option (list ascii) :=
  match cs_lit (js ";base64,") s with
  | Some r => Some r
  | None =>
      match s with
      | c :: s' => if is_lt c then None else lazy_base64 s'
      | [] => None
      end
  end.

(** [.replace(/^data:.*?;base64,/, "")]: anchored, not global, no [i]
    flag. *)
Definition strip_data_url (s : list ascii) : list ascii :=
  match cs_lit (js "data:") s with
  | Some r => match lazy_base64 r with Some r' => r' | None => s end
  | None => s
  end.

(** [atob] is the forgiving-base64 decode of the HTML standard.
    Step 1 removes ASCII white space: TAB, LF, FF, CR and SPACE. *)
Definition is_ascii_ws (c : ascii) : bool :=
  let n := nat_of_ascii c in
  (n =? 9) || (n =? 10) || (n =? 12) || (n =? 13) || (n =? 32).

(** Step 2: if the length is a multiple of 4, one or two final [=] are
    removed. *)
Definition strip_padding (s : list ascii) : list ascii :=
  if length s mod 4 =? 0 then
    match rev s with
    | a :: r =>
        if ceq a "="%char then
          match r with
          | b :: r' => if ceq b "="%char then rev r' else rev r
          | [] => []
          end
        else s
    | [] => s
    end
  else s.

(** The value of a code unit of the base64 alphabet. *)
Definition b64_value (c : ascii) : option Z :=
  let n := Z.of_nat (nat_of_ascii c) in
  if is_upper c then Some (n - 65)%Z
  else if is_lower c then Some (n - 71)%Z
  else if is_digit c then Some (n + 4)%Z
  else if ceq c "+"%char then Some 62%Z
  else if ceq c "/"%char then Some 63%Z
  else None.

(** Step 5: the bit buffer, holding [nbits] bits; every 24 bits give
    three bytes, and a final buffer of 12 or 18 bits loses its last 4 or
    2 bits and gives one or two bytes. *)
Fixpoint b64_bits (vals : list Z) (buf : Z) (nbits : nat) : list Z :=
  match vals with
  | [] =>
      if nbits =? 12 then [Z.shiftr buf 4]
      else if nbits =? 18 then [Z.shiftr buf 10; Z.land (Z.shiftr buf 2) 255]
      else []
  | v :: r =>
      let buf' := Z.lor (Z.shiftl buf 6) v in
      if nbits =? 18 then
        Z.shiftr buf' 16 :: Z.land (Z.shiftr buf' 8) 255 :: Z.land buf' 255 :: b64_bits r 0 0
      else b64_bits r buf' (nbits + 6)
  end.

(** Steps 3 and 4 fail on a length of the form [4k + 1] and on a code
    unit outside the alphabet. *)
Definition atob (s : list ascii) : option (list Z) :=
  let d := strip_padding (filter (fun c => negb (is_ascii_ws c)) s) in
  if length d mod 4 =? 1 then None
  else match mapM b64_value d with
       | Some vals => Some (b64_bits vals 0 0)
       | None => None
       end.

(** [String(b64 || "")] is the identity on strings; [bin.charCodeAt(i)]
    is the [i]-th byte produced by [atob]. *)
Definition base64ToUint8Array (b64 : list ascii) : option (list Z) :=
  atob (strip_data_url b64).

(* ------------------------------------------------------------------ *)
(** ** buildPagedText (lines 142-173) *)

Definition ff : ascii := "012"%char.

(** [s.split(sep)] for a one-character separator. *)
Fixpoint split_ch_acc (sep : ascii) (cur : list ascii) (s : list ascii) : list (list ascii) :=
  match s with
  | [] => [rev cur]
  | c :: r => if ceq c sep then rev cur :: split_ch_acc sep [] r else split_ch_acc sep (c :: cur) r
  end.
Definition split_ch (sep : ascii) (s : list ascii) : list (list ascii) := split_ch_acc sep [] s.

(** [.map(s => s.trim()).filter(Boolean)] *)
Definition trimmed_chunks (chunks : list (list ascii)) : list (list ascii) :=
  filter (fun l => nonempty l = true) (map trim chunks).

(** [\s+] and [\d+] consuming their whole run (the pattern below never
    has to hand back a code unit: each run is followed by a class
    disjoint from it). *)
Definition ws_plus (s : list ascii) : option (list ascii) :=
  match s with c :: _ => if is_ws c then Some (drop_while is_ws s) else None | [] => None end.
Definition digits_plus (s : list ascii) : option (list ascii) :=
  match s with c :: _ => if is_digit c then Some (drop_while is_digit s) else None | [] => None end.

(** The lookahead [(?=\bPage\s+\d+\s+of\s+\d+\b)] with the [i] flag.
    The final [\b] follows a digit, so it holds iff the next code unit
    is not a word character; a shorter [\d+] would leave a digit next,
    where [\b] fails, so the greedy run is the only candidate. *)
Definition marker_at (prev : option ascii) (s : list ascii) : bool :=
  bnd prev s &&
  match ((((((ci_lit (js "Page") s ≫= ws_plus) ≫= digits_plus) ≫= ws_plus)
          ≫= ci_lit (js "of")) ≫= ws_plus) ≫= digits_plus) with
  | Some r => negb (word_opt (head r))
  | None => false
  end.

(** [text.split(markerRe)]: the separator matches the empty string, so
    the text is cut at every offset [q] with [0 < q < length text] where
    the lookahead holds ([cur] is the current piece, reversed; it is
    empty only at offset 0, where the split algorithm never cuts). *)
Fixpoint marker_split (prev : option ascii) (cur : list ascii) (s : list ascii)
    : list (list ascii) :=
  match s with
  | [] => [rev cur]
  | c :: r =>
      if nonempty cur && marker_at prev s then rev cur :: marker_split (Some c) [c] r
      else marker_split (Some c) (c :: cur) r
  end.

(** [{ page: i + 1, text: t, ms: 0 }] *)
Record page := mkPage { page_no : nat; page_text : list ascii; page_ms : Z }.

(** The decimal digits of a natural number ([`${n}`]). *)
Fixpoint dec_aux (fuel n : nat) (acc : list ascii) : list ascii :=
  match fuel with
  | 0 => acc
  | S f =>
      let acc' := ascii_of_nat (48 + n mod 10) :: acc in
      if n <? 10 then acc' else dec_aux f (n / 10) acc'
  end.
Definition dec (n : nat) : list ascii := dec_aux (S n) n [].

(** [`\n\n=== PAGE ${x.page} ===\n${x.text}`] *)
Definition page_block (x : page) : list ascii :=
  nl :: nl :: js "=== PAGE " ++ dec (page_no x) ++ js " ===" ++ nl :: page_text x.

Record paged := mkPaged { rawText : list ascii; pages : list page; extractedPages : nat }.

(** [chunks.slice(0, e)] for an integer [e]: a negative end counts from
    the end of the array. *)
Definition slice0 {A} (l : list A) (e : Z) : list A :=
  take (Z.to_nat (if (e <? 0)%Z then Z.max (Z.of_nat (length l) + e) 0 else e)) l.

(** The common tail of the first two branches. *)
Definition pages_of_chunks (chunks : list (list ascii)) (maxPages : Z) : paged :=
  let take := Z.min (Z.of_nat (length chunks)) maxPages in
  let pages := imap (fun i t => mkPage (S i) t 0) (slice0 chunks take) in
  let rawText := mjoin (map page_block pages) in
  mkPaged rawText pages (length pages).

(** [maxPages] is an integer, as [clampInt] returns; [String(fullText ||
    "")] is the identity on strings. *)
Definition buildPagedText (fullText : list ascii) (maxPages : Z) : paged :=
  let text := trim fullText in
  let ffChunks := trimmed_chunks (split_ch ff text) in
  if 2 <=? length ffChunks then pages_of_chunks ffChunks maxPages
  else
    let markerChunks := trimmed_chunks (marker_split None [] text) in
    if 2 <=? length markerChunks then pages_of_chunks markerChunks maxPages
    else
      let pages := [mkPage 1 text 0] in
      mkPaged (page_block (mkPage 1 text 0)) pages 1.

(* ------------------------------------------------------------------ *)
(** ** Auxiliary definitions for the properties *)

(** A string equal to its own trim: no white space at either end. *)
Definition is_trimmed (s : list ascii) : bool :=
  match head s, last s with
  | Some a, Some b => negb (is_ws a) && negb (is_ws b)
  | _, _ => true
  end.

(** The code unit before offset [k] of [s], [prev] being the one before
    [s] itself. *)
Definition prev_at (prev : option ascii) (s : list ascii) (k : nat) : option ascii :=
  match k with 0 => prev | S k' => s !! k' end.

(** Presence of a string-or-null value. *)
Definition is_present (o : option (list ascii)) : bool :=
  match o with Some _ => true | None => false end.

(** [1] for a present value, [0] for an absent one. *)
Definition present (o : option (list ascii)) : Z :=
  match o with Some _ => 1%Z | None => 0%Z end.

(** Sample inputs: a JavaScript string literal with [\n] separators,
    given as the list of its lines. *)
Definition text_of_lines (ls : list string) : list ascii := join [nl] (map js ls).

(** The input of end-to-end scenario 1 of the specification. *)
Definition scenario1_input : list ascii :=
  text_of_lines
    ["Booking # 123456"; "- - -"; "Jane Doe"; "Acme Corp"; "Annual Gala";
     "Friday, June 1, 2024"; "CONTACT INFORMATION"; "EVENT SITE: Grand Hall";
     "123 Main St"; "Phone: (555) 123-4567"; "CLIENT ONSITE CONTACT: John Smith, Manager";
     "Office: (555) 987-6543"; "SCHEDULE OF EVENTS"; "AA 1234 Reservation Code: ABCDEF Seat 12A";
     "- - -"; "EVENT DETAILS"; "Setup at noon."].

(** Two confidence inputs: nothing recovered, and a booking number only. *)
Definition conf_nothing : conf_input := mkConfInput None None None None None [] [].
Definition conf_booking_only : conf_input :=
  mkConfInput (Some (js "12345")) None None None None [] [].

(** The booking-number occurrence of the specification, read from its
    words: at the start of [s], "Booking" (in any letter case), optional
    white space, "#", optional white space, then a run [ds] of at least 5
    digits that no further digit extends. *)
Definition booking_at (s ds : list ascii) : Prop :=
  exists b w1 w2 rest : list ascii,
    s = b ++ w1 ++ ("#"%char :: w2 ++ ds ++ rest) /\
    Forall2 (fun p c => ci_eq p c = true) (js "Booking") b /\
    Forall (fun c => is_ws c = true) w1 /\ Forall (fun c => is_ws c = true) w2 /\
    Forall (fun c => is_digit c = true) ds /\ 5 <= length ds /\
    match rest with c :: _ => is_digit c = false | [] => True end.

(** Such an occurrence at offset [i] of the text [t]. *)
Definition booking_occurrence (t : list ascii) (i : nat) (ds : list ascii) : Prop :=
  booking_at (drop i t) ds.

(** No two adjacent code units [c], [d] of [s] with [P c d]. *)
Fixpoint no_adj (P : ascii -> ascii -> bool) (s : list ascii) : bool :=
  match s with
  | c :: ((d :: _) as r) => negb (P c d) && no_adj P r
  | _ => true
  end.

(** The pairs that [normalize] removes: two spaces, a space before a line
    feed, a space after a line feed. *)
Definition sp_sp (c d : ascii) : bool := ceq c sp && ceq d sp.
Definition blank_pair (c d : ascii) : bool :=
  (ceq c sp && ceq d sp) || (ceq c sp && ceq d nl) || (ceq c nl && ceq d sp).

(** Runs of line feeds of length at most 2, [run] being the number of
    line feeds just before [s]. *)
Fixpoint nl_ok (run : nat) (s : list ascii) : bool :=
  match s with
  | [] => true
  | c :: r => if ceq c nl then (run <? 2) && nl_ok (S run) r else nl_ok 0 r
  end.


(** Deduplication as the specification words it: of the contacts with
    one composite key the first is kept and the later ones are dropped. *)
Fixpoint keep_first (l : list Contact.t) : list Contact.t :=
  match l with
  | [] => []
  | c :: l' => c :: filter (fun d => contact_key d <> contact_key c) (keep_first l')
  end.

(** The groups the label table and [parseTalentContacts] assign. *)
Definition contact_groups : list (list ascii) :=
  map js ["client_onsite"; "lai_onsite"; "lai_contacts"; "talent"; "talent_companion"].

(** A contact-information section listing one contact block twice: under
    the client's onsite label and under the agency's onsite label. *)
Definition twice_listed_input : list ascii :=
  text_of_lines
    ["CONTACT INFORMATION"; "CLIENT ONSITE CONTACT: John Smith, Manager";
     "Cell: (555) 111-2222"; "Email: john@acme.com";
     "LEADING AUTHORITIES ONSITE CONTACT: John Smith, Manager";
     "Cell: (555) 111-2222"; "Email: john@acme.com"].


(** An occurrence of heading [h] at offset [i] of [t], in the
    specification's words: the heading's characters in any letter case,
    with a word boundary before and after them. *)
Definition heading_at (t : list ascii) (h : string) (i : nat) : Prop :=
  let n := length (js h) in
  Forall2 (fun p c => ci_eq p c = true) (js h) (slice t i (i + n)) /\
  bnd (prev_at None t i) (drop i t) = true /\
  bnd (prev_at None t (i + n)) (drop (i + n) t) = true.

(** A word [w] cannot occur again, with a word boundary, at a shift [d]
    inside one of its own occurrences: the characters before and at the
    shift are both word characters or both not, or the rest of [w] from
    [d] on does not match the start of [w]. *)
Definition overlap_free (w : list ascii) : bool :=
  forallb (fun d => negb (bnd (w !! (d - 1)) (drop d w) && is_present (ci_lit (drop d w) w)))
    (seq 1 (length w - 1)).

(** The spans the specification assigns to a sequence of heading hits:
    from the end of each match to the offset of the next hit, or to the
    end of the text for the last one; untrimmed. *)
Fixpoint heading_spans (t : list ascii) (hs : list hit) : list (string * list ascii) :=
  match hs with
  | [] => []
  | x :: rest =>
      (hit_heading x,
       slice t (hit_idx x + hit_len x)
         (match rest with y :: _ => hit_idx y | [] => length t end))
      :: heading_spans t rest
  end.

(** The spans of the hits of heading [h], in order. *)
Definition spans_of (t : list ascii) (hs : list hit) (h : string) : list (list ascii) :=
  map snd (filter (fun p => p.1 = h) (heading_spans t hs)).

(** A text where "EVENT DETAILS" occurs twice, with two bodies. *)
Definition event_details_twice : list ascii :=
  text_of_lines ["EVENT DETAILS"; "First body"; "EVENT DETAILS"; "Second body"].

(** A contact-information section whose body follows on the next line. *)
Definition contact_info_grand_hall : list ascii :=
  text_of_lines ["CONTACT INFORMATION"; "Grand Hall"].


(** A brief with a booking number and a full header but no recognized
    heading: "CONTACT INFORMATIONS" ends the header block, but no word
    boundary follows "CONTACT INFORMATION" there. *)
Definition no_heading_input : list ascii :=
  text_of_lines ["Booking # 12345"; "- - -"; "A"; "B"; "C"; "Monday"; "CONTACT INFORMATIONS"].


(** A contact-information section whose event-site label is followed
    directly by the hotel-site label. *)
Definition empty_site_input : list ascii :=
  text_of_lines ["CONTACT INFORMATION"; "EVENT SITE:"; "HOTEL SITE: Inn"].


(** Standard base64 with padding (RFC 4648, section 4), the encoding a
    client applies to the PDF bytes it wraps in a JSON body: each group
    of three bytes gives four characters, and a final group of one or
    two bytes gives two or three characters followed by [=] padding. *)
Definition b64_char (v : Z) : ascii :=
  if (v <? 26)%Z then ascii_of_nat (Z.to_nat (v + 65))
  else if (v <? 52)%Z then ascii_of_nat (Z.to_nat (v + 71))
  else if (v <? 62)%Z then ascii_of_nat (Z.to_nat (v - 4))
  else if (v =? 62)%Z then "+"%char else "/"%char.

Fixpoint b64_sextets (bs : list Z) : list Z :=
  match bs with
  | a :: b :: c :: r =>
      let n := (a * 65536 + b * 256 + c)%Z in
      (n / 262144)%Z :: (n / 4096 mod 64)%Z :: (n / 64 mod 64)%Z :: (n mod 64)%Z
        :: b64_sextets r
  | [a; b] =>
      let n := (a * 65536 + b * 256)%Z in
      [(n / 262144)%Z; (n / 4096 mod 64)%Z; (n / 64 mod 64)%Z]
  | [a] => [(a / 4)%Z; (a mod 4 * 16)%Z]
  | [] => []
  end.

Definition b64_encode (bs : list Z) : list ascii :=
  map b64_char (b64_sextets bs) ++ repeat "="%char ((3 - length bs mod 3) mod 3).

(** The bytes "Hello", and a body text carrying them in base64 broken
    over two lines. *)
Definition hello_bytes : list Z := [72; 101; 108; 108; 111]%Z.
Definition hello_wrapped : list ascii := js "SGVs" ++ nl :: js "bG8=".

(* ------------------------------------------------------------------ *)
(** ** Auxiliary definitions for the further properties *)

(** The site types of the label table. *)
Definition site_type_ok (lp : label_pos) : Prop :=
  lp_type lp = "event"%string \/ lp_type lp = "hotel"%string.

(** The two shapes of a site record: an event site, or a hotel site. *)
Definition site_shape (s : Site.t) : Prop :=
  (Site.type_ s = js "event" /\ Site.label s = js "EVENT SITE" /\ Site.hotelDetails s = None) \/
  (Site.type_ s = js "hotel" /\ Site.label s = js "HOTEL SITE").

(** The groups of the contact label table. *)
Definition label_group_ok (g : string) : Prop :=
  In g ["client_onsite"; "lai_onsite"; "lai_contacts"; "talent"]%string.

(** A line: no line feed. *)
Definition no_nl (s : list ascii) : Prop := Forall (fun c => c <> nl) s.

(** ** The header facts of the earlier parser (second module)
<<
  const t = normalize(rawText);
  const headerBlock = matchBlock(t, /-\s*-\s*-\s*\n([\s\S]*?)\nCONTACT INFORMATION/i);
  let talentName = null, clientName = null, eventTitle = null, eventDateText = null;
  if (headerBlock) {
    const lines = headerBlock.split("\n").map(x => x.trim()).filter(Boolean);
    talentName = lines[0] || null;
    clientName = lines[1] || null;
    eventTitle = lines[2] || null;
    eventDateText = lines[3] || null;
  }
>>
    Its [normalize] and [matchBlock] are the first module's, line for
    line; the four facts, in this order. *)
Definition legacy_header_fields (rawText : list ascii)
    : option (list ascii) * option (list ascii) * option (list ascii) * option (list ascii) :=
  let t := normalize rawText in
  let headerBlock := matchBlock header_re t in
  match headerBlock with
  | Some ((_ :: _) as b) =>
      let lines := lines_of b in
      (line_or_null lines 0, line_or_null lines 1, line_or_null lines 2, line_or_null lines 3)
  | _ => (None, None, None, None)
  end.

(* ================================================================== *)
(** * Properties *)

(** ** Scanning helpers *)

Lemma take_drop_while f s : take_while f s ++ drop_while f s = s.
Proof. induction s as [|c s IH]; simpl; [done|]. destruct (f c); simpl; congruence. Qed.

Lemma take_while_all f s : Forall (fun c => f c = true) (take_while f s).
Proof.
  induction s as [|c s IH]; simpl; [constructor|].
  destruct (f c) eqn:E; constructor; auto.
Qed.

Lemma drop_while_stop f s :
  match drop_while f s with [] => True | c :: _ => f c = false end.
Proof.
  induction s as [|c s IH]; simpl; [done|].
  destruct (f c) eqn:E; [exact IH|exact E].
Qed.

Lemma drop_while_id f s :
  match s with [] => True | c :: _ => f c = false end -> drop_while f s = s.
Proof. destruct s as [|c s]; simpl; [done|]. intros ->. done. Qed.

Lemma take_while_app f a b :
  Forall (fun c => f c = true) a ->
  match b with [] => True | c :: _ => f c = false end ->
  take_while f (a ++ b) = a /\ drop_while f (a ++ b) = b.
Proof.
  intros Ha Hb. induction Ha as [|c a Hc Ha IH]; simpl.
  - destruct b as [|c b]; simpl; [done|]. rewrite Hb. done.
  - rewrite Hc. destruct IH as [-> ->]. done.
Qed.

Lemma Forall_app_ws_drop f a b :
  Forall (fun c => f c = true) a -> drop_while f (a ++ b) = drop_while f b.
Proof. induction 1 as [|c a Hc _ IH]; simpl; [done|]. rewrite Hc. exact IH. Qed.

(** ** [trim] *)

Lemma last_rev_head (s : list ascii) : last s = head (rev s).
Proof.
  induction s as [|c s IH]; [done|].
  rewrite last_cons, IH. simpl. rewrite head_app.
  destruct (head (rev s)); done.
Qed.

Lemma trim_trimmed s : is_trimmed (trim s) = true.
Proof.
  unfold trim, is_trimmed.
  set (u := drop_while is_ws s).
  pose proof (drop_while_stop is_ws s) as Hu. fold u in Hu.
  pose proof (drop_while_stop is_ws (rev u)) as Hv.
  pose proof (take_drop_while is_ws (rev u)) as Hsplit.
  set (v := drop_while is_ws (rev u)) in *.
  destruct v as [|d v'] eqn:Ev; [done|].
  rewrite last_rev_head, rev_involutive. simpl.
  assert (Hu' : u = rev (d :: v') ++ rev (take_while is_ws (rev u))).
  { rewrite <- rev_app_distr, Hsplit, rev_involutive. done. }
  assert (Hh : head (rev (d :: v')) = head u).
  { rewrite Hu', head_app. simpl. destruct (rev v' ++ [d]) eqn:E; [|done].
    apply (f_equal length) in E. rewrite length_app in E. simpl in E. lia. }
  simpl in Hh. rewrite Hh. destruct u as [|a u']; simpl; [done|].
  rewrite Hu, Hv. done.
Qed.

Lemma trim_of_trimmed s : is_trimmed s = true -> trim s = s.
Proof.
  unfold is_trimmed, trim. intros H.
  destruct s as [|a r]; [done|].
  rewrite last_rev_head in H. simpl in H.
  destruct (rev r ++ [a]) as [|b t] eqn:E.
  { apply (f_equal length) in E. rewrite length_app in E. simpl in E. lia. }
  simpl in H. apply andb_prop in H as [Ha Hb]. apply negb_true_iff in Ha, Hb.
  simpl. rewrite Ha. simpl. rewrite E. simpl. rewrite Hb.
  rewrite <- E. rewrite rev_app_distr, rev_involutive. done.
Qed.

Lemma trim_idem s : trim (trim s) = trim s.
Proof. apply trim_of_trimmed, trim_trimmed. Qed.

Lemma trim_nil s : trim s = [] <-> Forall (fun c => is_ws c = true) s.
Proof.
  unfold trim. split.
  - intros H. apply (f_equal (@rev ascii)) in H. rewrite rev_involutive in H. simpl in H.
    pose proof (take_drop_while is_ws s) as Hs.
    pose proof (take_drop_while is_ws (rev (drop_while is_ws s))) as Hr.
    rewrite H, app_nil_r in Hr.
    pose proof (take_while_all is_ws (rev (drop_while is_ws s))) as Hw. rewrite Hr in Hw.
    apply Forall_rev in Hw. rewrite rev_involutive in Hw.
    rewrite <- Hs. apply Forall_app. split; [apply take_while_all|exact Hw].
  - intros H. rewrite <- (app_nil_r s), Forall_app_ws_drop by exact H. done.
Qed.

Lemma trim_nonempty s c : In c s -> is_ws c = false -> trim s <> [].
Proof.
  intros Hin Hc Ht. apply trim_nil in Ht. rewrite Forall_forall in Ht.
  rewrite (Ht c (proj2 (list_elem_of_In _ _) Hin)) in Hc. discriminate.
Qed.

Lemma digit_not_ws c : is_digit c = true -> is_ws c = false.
Proof. destruct c as [[] [] [] [] [] [] [] []]; vm_compute; congruence. Qed.

(** ** Leftmost search *)

Lemma prev_at_cons prev c r m : prev_at prev (c :: r) (S m) = prev_at (Some c) r m.
Proof. destruct m; done. Qed.

Lemma search_Some {A} (f : option ascii -> list ascii -> option A) prev s i j a :
  search f prev s i = Some (j, a) ->
  i <= j /\ j - i <= length s /\
  f (prev_at prev s (j - i)) (drop (j - i) s) = Some a /\
  (forall k, k < j - i -> f (prev_at prev s k) (drop k s) = None).
Proof.
  revert prev i. induction s as [|c r IH]; intros prev i H; simpl in H.
  - destruct (f prev []) eqn:E; [|done]. injection H as <- <-.
    rewrite Nat.sub_diag. simpl. split; [lia|]. split; [lia|]. split; [done|lia].
  - destruct (f prev (c :: r)) eqn:E.
    + injection H as <- <-. rewrite Nat.sub_diag. simpl.
      split; [lia|]. split; [lia|]. split; [done|lia].
    + apply IH in H as (H1 & H2 & H3 & H4).
      replace (j - i) with (S (j - S i)) by lia.
      split; [lia|]. split; [simpl; lia|].
      split; [rewrite prev_at_cons; exact H3|].
      intros [|k] Hk; [exact E|]. rewrite prev_at_cons. apply H4. lia.
Qed.

Lemma search_None {A} (f : option ascii -> list ascii -> option A) prev s i :
  search f prev s i = None <->
  forall k, k <= length s -> f (prev_at prev s k) (drop k s) = None.
Proof.
  revert prev i. induction s as [|c r IH]; intros prev i; simpl.
  - split.
    + intros H k Hk. destruct k; [|lia]. simpl. destruct (f prev []); done.
    + intros H. specialize (H 0 ltac:(lia)). simpl in H. rewrite H. done.
  - destruct (f prev (c :: r)) eqn:E.
    + split; [done|]. intros H. specialize (H 0 ltac:(lia)). simpl in H. congruence.
    + rewrite IH. split.
      * intros H [|k] Hk; [exact E|]. rewrite prev_at_cons. apply H. lia.
      * intros H k Hk. specialize (H (S k) ltac:(simpl; lia)). rewrite prev_at_cons in H. exact H.
Qed.

Lemma match1_Some f s v :
  match1 f s = Some v ->
  exists k cap, k <= length s /\ f (prev_at None s k) (drop k s) = Some cap /\ v = trim cap.
Proof.
  unfold match1. destruct (search f None s 0) as [[j cap]|] eqn:E; [|done].
  intros [= <-]. apply search_Some in E as (_ & H2 & H3 & _).
  exists (j - 0), cap. done.
Qed.

(** ** Confidence *)

Lemma truthy_is_present (o : option (list ascii)) :
  (forall v, o = Some v -> v <> []) -> truthy o = is_present o.
Proof. destruct o as [[|c v]|]; simpl; intros H; [by destruct (H [])|done|done]. Qed.

Lemma score_present (o : option (list ascii)) :
  (forall v, o = Some v -> v <> []) -> score o = present o.
Proof. intros H. unfold score. rewrite truthy_is_present by exact H. destruct o; done. Qed.

Lemma score_mono a b : (truthy a = true -> truthy b = true) -> (score a <= score b)%Z.
Proof. unfold score. destruct (truthy a), (truthy b); intros H; lia || (specialize (H eq_refl); done). Qed.

Lemma round_percent_mono n m : (n <= m)%Z -> (round_percent n 7 <= round_percent m 7)%Z.
Proof. intros H. unfold round_percent. apply Z.div_le_mono; lia. Qed.

Lemma computeConfidence_present x :
  (forall v, ci_bookingNumber x = Some v -> v <> []) ->
  (forall v, ci_talentName x = Some v -> v <> []) ->
  (forall v, ci_clientName x = Some v -> v <> []) ->
  (forall v, ci_eventTitle x = Some v -> v <> []) ->
  (forall v, ci_eventDateText x = Some v -> v <> []) ->
  computeConfidence x =
  Confidence.mk
    (round_percent (present (ci_bookingNumber x) + present (ci_talentName x)
                    + present (ci_clientName x) + present (ci_eventTitle x)
                    + present (ci_eventDateText x)
                    + match ci_sites x with [] => 0 | _ => 1 end
                    + match ci_contacts x with [] => 0 | _ => 1 end) 7)
    (is_present (ci_bookingNumber x))
    (is_present (ci_talentName x) || is_present (ci_clientName x) || is_present (ci_eventTitle x)
     || is_present (ci_eventDateText x))
    (match ci_sites x with [] => false | _ => true end)
    (match ci_contacts x with [] => false | _ => true end).
Proof.
  intros H1 H2 H3 H4 H5. unfold computeConfidence.
  rewrite !score_present, !truthy_is_present by assumption. done.
Qed.

Lemma line_or_null_nonempty lines i v : line_or_null lines i = Some v -> v <> [].
Proof.
  unfold line_or_null, or_null. destruct (lines !! i) as [[|c l]|]; simpl; congruence.
Qed.

Lemma lines_of_nonempty s : Forall (fun l => l <> []) (lines_of s).
Proof.
  unfold lines_of. induction (map trim (split_nl s)) as [|l ls IH]; simpl; [constructor|].
  rewrite filter_cons. case_decide as Hl; [|exact IH].
  constructor; [|exact IH]. destruct l; done.
Qed.

Lemma header_fields_nonempty b :
  let h := parseHeaderBlock b in
  (forall v, HeaderFacts.talentName h = Some v -> v <> []) /\
  (forall v, HeaderFacts.clientName h = Some v -> v <> []) /\
  (forall v, HeaderFacts.eventTitle h = Some v -> v <> []) /\
  (forall v, HeaderFacts.eventDateText h = Some v -> v <> []).
Proof.
  unfold parseHeaderBlock. destruct b as [[|c b]|]; simpl; [done| |done].
  split; [intros v; apply line_or_null_nonempty|].
  split; [intros v; apply line_or_null_nonempty|].
  split; [intros v; apply line_or_null_nonempty|].
  intros v. destruct (find_index _ _) as [i|]; [|done].
  intros Hv. eapply (Forall_lookup_1 _ _ _ _ (lines_of_nonempty _) Hv).
Qed.

Lemma booking_re_Some prev s cap :
  booking_re prev s = Some cap ->
  exists ds, Forall (fun c => is_digit c = true) ds /\ 5 <= length ds /\ cap = take 12 ds.
Proof.
  unfold booking_re. destruct (ci_lit _ s) as [r|]; [|done].
  destruct (drop_while is_ws r) as [|c r']; [done|].
  destruct (ceq c "#"%char); [|done].
  destruct (Nat.leb_spec 5 (length (take_while is_digit (drop_while is_ws r')))) as [Hl|]; [|done].
  intros [= <-]. eexists. split; [apply take_while_all|]. done.
Qed.

Lemma digits_trimmed_nonempty cap ds :
  Forall (fun c => is_digit c = true) ds -> 5 <= length ds -> cap = take 12 ds ->
  trim cap = cap /\ cap <> [].
Proof.
  intros Hd Hl ->. destruct ds as [|c ds]; [simpl in Hl; lia|].
  inversion Hd as [|? ? Hc Hds]; subst.
  split; [|done]. apply trim_of_trimmed. unfold is_trimmed. simpl.
  rewrite (digit_not_ws c Hc). simpl.
  destruct (last (c :: take 11 ds)) as [d|] eqn:E; [|done].
  apply last_Some_elem_of in E.
  assert (Hdd : Forall (fun c => is_digit c = true) (c :: take 11 ds)).
  { constructor; [exact Hc|]. rewrite <- (take_drop 11 ds) in Hds.
    apply Forall_app in Hds. apply Hds. }
  rewrite Forall_forall in Hdd. rewrite (digit_not_ws d (Hdd d E)). done.
Qed.

Lemma bookingNumber_nonempty t v : match1 booking_re t = Some v -> v <> [].
Proof.
  intros H. apply match1_Some in H as (k & cap & _ & Hm & ->).
  apply booking_re_Some in Hm as (ds & Hd & Hl & Hc).
  destruct (digits_trimmed_nonempty cap ds Hd Hl Hc) as [-> Hne]. exact Hne.
Qed.

(** ** Claims C1, C2 and C7: end-to-end scenario and confidence *)

(** C1: on the exact input text of scenario 1 the engine returns the
    booking number "123456", the talent name "Jane Doe", a first site of
    type "event" with phone "(555) 123-4567", a client_onsite contact
    named "John Smith" with office "(555) 987-6543", a first flight leg
    AA 1234 with reservation code ABCDEF and seat 12A, and
    hasBookingNumber = true. *)
Theorem scenario1_brief :
  let r := parseLaiEventBrief scenario1_input in
  bookingNumber r = Some (js "123456") /\
  HeaderFacts.talentName (header r) = Some (js "Jane Doe") /\
  (exists s rest, sites r = s :: rest /\ Site.type_ s = js "event" /\
                  Site.phone s = Some (js "(555) 123-4567")) /\
  (exists c, In c (contacts r) /\ Contact.group c = js "client_onsite" /\
             Contact.name c = Some (js "John Smith") /\
             Contact.office c = Some (Some (js "(555) 987-6543"))) /\
  (exists sch f rest, schedule r = Some sch /\ flights sch = f :: rest /\
                      FlightLeg.airline f = js "AA" /\ FlightLeg.flightNumber f = js "1234" /\
                      FlightLeg.reservationCode f = Some (js "ABCDEF") /\
                      FlightLeg.seat f = Some (js "12A")) /\
  Confidence.hasBookingNumber (confidence r) = true.
Proof.
  vm_compute.
  repeat match goal with
         | |- _ /\ _ => split
         | |- ex _ => eexists
         | |- _ \/ _ => left
         end; reflexivity.
Qed.

(** C2: for every input, the confidence score is the rounded percentage
    of [n / 7], where [n] counts the present values among bookingNumber,
    talentName, clientName, eventTitle and eventDateText, plus one for a
    non-empty site list and one for a non-empty contact list; each flag
    is true iff one of its facts is present.  For the input
    "Booking # 999999" the brief has bookingNumber "999999", no header
    field, no site, no contact, no schedule, no section and overall 14. *)
Theorem confidence_counts_present_facts :
  (forall rawText,
     let r := parseLaiEventBrief rawText in
     let h := header r in
     confidence r =
     Confidence.mk
       (round_percent (present (bookingNumber r) + present (HeaderFacts.talentName h)
                       + present (HeaderFacts.clientName h) + present (HeaderFacts.eventTitle h)
                       + present (HeaderFacts.eventDateText h)
                       + match sites r with [] => 0 | _ => 1 end
                       + match contacts r with [] => 0 | _ => 1 end) 7)
       (is_present (bookingNumber r))
       (is_present (HeaderFacts.talentName h) || is_present (HeaderFacts.clientName h)
        || is_present (HeaderFacts.eventTitle h) || is_present (HeaderFacts.eventDateText h))
       (match sites r with [] => false | _ => true end)
       (match contacts r with [] => false | _ => true end)) /\
  parseLaiEventBrief (js "Booking # 999999") =
  mkBrief (Some (js "999999")) (HeaderFacts.mk None None None None None) [] [] None
    (mkSections None None None None) (Confidence.mk 14 true false false false).
Proof.
  split; [|vm_compute; reflexivity].
  intros rawText. cbv zeta. unfold parseLaiEventBrief. cbv zeta. simpl.
  destruct (header_fields_nonempty (matchBlock header_re (normalize rawText)))
    as (H1 & H2 & H3 & H4).
  apply computeConfidence_present; simpl; try assumption.
  apply bookingNumber_nonempty.
Qed.

(** C7: the confidence score is monotone in the recovered facts: if
    every fact present in the first input of [computeConfidence] (each of
    the five header facts, a non-empty site list, a non-empty contact
    list) is also present in the second, the second score is at least
    the first. *)
Theorem confidence_monotone x y :
  (truthy (ci_bookingNumber x) = true -> truthy (ci_bookingNumber y) = true) ->
  (truthy (ci_talentName x) = true -> truthy (ci_talentName y) = true) ->
  (truthy (ci_clientName x) = true -> truthy (ci_clientName y) = true) ->
  (truthy (ci_eventTitle x) = true -> truthy (ci_eventTitle y) = true) ->
  (truthy (ci_eventDateText x) = true -> truthy (ci_eventDateText y) = true) ->
  (ci_sites x <> [] -> ci_sites y <> []) ->
  (ci_contacts x <> [] -> ci_contacts y <> []) ->
  (Confidence.overall (computeConfidence x) <= Confidence.overall (computeConfidence y))%Z.
Proof.
  intros H1 H2 H3 H4 H5 H6 H7. unfold computeConfidence. simpl.
  apply round_percent_mono.
  pose proof (score_mono _ _ H1). pose proof (score_mono _ _ H2).
  pose proof (score_mono _ _ H3). pose proof (score_mono _ _ H4).
  pose proof (score_mono _ _ H5).
  assert (Hs : (match ci_sites x with [] => 0 | _ => 1 end
                <= match ci_sites y with [] => 0 | _ => 1 end)%Z).
  { destruct (ci_sites x), (ci_sites y); try lia. exfalso. by apply H6. }
  assert (Hc : (match ci_contacts x with [] => 0 | _ => 1 end
                <= match ci_contacts y with [] => 0 | _ => 1 end)%Z).
  { destruct (ci_contacts x), (ci_contacts y); try lia. exfalso. by apply H7. }
  lia.
Qed.

Lemma confidence_monotone_witness :
  (Confidence.overall (computeConfidence conf_nothing)
   <= Confidence.overall (computeConfidence conf_booking_only))%Z.
Proof.
  apply (confidence_monotone conf_nothing conf_booking_only);
    simpl; intros H; try reflexivity; try discriminate; try exact H.
Defined.

(** ** Claim C10: the booking number *)

Lemma ci_lit_Some lit s r :
  ci_lit lit s = Some r <->
  exists b, s = b ++ r /\ Forall2 (fun p c => ci_eq p c = true) lit b.
Proof.
  revert s. induction lit as [|a lit IH]; intros s; simpl.
  - split; [intros [= <-]; exists []; done|].
    intros (b & -> & Hb). inversion Hb. done.
  - destruct s as [|c s].
    + split; [done|]. intros (b & Hs & Hb). inversion Hb; subst. discriminate.
    + destruct (ci_eq a c) eqn:E.
      * rewrite IH. split.
        -- intros (b & -> & Hb). exists (c :: b). split; [done|]. constructor; done.
        -- intros (b & Hs & Hb). inversion Hb as [|? c' ? b' Hac Hb']; subst.
           injection Hs as <- ->. exists b'. done.
      * split; [done|]. intros (b & Hs & Hb). inversion Hb as [|? c' ? b' Hac Hb']; subst.
        injection Hs as <- _. congruence.
Qed.

Lemma hash_not_ws : is_ws "#"%char = false.
Proof. reflexivity. Qed.

Lemma booking_re_iff prev s cap :
  booking_re prev s = Some cap <-> exists ds, booking_at s ds /\ cap = take 12 ds.
Proof.
  unfold booking_re, booking_at. split.
  - destruct (ci_lit (js "Booking") s) as [r|] eqn:Hl; [|done].
    apply ci_lit_Some in Hl as (b & -> & Hb).
    pose proof (take_drop_while is_ws r) as Hr.
    destruct (drop_while is_ws r) as [|c r'] eqn:Ed; [done|].
    destruct (ceq c "#"%char) eqn:Hc; [|done].
    apply Ascii.eqb_eq in Hc. subst c.
    set (ds := take_while is_digit (drop_while is_ws r')).
    destruct (Nat.leb_spec 5 (length ds)) as [Hlen|]; [|done].
    intros [= <-]. exists ds. split; [|done].
    exists b, (take_while is_ws r), (take_while is_ws r'),
      (drop_while is_digit (drop_while is_ws r')).
    split.
    { rewrite <- Hr at 1. f_equal. f_equal. f_equal.
      rewrite <- (take_drop_while is_ws r') at 1. f_equal. unfold ds.
      symmetry. apply take_drop_while. }
    split; [exact Hb|]. split; [apply take_while_all|]. split; [apply take_while_all|].
    split; [apply take_while_all|]. split; [exact Hlen|].
    apply drop_while_stop.
  - intros (ds & (b & w1 & w2 & rest & -> & Hb & Hw1 & Hw2 & Hd & Hlen & Hrest) & ->).
    assert (Hl : ci_lit (js "Booking") (b ++ w1 ++ "#"%char :: w2 ++ ds ++ rest)
                 = Some (w1 ++ "#"%char :: w2 ++ ds ++ rest)).
    { apply ci_lit_Some. exists b. done. }
    rewrite Hl.
    rewrite (proj2 (take_while_app is_ws w1 ("#"%char :: w2 ++ ds ++ rest) Hw1 hash_not_ws)). simpl.
    destruct ds as [|d ds']; [simpl in Hlen; lia|].
    inversion Hd as [|? ? Hdd Hds']; subst.
    rewrite (proj2 (take_while_app is_ws w2 ((d :: ds') ++ rest) Hw2 (digit_not_ws d Hdd))).
    rewrite (proj1 (take_while_app is_digit (d :: ds') rest Hd Hrest)).
    destruct ds' as [|? [|? [|? [|? ds'']]]]; simpl in Hlen; try lia. done.
Qed.

Lemma booking_at_nil ds : ~ booking_at [] ds.
Proof.
  intros (b & w1 & w2 & rest & Hs & Hb & _).
  apply Forall2_length in Hb. destruct b; [discriminate|discriminate].
Qed.

Lemma bookingNumber_of_brief rawText :
  bookingNumber (parseLaiEventBrief rawText) = match1 booking_re (normalize rawText).
Proof. reflexivity. Qed.

(** C10: the booking number is present iff the normalized text holds
    "Booking" (any case), optional white space, "#", optional white
    space and a run of at least 5 digits; when present it is the first
    at most 12 digits of the run at the leftmost such occurrence; a
    "Booking #" with only 4 digits gives no booking number. *)
Theorem bookingNumber_first_run :
  (forall rawText,
     let t := normalize rawText in
     match bookingNumber (parseLaiEventBrief rawText) with
     | Some v =>
         exists i ds, booking_occurrence t i ds /\
                      (forall j ds', booking_occurrence t j ds' -> i <= j) /\
                      v = take 12 ds
     | None => ~ exists i ds, booking_occurrence t i ds
     end) /\
  bookingNumber (parseLaiEventBrief (js "Booking # 1234")) = None.
Proof.
  split; [|vm_compute; reflexivity].
  intros rawText. cbv zeta. rewrite bookingNumber_of_brief.
  set (t := normalize rawText). unfold match1, booking_occurrence.
  destruct (search booking_re None t 0) as [[j cap]|] eqn:E.
  - apply search_Some in E as (_ & _ & H3 & H4).
    rewrite Nat.sub_0_r in H3, H4.
    apply booking_re_iff in H3 as (ds & Hat & ->).
    exists j, ds. split; [exact Hat|]. split.
    + intros j' ds' Hat'. destruct (Nat.lt_ge_cases j' j) as [Hlt|]; [|done].
      specialize (H4 j' Hlt).
      assert (Hm : booking_re (prev_at None t j') (drop j' t) = Some (take 12 ds'))
        by (apply booking_re_iff; eauto).
      congruence.
    + destruct Hat as (b & w1 & w2 & rest & _ & _ & _ & _ & Hd & Hl & _).
      destruct (digits_trimmed_nonempty (take 12 ds) ds Hd Hl eq_refl) as [-> _]. done.
  - rewrite search_None in E. intros (i & ds & Hat).
    destruct (Nat.le_gt_cases i (length t)) as [Hi|Hi].
    + specialize (E i Hi).
      assert (Hm : booking_re (prev_at None t i) (drop i t) = Some (take 12 ds))
        by (apply booking_re_iff; eauto).
      congruence.
    + rewrite drop_ge in Hat by lia. exact (booking_at_nil ds Hat).
Qed.

(** ** Claim C6: [normalize] is idempotent *)

Lemma ceq_true c d : ceq c d = true -> c = d.
Proof. apply Ascii.eqb_eq. Qed.

Lemma ceq_refl c : ceq c c = true.
Proof. apply Ascii.eqb_refl. Qed.

Lemma trim_infix s : exists a b, s = a ++ trim s ++ b.
Proof.
  unfold trim. set (u := drop_while is_ws s).
  pose proof (take_drop_while is_ws s) as Hs. fold u in Hs.
  pose proof (take_drop_while is_ws (rev u)) as Hu.
  exists (take_while is_ws s), (rev (take_while is_ws (rev u))).
  rewrite <- rev_app_distr, Hu, rev_involutive. symmetry. exact Hs.
Qed.

Lemma no_adj_cons P c s :
  no_adj P (c :: s) = match s with [] => true | d :: _ => negb (P c d) end && no_adj P s.
Proof. destruct s; done. Qed.

Lemma no_adj_app_l P a b : no_adj P (a ++ b) = true -> no_adj P a = true.
Proof.
  induction a as [|c a IH]; [done|]. simpl app. rewrite !no_adj_cons.
  destruct a as [|d a]; [done|]. simpl. intros [H1 H2]%andb_prop.
  rewrite H1. apply IH, H2.
Qed.

Lemma no_adj_app_r P a b : no_adj P (a ++ b) = true -> no_adj P b = true.
Proof.
  induction a as [|c a IH]; [done|]. simpl app. rewrite no_adj_cons.
  intros [_ H]%andb_prop. apply IH, H.
Qed.

Lemma no_adj_trim P s : no_adj P s = true -> no_adj P (trim s) = true.
Proof.
  destruct (trim_infix s) as (a & b & Hs). intros H. rewrite Hs in H.
  apply no_adj_app_r in H. apply no_adj_app_l in H. exact H.
Qed.

Lemma Forall_trim (P : ascii -> Prop) s : Forall P s -> Forall P (trim s).
Proof.
  destruct (trim_infix s) as (a & b & Hs). intros H. rewrite Hs in H.
  rewrite !Forall_app in H. tauto.
Qed.

Lemma nl_ok_mono run run' s : run' <= run -> nl_ok run s = true -> nl_ok run' s = true.
Proof.
  revert run run'. induction s as [|c s IH]; intros run run' Hle; [done|]. simpl.
  destruct (ceq c nl); [|done].
  intros [H1 H2]%andb_prop. apply andb_true_intro. split.
  - apply Nat.ltb_lt. apply Nat.ltb_lt in H1. lia.
  - apply (IH (S run)); [lia|exact H2].
Qed.

Lemma nl_ok_app_l run a b : nl_ok run (a ++ b) = true -> nl_ok run a = true.
Proof.
  revert run. induction a as [|c a IH]; intros run; [done|]. simpl.
  destruct (ceq c nl).
  - intros [H1 H2]%andb_prop. rewrite H1. apply IH, H2.
  - apply IH.
Qed.

Lemma nl_ok_app_r run a b : nl_ok run (a ++ b) = true -> nl_ok 0 b = true.
Proof.
  revert run. induction a as [|c a IH]; intros run; simpl.
  - apply nl_ok_mono. lia.
  - destruct (ceq c nl).
    + intros [_ H]%andb_prop. apply (IH _ H).
    + apply IH.
Qed.

Lemma nl_ok_trim s : nl_ok 0 s = true -> nl_ok 0 (trim s) = true.
Proof.
  destruct (trim_infix s) as (a & b & Hs). intros H. rewrite Hs in H.
  apply nl_ok_app_r in H. apply nl_ok_app_l in H. exact H.
Qed.

(** *** The passes on their own output *)

Lemma strip_cr_id s : Forall (fun c => c <> cr) s -> strip_cr s = s.
Proof.
  unfold strip_cr. induction 1 as [|c s Hc _ IH]; [done|].
  rewrite filter_cons. case_decide as H; [rewrite IH; done|].
  exfalso. apply H. destruct (ceq c cr) eqn:E; [|exact I].
  apply ceq_true in E. done.
Qed.

Lemma collapse_blanks_id s :
  Forall (fun c => c <> tab) s -> no_adj sp_sp s = true ->
  forall b, (b = true -> match s with c :: _ => is_sp_tab c = false | [] => True end) ->
  collapse_blanks b s = s.
Proof.
  induction 1 as [|c s Hc Hs IH]; intros Hadj b Hb; [done|]. simpl.
  rewrite no_adj_cons in Hadj. apply andb_prop in Hadj as [Hcd Hadj].
  destruct (is_sp_tab c) eqn:E.
  - destruct b; [specialize (Hb eq_refl); simpl in Hb; congruence|].
    assert (Hc' : c = sp).
    { unfold is_sp_tab in E. apply orb_prop in E as [E|E]; apply ceq_true in E; done. }
    subst c. f_equal. apply IH; [exact Hadj|]. intros _.
    destruct s as [|d s]; [done|]. inversion Hs as [|? ? Hd _]; subst.
    unfold sp_sp in Hcd. rewrite ceq_refl in Hcd. simpl in Hcd.
    unfold is_sp_tab. apply negb_true_iff in Hcd. rewrite Hcd. simpl.
    destruct (ceq d tab) eqn:Et; [apply ceq_true in Et; done|done].
  - f_equal. apply IH; [exact Hadj|]. done.
Qed.

Lemma strip_nl_pad_id s :
  no_adj blank_pair s = true -> strip_nl_pad s = s.
Proof.
  induction s as [s IH] using (induction_ltof1 _ (@length ascii)); unfold ltof in IH.
  destruct s as [|c r]; [done|]. intros H. simpl.
  rewrite no_adj_cons in H. apply andb_prop in H as [Hcd Hr].
  destruct (ceq c sp) eqn:Esp.
  - destruct r as [|d r']; [apply ceq_true in Esp; subst; done|].
    unfold blank_pair in Hcd. rewrite Esp in Hcd. simpl in Hcd.
    destruct (ceq d nl) eqn:Enl; [rewrite orb_true_r in Hcd; done|].
    f_equal. apply IH; [simpl; lia|exact Hr].
  - destruct (ceq c nl) eqn:Enl.
    + apply ceq_true in Enl. subst c.
      destruct r as [|e r']; [done|].
      unfold blank_pair in Hcd. rewrite Esp in Hcd. simpl in Hcd.
      destruct (ceq e sp) eqn:Ee; [done|].
      f_equal. apply IH; [simpl; lia|exact Hr].
    + f_equal. apply IH; [simpl; lia|exact Hr].
Qed.

Lemma repeat_nl_snoc k r : repeat nl k ++ nl :: r = repeat nl (S k) ++ r.
Proof. induction k as [|k IH]; simpl; [done|]. rewrite IH. done. Qed.

Lemma squeeze_nl_id s k :
  k <= 2 -> nl_ok k s = true -> squeeze_nl k s = repeat nl k ++ s.
Proof.
  revert k. induction s as [|c s IH]; intros k Hk H; simpl.
  - unfold flush_nl. destruct (Nat.leb_spec 3 k); [lia|]. rewrite app_nil_r. done.
  - simpl in H. destruct (ceq c nl) eqn:E.
    + apply ceq_true in E. subst c. apply andb_prop in H as [H1 H2].
      apply Nat.ltb_lt in H1. rewrite IH by (lia || exact H2).
      rewrite repeat_nl_snoc. done.
    + unfold flush_nl. destruct (Nat.leb_spec 3 k); [lia|].
      rewrite IH by (lia || exact H). done.
Qed.

(** *** What each pass leaves behind *)

Lemma Forall_strip_cr s : Forall (fun c => c <> cr) (strip_cr s).
Proof.
  unfold strip_cr. induction s as [|c s IH]; simpl; [constructor|].
  rewrite filter_cons. case_decide as H; [|exact IH].
  constructor; [|exact IH]. intros ->. rewrite ceq_refl in H. exact H.
Qed.

Lemma Forall_collapse_blanks (P : ascii -> Prop) s b :
  Forall P s -> P sp -> Forall P (collapse_blanks b s).
Proof.
  intros Hs Hsp. revert b. induction Hs as [|c s Hc _ IH]; intros b; simpl; [constructor|].
  destruct (is_sp_tab c); [destruct b; [apply IH|constructor; [exact Hsp|apply IH]]|].
  constructor; [exact Hc|apply IH].
Qed.

Lemma collapse_blanks_no_tab s b : Forall (fun c => c <> tab) (collapse_blanks b s).
Proof.
  revert b. induction s as [|c s IH]; intros b; simpl; [constructor|].
  destruct (is_sp_tab c) eqn:E; [destruct b; [apply IH|constructor; [done|apply IH]]|].
  constructor; [|apply IH]. intros ->. unfold is_sp_tab in E.
  rewrite ceq_refl, orb_true_r in E. discriminate.
Qed.

Lemma collapse_blanks_no_sp_sp s : forall b,
  no_adj sp_sp (collapse_blanks b s) = true /\
  (b = true -> match collapse_blanks b s with c :: _ => c <> sp | [] => True end).
Proof.
  induction s as [|c s IH]; intros b; simpl; [done|].
  destruct (is_sp_tab c) eqn:E.
  - destruct b; [apply IH|]. split; [|done].
    rewrite no_adj_cons. destruct (IH true) as [H1 H2].
    rewrite H1, andb_true_r. specialize (H2 eq_refl).
    destruct (collapse_blanks true s) as [|d r]; [done|].
    unfold sp_sp. rewrite ceq_refl. simpl. apply negb_true_iff.
    destruct (ceq d sp) eqn:Ed; [apply ceq_true in Ed; done|done].
  - destruct (IH false) as [H1 _]. split.
    + rewrite no_adj_cons, H1, andb_true_r.
      destruct (collapse_blanks false s); [done|].
      unfold sp_sp. destruct (ceq c sp) eqn:Ec; [|done].
      apply ceq_true in Ec. subst c. unfold is_sp_tab in E. rewrite ceq_refl in E. discriminate.
    + intros _ ->. unfold is_sp_tab in E. rewrite ceq_refl in E. discriminate.
Qed.

Lemma strip_nl_pad_head s x :
  head (strip_nl_pad s) = Some x -> head s = Some x \/ (x = nl /\ head s = Some sp).
Proof.
  destruct s as [|c r]; simpl; [done|].
  destruct (ceq c sp) eqn:Esp.
  - apply ceq_true in Esp. subst c. destruct r as [|d r']; simpl; [intros [= <-]; left; done|].
    destruct (ceq d nl); [|intros [= <-]; left; done].
    destruct r' as [|e r'']; [intros [= <-]; right; done|].
    destruct (ceq e sp); intros [= <-]; right; done.
  - destruct (ceq c nl) eqn:Enl.
    + apply ceq_true in Enl. subst c.
      destruct r as [|e r']; [intros [= <-]; left; done|].
      destruct (ceq e sp); intros [= <-]; left; done.
    + intros [= <-]. left. done.
Qed.

Lemma Forall_strip_nl_pad (P : ascii -> Prop) s :
  Forall P s -> P nl -> Forall P (strip_nl_pad s).
Proof.
  induction s as [s IH] using (induction_ltof1 _ (@length ascii)); unfold ltof in IH.
  intros Hs Hnl. destruct s as [|c r]; simpl; [constructor|].
  inversion Hs as [|? ? Hc Hr]; subst.
  destruct (ceq c sp).
  - destruct r as [|d r']; [constructor; [exact Hc|constructor]|].
    inversion Hr as [|? ? Hd Hr']; subst.
    destruct (ceq d nl); [|constructor; [exact Hc|apply IH; [simpl; lia|exact Hr|exact Hnl]]].
    destruct r' as [|e r'']; [constructor; [exact Hnl|constructor]|].
    inversion Hr' as [|? ? He Hr'']; subst.
    destruct (ceq e sp); constructor; [exact Hnl| |exact Hnl|];
      apply IH; simpl; try lia; assumption.
  - destruct (ceq c nl).
    + destruct r as [|e r']; [constructor; [exact Hnl|constructor]|].
      inversion Hr as [|? ? He Hr']; subst.
      destruct (ceq e sp); constructor; [exact Hnl| |exact Hnl|];
        apply IH; simpl; try lia; assumption.
    + constructor; [exact Hc|]. apply IH; [simpl; lia|exact Hr|exact Hnl].
Qed.

Lemma blank_pair_nl x : blank_pair nl x = ceq x sp.
Proof. unfold blank_pair. destruct (ceq x sp); done. Qed.

Lemma blank_pair_sp x : blank_pair sp x = ceq x sp || ceq x nl.
Proof. unfold blank_pair. destruct (ceq x sp), (ceq x nl); done. Qed.

Lemma blank_pair_other c x : ceq c sp = false -> ceq c nl = false -> blank_pair c x = false.
Proof. intros H1 H2. unfold blank_pair. rewrite H1, H2. done. Qed.

Lemma sp_sp_spsp : sp_sp sp sp = true.
Proof. reflexivity. Qed.

(** The head of [strip_nl_pad r] is not a space when [r] does not start
    with one. *)
Lemma strip_nl_pad_head_not_sp r :
  match r with c :: _ => c <> sp | [] => True end ->
  match strip_nl_pad r with x :: _ => ceq x sp = false | [] => True end.
Proof.
  intros Hr. destruct (strip_nl_pad r) as [|x r'] eqn:E; [done|].
  destruct (ceq x sp) eqn:Ex; [|done]. apply ceq_true in Ex. subst x.
  assert (H := strip_nl_pad_head r sp). rewrite E in H. simpl in H.
  destruct (H eq_refl) as [Hh|[Hh _]]; [|discriminate].
  destruct r; [discriminate|]. injection Hh as ->. done.
Qed.

Lemma strip_nl_pad_blank s :
  no_adj sp_sp s = true -> no_adj blank_pair (strip_nl_pad s) = true.
Proof.
  induction s as [s IH] using (induction_ltof1 _ (@length ascii)); unfold ltof in IH.
  intros H. destruct s as [|c r]; [done|]. simpl.
  assert (Hr : no_adj sp_sp r = true) by (rewrite no_adj_cons in H; apply andb_prop in H; apply H).
  destruct (ceq c sp) eqn:Esp.
  - apply ceq_true in Esp. subst c.
    destruct r as [|d r']; [done|].
    destruct (ceq d nl) eqn:Enl.
    + apply ceq_true in Enl. subst d.
      assert (Hr' : no_adj sp_sp r' = true) by (rewrite no_adj_cons in Hr; apply andb_prop in Hr; apply Hr).
      destruct r' as [|e r'']; [done|].
      destruct (ceq e sp) eqn:Ee.
      * apply ceq_true in Ee. subst e.
        assert (Hr'' : no_adj sp_sp r'' = true)
          by (rewrite no_adj_cons in Hr'; apply andb_prop in Hr'; apply Hr').
        rewrite no_adj_cons, IH by (simpl; lia || exact Hr''). rewrite andb_true_r.
        pose proof (strip_nl_pad_head_not_sp r'') as Hh.
        destruct r'' as [|f r3]; [done|].
        rewrite no_adj_cons in Hr'. simpl in Hr'. apply andb_prop in Hr' as [Hf _].
        destruct (strip_nl_pad (f :: r3)) as [|x ?]; [done|].
        rewrite blank_pair_nl. rewrite Hh; [done|].
        intros ->. rewrite sp_sp_spsp in Hf. discriminate.
      * rewrite no_adj_cons, IH by (simpl; lia || exact Hr'). rewrite andb_true_r.
        pose proof (strip_nl_pad_head_not_sp (e :: r'')) as Hh.
        destruct (strip_nl_pad (e :: r'')) as [|x ?]; [done|].
        rewrite blank_pair_nl. apply negb_true_iff. apply Hh.
        intros ->. rewrite ceq_refl in Ee. discriminate.
    + rewrite no_adj_cons, IH by (simpl; lia || exact Hr). rewrite andb_true_r.
      assert (Hd : d <> sp).
      { intros ->. simpl in H. discriminate. }
      pose proof (strip_nl_pad_head (d :: r')) as Hh.
      destruct (strip_nl_pad (d :: r')) as [|x ?]; [done|].
      destruct (Hh x eq_refl) as [Hx|[_ Hx]]; simpl in Hx; injection Hx as Hx;
        [|exfalso; apply Hd; exact Hx].
      subst d. rewrite blank_pair_sp. apply negb_true_iff. rewrite Enl, orb_false_r.
      destruct (ceq x sp) eqn:Ex; [apply ceq_true in Ex; done|done].
  - destruct (ceq c nl) eqn:Enl.
    + apply ceq_true in Enl. subst c.
      destruct r as [|e r']; [done|].
      destruct (ceq e sp) eqn:Ee.
      * apply ceq_true in Ee. subst e.
        assert (Hr' : no_adj sp_sp r' = true) by (rewrite no_adj_cons in Hr; apply andb_prop in Hr; apply Hr).
        rewrite no_adj_cons, IH by (simpl; lia || exact Hr'). rewrite andb_true_r.
        pose proof (strip_nl_pad_head_not_sp r') as Hh.
        destruct r' as [|f r3]; [done|].
        rewrite no_adj_cons in Hr. simpl in Hr. apply andb_prop in Hr as [Hf _].
        destruct (strip_nl_pad (f :: r3)) as [|x ?]; [done|].
        rewrite blank_pair_nl. rewrite Hh; [done|].
        intros ->. rewrite sp_sp_spsp in Hf. discriminate.
      * rewrite no_adj_cons, IH by (simpl; lia || exact Hr). rewrite andb_true_r.
        pose proof (strip_nl_pad_head_not_sp (e :: r')) as Hh.
        destruct (strip_nl_pad (e :: r')) as [|x ?]; [done|].
        rewrite blank_pair_nl. apply negb_true_iff. apply Hh.
        intros ->. rewrite ceq_refl in Ee. discriminate.
    + rewrite no_adj_cons, IH by (simpl; lia || exact Hr). rewrite andb_true_r.
      destruct (strip_nl_pad r); [done|]. rewrite blank_pair_other by assumption. done.
Qed.

Lemma no_adj_nl_nl P pre t :
  P nl nl = false -> no_adj P (pre ++ nl :: nl :: t) = no_adj P (pre ++ nl :: t).
Proof.
  intros HP. induction pre as [|p pre IH]; simpl app.
  - rewrite (no_adj_cons P nl (nl :: t)), HP. done.
  - rewrite !(no_adj_cons P p), IH. destruct pre; done.
Qed.

Lemma no_adj_repeat_nl P pre j t :
  P nl nl = false -> no_adj P (pre ++ repeat nl (S j) ++ t) = no_adj P (pre ++ nl :: t).
Proof.
  intros HP. revert pre. induction j as [|j IH]; intros pre; [done|].
  change (repeat nl (S (S j)) ++ t) with (nl :: (repeat nl (S j) ++ t)).
  replace (pre ++ nl :: repeat nl (S j) ++ t) with ((pre ++ [nl]) ++ repeat nl (S j) ++ t)
    by (rewrite <- app_assoc; done).
  rewrite IH, <- app_assoc. simpl. apply no_adj_nl_nl, HP.
Qed.

Lemma no_adj_flush P pre k t :
  P nl nl = false -> no_adj P (pre ++ flush_nl k ++ t) = no_adj P (pre ++ repeat nl k ++ t).
Proof.
  intros HP. unfold flush_nl. destruct k as [|k]; [done|].
  destruct (3 <=? S k); [|done].
  change 2 with (S 1). rewrite !no_adj_repeat_nl by exact HP. done.
Qed.

Lemma squeeze_nl_no_adj P s :
  P nl nl = false ->
  forall k pre, no_adj P (pre ++ repeat nl k ++ s) = true -> no_adj P (pre ++ squeeze_nl k s) = true.
Proof.
  intros HP. induction s as [|c r IH]; intros k pre H; simpl.
  - pose proof (no_adj_flush P pre k [] HP) as E. rewrite !app_nil_r in E.
    rewrite E. rewrite app_nil_r in H. exact H.
  - destruct (ceq c nl) eqn:Ec.
    + apply ceq_true in Ec. subst c. apply IH. rewrite <- repeat_nl_snoc. exact H.
    + replace (pre ++ flush_nl k ++ c :: squeeze_nl 0 r)
        with ((pre ++ flush_nl k ++ [c]) ++ squeeze_nl 0 r) by (rewrite <- !app_assoc; done).
      apply IH. simpl. rewrite <- !app_assoc. simpl. rewrite no_adj_flush by exact HP. exact H.
Qed.

Lemma nl_ok_flush k c t :
  ceq c nl = false -> nl_ok 0 (flush_nl k ++ c :: t) = nl_ok 0 t.
Proof.
  intros Hc. unfold flush_nl.
  destruct k as [|[|[|k]]]; simpl; rewrite Hc; done.
Qed.

Lemma squeeze_nl_nl_ok s k : nl_ok 0 (squeeze_nl k s) = true.
Proof.
  revert k. induction s as [|c r IH]; intros k; simpl.
  - unfold flush_nl. destruct k as [|[|[|k]]]; done.
  - destruct (ceq c nl) eqn:Ec; [apply IH|]. rewrite nl_ok_flush by exact Ec. apply IH.
Qed.

Lemma Forall_squeeze_nl (P : ascii -> Prop) s k :
  Forall P s -> P nl -> Forall P (squeeze_nl k s).
Proof.
  intros Hs Hnl. assert (Hr : forall m, Forall P (repeat nl m)).
  { induction m; constructor; done. }
  revert k. induction Hs as [|c s Hc _ IH]; intros k; simpl; [apply Hr|].
  destruct (ceq c nl); [apply IH|]. apply Forall_app. split; [apply Hr|constructor; done].
Qed.

Lemma no_adj_mono (P Q : ascii -> ascii -> bool) s :
  (forall c d, P c d = true -> Q c d = true) -> no_adj Q s = true -> no_adj P s = true.
Proof.
  intros HPQ. induction s as [|c s IH]; [done|]. rewrite !no_adj_cons.
  intros [H1 H2]%andb_prop. rewrite IH by exact H2. rewrite andb_true_r.
  destruct s as [|d s]; [done|]. apply negb_true_iff. apply negb_true_iff in H1.
  destruct (P c d) eqn:E; [|done]. rewrite (HPQ _ _ E) in H1. discriminate.
Qed.

Lemma normalize_shape x :
  let n := normalize x in
  Forall (fun c => c <> cr) n /\ Forall (fun c => c <> tab) n /\
  no_adj blank_pair n = true /\ nl_ok 0 n = true /\ is_trimmed n = true.
Proof.
  cbv zeta. unfold normalize.
  set (c1 := collapse_blanks false (strip_cr x)).
  set (p := strip_nl_pad c1). set (q := squeeze_nl 0 p).
  split; [|split; [|split; [|split]]].
  - apply Forall_trim, Forall_squeeze_nl; [|done].
    apply Forall_strip_nl_pad; [|done]. apply Forall_collapse_blanks; [|done].
    apply Forall_strip_cr.
  - apply Forall_trim, Forall_squeeze_nl; [|done].
    apply Forall_strip_nl_pad; [|done]. apply collapse_blanks_no_tab.
  - apply no_adj_trim. apply (squeeze_nl_no_adj blank_pair p eq_refl 0 []).
    apply strip_nl_pad_blank. apply collapse_blanks_no_sp_sp.
  - apply nl_ok_trim, squeeze_nl_nl_ok.
  - apply trim_trimmed.
Qed.

(** C6: [normalize] is idempotent: [normalize (normalize x) = normalize x]
    for every string [x], the empty one included.  Being a function of
    the model, it is total: it returns a string for every input. *)
Theorem normalize_idempotent x : normalize (normalize x) = normalize x.
Proof.
  destruct (normalize_shape x) as (Hcr & Htab & Hbl & Hnl & Htr).
  set (n := normalize x) in *.
  unfold normalize at 1.
  rewrite strip_cr_id by exact Hcr.
  rewrite collapse_blanks_id; [| exact Htab
    | apply (no_adj_mono sp_sp blank_pair); [|exact Hbl];
      intros c d H; unfold blank_pair; unfold sp_sp in H; rewrite H; done
    | done].
  rewrite strip_nl_pad_id by exact Hbl.
  rewrite squeeze_nl_id by (lia || exact Hnl).
  apply trim_of_trimmed, Htr.
Qed.

(* ------------------------------------------------------------------ *)
(** ** Contact deduplication *)

Lemma dedupe_loop_keep_first seen l :
  dedupe_loop seen l = filter (fun d => contact_key d ∉ seen) (keep_first l).
Proof.
  revert seen; induction l as [|c l IH]; intros seen; [done|].
  simpl. case_bool_decide as Hin.
  - rewrite filter_cons_False by (intros Hn; exact (Hn Hin)).
    rewrite IH, list_filter_filter. apply list_filter_iff. intros d. split.
    + intros Hd. split; [exact Hd|]. intros Heq. apply Hd. rewrite Heq. exact Hin.
    + intros [Hd _]. exact Hd.
  - rewrite filter_cons_True by exact Hin. f_equal.
    rewrite IH, list_filter_filter. apply list_filter_iff. intros d.
    rewrite not_elem_of_union, not_elem_of_singleton. tauto.
Qed.

Lemma dedupeContacts_keep_first l : dedupeContacts l = keep_first l.
Proof.
  unfold dedupeContacts. rewrite dedupe_loop_keep_first.
  induction (keep_first l) as [|c k IH]; [done|].
  rewrite filter_cons_True by apply not_elem_of_empty. f_equal. exact IH.
Qed.

Lemma contact_key_prefix c : exists r, contact_key c = lower (Contact.group c) ++ "|"%char :: r.
Proof. unfold contact_key. simpl. eexists. reflexivity. Qed.

Lemma app_sep_neq (a b x y : list ascii) :
  ~ In "|"%char a -> ~ In "|"%char b -> a <> b -> a ++ "|"%char :: x <> b ++ "|"%char :: y.
Proof.
  revert b; induction a as [|p a IH]; intros [|q b] Ha Hb Hne Heq; simpl in Heq.
  - exact (Hne eq_refl).
  - injection Heq as Hq _. apply Hb. left. symmetry. exact Hq.
  - injection Heq as Hp _. apply Ha. left. exact Hp.
  - injection Heq as <- Heq. apply (IH b); [..|exact Heq].
    + intros H. apply Ha. right. exact H.
    + intros H. apply Hb. right. exact H.
    + intros <-. exact (Hne eq_refl).
Qed.

Lemma contact_groups_no_bar g : In g contact_groups -> ~ In "|"%char (lower g).
Proof.
  simpl. intros Hg. repeat destruct Hg as [<-|Hg]; try contradiction;
    vm_compute; intros H; repeat destruct H as [H|H]; try discriminate H; exact H.
Qed.

Lemma contact_groups_lower_inj g h :
  In g contact_groups -> In h contact_groups -> lower g = lower h -> g = h.
Proof.
  simpl. intros Hg Hh.
  repeat destruct Hg as [<-|Hg]; try contradiction;
    repeat destruct Hh as [<-|Hh]; try contradiction;
    intros E; vm_compute in E; first [reflexivity | discriminate E].
Qed.

(** C3 (as the code does it): [dedupeContacts] keeps the first contact of
    each composite key (lower-cased group, name and email, digits of the
    cell and office numbers) and drops the later ones; and since the group
    leads the key, two contacts of different groups never share a key, so
    identical blocks under labels of two different groups both stay. *)
Theorem contacts_first_of_each_key :
  (forall l, dedupeContacts l = keep_first l) /\
  (forall c d, In (Contact.group c) contact_groups -> In (Contact.group d) contact_groups ->
     Contact.group c <> Contact.group d -> contact_key c <> contact_key d).
Proof.
  split; [exact dedupeContacts_keep_first|].
  intros c d Hc Hd Hne.
  destruct (contact_key_prefix c) as [x ->], (contact_key_prefix d) as [y ->].
  apply app_sep_neq.
  - exact (contact_groups_no_bar _ Hc).
  - exact (contact_groups_no_bar _ Hd).
  - intros E. exact (Hne (contact_groups_lower_inj _ _ Hc Hd E)).
Qed.

(** The same contact, once as a client onsite contact and once as an agency
    onsite contact. *)
Lemma contacts_first_of_each_key_witness :
  In (js "client_onsite") contact_groups /\ In (js "lai_onsite") contact_groups /\
  (contact_key (Contact.mk (js "client_onsite") (Some (js "John Smith")) None (Some None) None
                  (Some (js "john@acme.com")) None [])
   = contact_key (Contact.mk (js "lai_onsite") (Some (js "John Smith")) None (Some None) None
                  (Some (js "john@acme.com")) None []) -> False).
Proof.
  split; [simpl; tauto|]. split; [simpl; tauto|].
  apply (proj2 contacts_first_of_each_key); simpl; [tauto | tauto | discriminate].
Defined.

(** C3 counterexample: the same block (name, cell and email) under the
    client onsite label and under the agency onsite label of one
    contact-information section gives two contacts, not one. *)
Lemma twice_listed_contacts_kept :
  map (fun c => (Contact.group c, Contact.name c, Contact.cell c, Contact.email c))
      (contacts (parseLaiEventBrief twice_listed_input)) =
  [(js "client_onsite", Some (js "John Smith"), Some (js "(555) 111-2222"),
    Some (js "john@acme.com"));
   (js "lai_onsite", Some (js "John Smith"), Some (js "(555) 111-2222"),
    Some (js "john@acme.com"))].
Proof. vm_compute. reflexivity. Qed.

(* ------------------------------------------------------------------ *)
(** ** Heading matches *)

Lemma last_opt_cons p c l : last_opt p (c :: l) = last_opt (Some c) l.
Proof. unfold last_opt. rewrite last_cons. destruct (last l); reflexivity. Qed.

Lemma tok_match_bnd ts prev s :
  tok_match (RBnd :: ts) prev s = if bnd prev s then tok_match ts prev s else None.
Proof. reflexivity. Qed.

Lemma tok_match_lits w ts prev s :
  tok_match (map RLit w ++ ts) prev s =
  match ci_lit w s with
  | Some r => option_map (Nat.add (length w)) (tok_match ts (last_opt prev (take (length w) s)) r)
  | None => None
  end.
Proof.
  revert prev s; induction w as [|a w IH]; intros prev s; simpl.
  - rewrite take_0. change (last_opt prev []) with prev.
    destruct (tok_match ts prev s); reflexivity.
  - destruct s as [|c s]; [reflexivity|]. simpl. destruct (ci_eq a c); [|reflexivity].
    rewrite IH, last_opt_cons. destruct (ci_lit w s); [|reflexivity].
    destruct (tok_match _ _ _); reflexivity.
Qed.

Lemma prev_at_take p t i k :
  k <= length (drop i t) -> last_opt (prev_at p t i) (take k (drop i t)) = prev_at p t (i + k).
Proof.
  revert p i k; induction t as [|c t IH]; intros p i k Hk.
  - rewrite drop_nil in *. simpl in Hk. assert (k = 0) as -> by lia.
    rewrite Nat.add_0_r. reflexivity.
  - destruct i as [|i].
    + destruct k as [|k]; [reflexivity|]. simpl in Hk.
      change (last_opt p (c :: take k t) = prev_at p (c :: t) (S k)).
      rewrite last_opt_cons, prev_at_cons. apply (IH (Some c) 0 k). rewrite drop_0. lia.
    + change (drop (S i) (c :: t)) with (drop i t) in *.
      replace (S i + k) with (S (i + k)) by lia. rewrite !prev_at_cons. exact (IH _ _ _ Hk).
Qed.

Lemma slice_from t i n : slice t i (i + n) = take n (drop i t).
Proof. unfold slice. f_equal. lia. Qed.

Lemma heading_re_match (h : string) t i l :
  tok_match (heading_re h) (prev_at None t i) (drop i t) = Some l <->
  heading_at t h i /\ l = length (js h).
Proof.
  unfold heading_re, heading_at. change (map escapeRe_tok (js h)) with (map RLit (js h)).
  rewrite tok_match_bnd, tok_match_lits, slice_from.
  destruct (bnd (prev_at None t i) (drop i t)) eqn:Hb1;
    [|split; [discriminate|intros [[_ [Hb _]] _]; discriminate Hb]].
  destruct (ci_lit (js h) (drop i t)) as [r|] eqn:Hc.
  - apply ci_lit_Some in Hc as (b & Hs & Hf).
    pose proof (Forall2_length _ _ _ Hf) as Hlen.
    assert (take (length (js h)) (drop i t) = b) as Htake
      by (rewrite Hs, Hlen; apply take_app_length).
    assert (drop (i + length (js h)) t = r) as Hdrop
      by (rewrite <- drop_drop, Hs, Hlen; apply drop_app_length).
    rewrite prev_at_take by (rewrite Hs, length_app; lia).
    rewrite Htake, Hdrop.
    change (tok_match [RBnd] ?q r) with (if bnd q r then Some 0 else None).
    destruct (bnd (prev_at None t (i + length (js h))) r); simpl.
    + split.
      * intros [= <-]. split; [|lia]. split; [exact Hf|done].
      * intros [_ ->]. f_equal. lia.
    + split; [discriminate|]. intros [[_ [_ Hb]] _]. discriminate Hb.
  - split; [discriminate|]. intros [[Hf _] _].
    assert (ci_lit (js h) (drop i t) = Some (drop (length (js h)) (drop i t))) as Hc'.
    { apply ci_lit_Some. exists (take (length (js h)) (drop i t)).
      split; [symmetry; apply take_drop|exact Hf]. }
    rewrite Hc in Hc'. discriminate Hc'.
Qed.

Lemma exec_all_cons f prev c s i skip :
  exec_all f prev (c :: s) i skip =
  match (if skip =? 0 then f prev (c :: s) else None) with
  | Some len => (i, len) :: exec_all f (Some c) s (S i) (len - 1)
  | None => exec_all f (Some c) s (S i) (skip - 1)
  end.
Proof. reflexivity. Qed.

(** Every reported match is a match at its offset. *)
Lemma exec_all_sound f prev s i skip j l :
  In (j, l) (exec_all f prev s i skip) ->
  i <= j /\ j - i <= length s /\ f (prev_at prev s (j - i)) (drop (j - i) s) = Some l.
Proof.
  revert prev i skip; induction s as [|c s IH]; intros prev i skip H.
  - simpl in H. destruct (skip =? 0); [|contradiction].
    destruct (f prev []) eqn:Ef; [|contradiction].
    destruct H as [[= <- <-]|[]]. rewrite Nat.sub_diag. split; [lia|]. split; [simpl; lia|exact Ef].
  - rewrite exec_all_cons in H.
    assert (forall skip', In (j, l) (exec_all f (Some c) s (S i) skip') ->
              i <= j /\ j - i <= length (c :: s) /\
              f (prev_at prev (c :: s) (j - i)) (drop (j - i) (c :: s)) = Some l) as Htl.
    { intros skip' Hin. apply IH in Hin as (H1 & H2 & H3). split; [lia|].
      replace (j - i) with (S (j - S i)) by lia. split; [simpl; lia|].
      rewrite prev_at_cons. exact H3. }
    destruct (if skip =? 0 then f prev (c :: s) else None) as [len|] eqn:E.
    + destruct H as [[= <- <-]|H]; [|exact (Htl _ H)].
      rewrite Nat.sub_diag. split; [lia|]. split; [simpl; lia|].
      destruct (skip =? 0); [exact E|discriminate E].
    + exact (Htl _ H).
Qed.

(** A match at an offset the scan reaches (not covered by an earlier
    reported match) is reported. *)
Lemma exec_all_complete f prev s i skip k len :
  k <= length s -> skip <= k ->
  f (prev_at prev s k) (drop k s) = Some len ->
  (forall j l, In (j, l) (exec_all f prev s i skip) -> j < i + k -> i + k >= j + l) ->
  In (i + k, len) (exec_all f prev s i skip).
Proof.
  revert prev i skip k; induction s as [|c s IH]; intros prev i skip k Hk Hs Hf Hno.
  - simpl in Hk. assert (k = 0) as -> by lia. assert (skip = 0) as -> by lia.
    simpl in Hf |- *. rewrite Hf. left. f_equal. lia.
  - rewrite exec_all_cons in Hno |- *.
    destruct (if skip =? 0 then f prev (c :: s) else None) as [len0|] eqn:E.
    + destruct k as [|k].
      * assert (skip = 0) as -> by lia. simpl in E, Hf. rewrite Hf in E.
        injection E as <-. left. f_equal. lia.
      * right. replace (i + S k) with (S i + k) by lia. apply IH.
        -- simpl in Hk. lia.
        -- specialize (Hno i len0 (or_introl eq_refl) ltac:(lia)). lia.
        -- rewrite prev_at_cons in Hf. exact Hf.
        -- intros j l Hin Hlt. specialize (Hno j l (or_intror Hin) ltac:(lia)). lia.
    + destruct k as [|k].
      * assert (skip = 0) as -> by lia. simpl in E, Hf. congruence.
      * replace (i + S k) with (S i + k) by lia. apply IH.
        -- simpl in Hk. lia.
        -- lia.
        -- rewrite prev_at_cons in Hf. exact Hf.
        -- intros j l Hin Hlt. specialize (Hno j l Hin ltac:(lia)). lia.
Qed.

Lemma is_word_upcase x : is_word (upcase x) = is_word x.
Proof. destruct x as [[] [] [] [] [] [] [] []]; reflexivity. Qed.

Lemma ci_eq_word a c : ci_eq a c = true -> is_word a = is_word c.
Proof.
  unfold ci_eq. intros H. apply ceq_true in H.
  rewrite <- (is_word_upcase a), <- (is_word_upcase c), H. reflexivity.
Qed.

Lemma ci_eq_common a b c : ci_eq a c = true -> ci_eq b c = true -> ci_eq a b = true.
Proof.
  unfold ci_eq. intros Ha Hb. apply ceq_true in Ha, Hb. rewrite Ha, Hb. apply ceq_refl.
Qed.

Lemma heading_at_lookup t h i k a :
  heading_at t h i -> js h !! k = Some a -> exists c, t !! (i + k) = Some c /\ ci_eq a c = true.
Proof.
  intros [Hf _] Ha. rewrite slice_from in Hf.
  destruct (Forall2_lookup_l _ _ _ _ _ Hf Ha) as (c & Hc & Hac).
  apply lookup_take_Some in Hc as [Hc _]. rewrite lookup_drop in Hc. exists c. done.
Qed.

(** Two occurrences of a heading that passes [overlap_free] never
    overlap. *)
Lemma heading_no_overlap t h j i :
  overlap_free (js h) = true -> heading_at t h j -> heading_at t h i ->
  j < i -> i < j + length (js h) -> False.
Proof.
  intros Hof Hj Hi Hji Hin.
  assert (exists d, i = j + S d) as [d ->] by (exists (i - j - 1); lia).
  pose proof (proj1 (List.forallb_forall _ _) Hof (S d) ltac:(apply in_seq; lia)) as Hd.
  assert (ci_lit (drop (S d) (js h)) (js h) = Some (drop (length (js h) - S d) (js h))) as Hlit.
  { apply ci_lit_Some. exists (take (length (js h) - S d) (js h)).
    split; [symmetry; apply take_drop|].
    apply Forall2_same_length_lookup_2.
    - rewrite length_drop, length_take. lia.
    - intros k x y Hx Hy. rewrite lookup_drop in Hx. apply lookup_take_Some in Hy as [Hy _].
      destruct (heading_at_lookup _ _ _ _ _ Hj Hx) as (c1 & Hc1 & Hx1).
      destruct (heading_at_lookup _ _ _ _ _ Hi Hy) as (c2 & Hc2 & Hy2).
      replace (j + (S d + k)) with (j + S d + k) in Hc1 by lia.
      rewrite Hc1 in Hc2. injection Hc2 as <-. exact (ci_eq_common _ _ _ Hx1 Hy2). }
  cbv beta in Hd. replace (S d - 1) with d in Hd by lia.
  assert (bnd (js h !! d) (drop (S d) (js h)) = true) as Hb.
  {
    destruct (lookup_lt_is_Some_2 (js h) d ltac:(lia)) as [a1 Ha1].
    destruct (lookup_lt_is_Some_2 (js h) (S d) ltac:(lia)) as [a2 Ha2].
    destruct (heading_at_lookup _ _ _ _ _ Hj Ha1) as (c1 & Hc1 & H1).
    destruct (heading_at_lookup _ _ _ _ _ Hj Ha2) as (c2 & Hc2 & H2).
    destruct Hi as (_ & Hbi & _).
    unfold bnd in *. rewrite Ha1, head_lookup, lookup_drop, Nat.add_0_r, Ha2.
    rewrite head_lookup, lookup_drop, Nat.add_0_r, Hc2 in Hbi.
    replace (j + S d) with (S (j + d)) in Hbi by lia. simpl in Hbi. rewrite Hc1 in Hbi.
    simpl in Hbi |- *. rewrite (ci_eq_word _ _ H1), (ci_eq_word _ _ H2). exact Hbi. }
  rewrite Hb, Hlit in Hd. discriminate Hd.
Qed.

(** The hits of one heading are exactly its occurrences. *)
Lemma heading_hits_In t h x :
  js h <> [] -> overlap_free (js h) = true ->
  In x (heading_hits t h) <->
  hit_heading x = h /\ heading_at t h (hit_idx x) /\ hit_len x = length (js h).
Proof.
  intros Hne Hof. unfold heading_hits. rewrite in_map_iff. split.
  - intros [[j l] [<- Hin]]. simpl.
    apply exec_all_sound in Hin as (_ & _ & Hf). rewrite Nat.sub_0_r in Hf.
    apply heading_re_match in Hf as [Hocc ->]. done.
  - intros (Hh & Hocc & Hl). exists (hit_idx x, hit_len x).
    split; [destruct x; simpl in *; subst; reflexivity|].
    assert (hit_idx x < length t) as Hlt.
    { destruct Hocc as [Hf _]. apply Forall2_length in Hf.
      rewrite slice_from, length_take, length_drop in Hf.
      assert (length (js h) > 0) by (destruct (js h); [contradiction|simpl; lia]). lia. }
    apply (exec_all_complete _ None t 0 0 (hit_idx x) (hit_len x)); [lia|lia| |].
    + apply heading_re_match. split; [exact Hocc|exact Hl].
    + intros j l Hin Hj.
      apply exec_all_sound in Hin as (_ & _ & Hf). rewrite Nat.sub_0_r in Hf.
      apply heading_re_match in Hf as [Hocc' ->].
      destruct (le_lt_dec (j + length (js h)) (hit_idx x)) as [|Hov]; [lia|].
      exfalso. exact (heading_no_overlap t h j (hit_idx x) Hof Hocc' Hocc ltac:(lia) Hov).
Qed.

Lemma exec_all_NoDup f prev s i skip : NoDup (map fst (exec_all f prev s i skip)).
Proof.
  revert prev i skip; induction s as [|c s IH]; intros prev i skip.
  - simpl. destruct (skip =? 0); [|apply NoDup_nil_2].
    destruct (f prev []); simpl; [|apply NoDup_nil_2].
    apply NoDup_singleton.
  - rewrite exec_all_cons.
    destruct (if skip =? 0 then f prev (c :: s) else None) as [len|].
    2:{ apply IH. }
    simpl. constructor; [|apply IH].
    intros Hin. apply list_elem_of_In, in_map_iff in Hin as [[j l] [Hj Hin]].
    simpl in Hj. subst j. apply exec_all_sound in Hin. lia.
Qed.

Lemma heading_hits_NoDup t h : NoDup (heading_hits t h).
Proof.
  apply NoDup_ListNoDup, (NoDup_map_inv hit_idx), NoDup_ListNoDup.
  unfold heading_hits. rewrite map_map.
  erewrite map_ext; [apply exec_all_NoDup|]. intros [i l]. reflexivity.
Qed.

Lemma heading_hits_heading t h x : In x (heading_hits t h) -> hit_heading x = h.
Proof. unfold heading_hits. rewrite in_map_iff. intros [[i l] [<- _]]. reflexivity. Qed.

Lemma concat_hits_NoDup t hl :
  NoDup hl -> NoDup (concat (map (heading_hits t) hl)).
Proof.
  induction hl as [|h hl IH]; intros Hnd; simpl; [apply NoDup_nil_2|].
  apply NoDup_cons in Hnd as [Hh Hnd]. apply NoDup_app. split; [apply heading_hits_NoDup|].
  split; [|exact (IH Hnd)].
  intros x Hx Hx'. apply list_elem_of_In in Hx, Hx'.
  apply in_concat in Hx' as (l & Hl & Hx'). apply in_map_iff in Hl as (h' & <- & Hh').
  apply heading_hits_heading in Hx, Hx'. subst. apply Hh. apply list_elem_of_In. congruence.
Qed.

Lemma insert_hit_perm x l : Permutation (insert_hit x l) (x :: l).
Proof.
  induction l as [|y l IH]; simpl; [reflexivity|].
  destruct (hit_idx x <=? hit_idx y); [reflexivity|].
  transitivity (y :: x :: l); [constructor; exact IH|apply perm_swap].
Qed.

Lemma sort_hits_perm l : Permutation (sort_hits l) l.
Proof.
  induction l as [|x l IH]; simpl; [reflexivity|].
  rewrite insert_hit_perm. constructor. exact IH.
Qed.

Lemma insert_hit_hd y x l :
  HdRel (fun a b => hit_idx a <= hit_idx b) y l -> hit_idx y <= hit_idx x ->
  HdRel (fun a b => hit_idx a <= hit_idx b) y (insert_hit x l).
Proof.
  destruct l as [|z l]; simpl; intros H1 H2; [constructor; exact H2|].
  destruct (hit_idx x <=? hit_idx z); constructor; [exact H2|inversion H1; assumption].
Qed.

Lemma insert_hit_sorted x l :
  Sorted (fun a b => hit_idx a <= hit_idx b) l ->
  Sorted (fun a b => hit_idx a <= hit_idx b) (insert_hit x l).
Proof.
  induction l as [|y l IH]; intros H; simpl; [repeat constructor|].
  destruct (hit_idx x <=? hit_idx y) eqn:E.
  - constructor; [exact H|constructor; apply Nat.leb_le; exact E].
  - apply Sorted_inv in H as [Hl Hy]. constructor; [exact (IH Hl)|].
    apply insert_hit_hd; [exact Hy|]. apply Nat.leb_gt in E. lia.
Qed.

Lemma sort_hits_sorted l : Sorted (fun a b => hit_idx a <= hit_idx b) (sort_hits l).
Proof.
  induction l as [|x l IH]; simpl; [constructor|]. apply insert_hit_sorted. exact IH.
Qed.

Lemma heading_list_ok h :
  In h heading_list -> js h <> [] /\ overlap_free (js h) = true.
Proof.
  simpl. intros Hh. repeat destruct Hh as [<-|Hh]; try contradiction;
    (split; [discriminate|vm_compute; reflexivity]).
Qed.

Lemma all_hits_In t x :
  In x (all_hits t heading_list) <->
  In (hit_heading x) heading_list /\ heading_at t (hit_heading x) (hit_idx x) /\
  hit_len x = length (js (hit_heading x)).
Proof.
  unfold all_hits. split.
  - intros Hx. apply (Permutation_in _ (sort_hits_perm _)) in Hx.
    apply in_concat in Hx as (l & Hl & Hx). apply in_map_iff in Hl as (h & <- & Hh).
    destruct (heading_list_ok h Hh) as [Hne Hof].
    apply (heading_hits_In t h x Hne Hof) in Hx as (-> & Hocc & Hlen). done.
  - intros (Hh & Hocc & Hlen). apply (Permutation_in _ (Permutation_sym (sort_hits_perm _))).
    apply in_concat. exists (heading_hits t (hit_heading x)).
    split; [apply in_map; exact Hh|].
    destruct (heading_list_ok _ Hh) as [Hne Hof]. apply heading_hits_In; done.
Qed.

Lemma spans_of_cons t x rest h :
  spans_of t (x :: rest) h =
  if decide (hit_heading x = h)
  then slice t (hit_idx x + hit_len x) (hit_end t rest) :: spans_of t rest h
  else spans_of t rest h.
Proof.
  unfold spans_of. cbn [heading_spans]. rewrite filter_cons.
  case_decide as H1; case_decide as H2; simpl in *; try contradiction; reflexivity.
Qed.

Lemma build_sections_lookup t hs out h :
  build_sections t hs out !! h =
  match spans_of t hs h with
  | [] => out !! h
  | l => Some (default [] (out !! h) ++ map trim l)
  end.
Proof.
  revert out; induction hs as [|x rest IH]; intros out; [reflexivity|].
  cbn [build_sections]. rewrite IH, spans_of_cons.
  destruct (decide (hit_heading x = h)) as [<-|Hne].
  - rewrite lookup_insert_eq. unfold hit_chunk. simpl.
    destruct (spans_of t rest (hit_heading x)); simpl; [reflexivity|].
    rewrite <- app_assoc. reflexivity.
  - rewrite lookup_insert_ne by exact Hne. reflexivity.
Qed.

Lemma splitByHeadingsMulti_lookup t hl h :
  splitByHeadingsMulti t hl !! h =
  match spans_of t (all_hits t hl) h with [] => None | l => Some (map trim l) end.
Proof.
  unfold splitByHeadingsMulti. rewrite build_sections_lookup, lookup_empty.
  destruct (spans_of t (all_hits t hl) h); reflexivity.
Qed.

(** C4 (as the code does it): the hits the segmenter merges are exactly
    the case-insensitive word-boundary occurrences of the headings, each
    once and sorted by offset; and each heading maps to the spans of its
    own hits in document order, from the end of the match to the next
    hit's offset (or the end of the text), each span trimmed; a heading
    with no occurrence has no entry. *)
Theorem heading_segmenter_spans t :
  Sorted (fun x y => hit_idx x <= hit_idx y) (all_hits t heading_list) /\
  NoDup (all_hits t heading_list) /\
  (forall x, In x (all_hits t heading_list) <->
     In (hit_heading x) heading_list /\ heading_at t (hit_heading x) (hit_idx x) /\
     hit_len x = length (js (hit_heading x))) /\
  (forall h, splitByHeadingsMulti t heading_list !! h =
     match spans_of t (all_hits t heading_list) h with [] => None | l => Some (map trim l) end).
Proof.
  split; [apply sort_hits_sorted|]. split.
  - apply NoDup_ListNoDup. apply (Permutation_NoDup (Permutation_sym (sort_hits_perm _))).
    apply NoDup_ListNoDup. apply concat_hits_NoDup. apply NoDup_ListNoDup. vm_compute.
    repeat constructor; simpl; intuition discriminate.
  - split; [apply all_hits_In|]. intros h. apply splitByHeadingsMulti_lookup.
Qed.

(** C4 counterexample: with "EVENT DETAILS" twice, the two hits are found
    and their spans are kept in order, but each span is trimmed: the
    stored bodies are "First body" and "Second body", not the spans
    between the matches, which begin (and, for the first, end) with a
    line break. *)
Lemma event_details_twice_trimmed :
  let t := normalize event_details_twice in
  all_hits t heading_list = [mkHit "EVENT DETAILS" 0 13; mkHit "EVENT DETAILS" 25 13] /\
  spans_of t (all_hits t heading_list) "EVENT DETAILS" =
    [nl :: js "First body" ++ [nl]; nl :: js "Second body"] /\
  splitByHeadingsMulti t heading_list !! "EVENT DETAILS" =
    Some [js "First body"; js "Second body"].
Proof. vm_compute. split; [reflexivity|split; reflexivity]. Qed.

Lemma first_span_or_null_spans t h :
  first_span_or_null (splitByHeadingsMulti t heading_list) h =
  match spans_of t (all_hits t heading_list) h with [] => None | s :: _ => or_null (trim s) end.
Proof.
  unfold first_span_or_null, first_span. rewrite splitByHeadingsMulti_lookup.
  destruct (spans_of t (all_hits t heading_list) h); reflexivity.
Qed.

Lemma or_null_default_or_null o :
  (o = None \/ exists s, o = or_null s) -> or_null (default [] o) = o.
Proof.
  intros [->|[s ->]]; [reflexivity|]. unfold or_null. destruct (nonempty s) eqn:E; [|reflexivity].
  simpl. rewrite E. reflexivity.
Qed.

(** C5 (as the code does it): each raw section passthrough of the brief
    (the four section texts and the schedule's raw text) comes from the
    first occurrence of its heading only: it is the span from the end of
    that match to the next hit's offset (or the end of the text) of the
    normalized text, trimmed, and absent when that is empty or the heading
    does not occur. *)
Theorem raw_sections_first_span rawText :
  let t := normalize rawText in
  let first h :=
    match spans_of t (all_hits t heading_list) h with [] => None | s :: _ => or_null (trim s) end in
  let r := parseLaiEventBrief rawText in
  contactInformation (sections r) = first "CONTACT INFORMATION" /\
  eventDetails (sections r) = first "EVENT DETAILS" /\
  clientDetails (sections r) = first "CLIENT DETAILS" /\
  talentIntroduction (sections r) = first "TALENT INTRODUCTION" /\
  option_map schedule_raw (schedule r) = first "SCHEDULE OF EVENTS".
Proof.
  cbv zeta. unfold parseLaiEventBrief.
  cbn [sections schedule contactInformation eventDetails clientDetails talentIntroduction].
  rewrite !first_span_or_null_spans.
  split; [|split; [reflexivity|split; [reflexivity|split; [reflexivity|]]]].
  - apply or_null_default_or_null.
    destruct (spans_of _ _ "CONTACT INFORMATION") as [|s ?]; [left; reflexivity|right; exists (trim s); reflexivity].
  - destruct (spans_of _ _ "SCHEDULE OF EVENTS") as [|s ?]; [reflexivity|].
    destruct (or_null (trim s)); reflexivity.
Qed.

(** C5 counterexample: the contact-information span of
    "CONTACT INFORMATION\nGrand Hall" is the line break followed by
    "Grand Hall", but the stored section is the trimmed "Grand Hall". *)
Lemma contact_info_span_trimmed :
  let t := normalize contact_info_grand_hall in
  all_hits t heading_list = [mkHit "CONTACT INFORMATION" 0 19] /\
  slice t 19 (length t) = nl :: js "Grand Hall" /\
  contactInformation (sections (parseLaiEventBrief contact_info_grand_hall)) =
    Some (js "Grand Hall").
Proof. vm_compute. split; [reflexivity|split; reflexivity]. Qed.

(* ------------------------------------------------------------------ *)
(** ** Briefs without a recognized heading *)

Lemma present_bounds o : (0 <= present o <= 1)%Z.
Proof. destruct o; simpl; lia. Qed.

Lemma no_heading_parts rawText :
  splitByHeadingsMulti (normalize rawText) heading_list = ∅ ->
  let r := parseLaiEventBrief rawText in
  sites r = [] /\ contacts r = [] /\ schedule r = None /\
  sections r = mkSections None None None None /\
  confidence r = computeConfidence
    (mkConfInput (bookingNumber r) (HeaderFacts.talentName (header r))
       (HeaderFacts.clientName (header r)) (HeaderFacts.eventTitle (header r))
       (HeaderFacts.eventDateText (header r)) [] []).
Proof.
  intros Hm. cbv zeta. unfold parseLaiEventBrief. cbv zeta. rewrite Hm.
  unfold first_span_or_null, first_span. rewrite !lookup_empty. simpl.
  repeat split; reflexivity.
Qed.

(** C8 (as the code does it): when the segmenter finds no recognized
    heading, the engine still returns a brief with no site, no contact,
    no schedule and no section text; its confidence then counts only the
    booking number and the four header facts (which do not depend on the
    sections): the rounded percentage of that count over 7, with
    hasSites and hasContacts false, hence at most 71. *)
Theorem no_heading_brief rawText :
  splitByHeadingsMulti (normalize rawText) heading_list = ∅ ->
  let r := parseLaiEventBrief rawText in
  let h := header r in
  sites r = [] /\ contacts r = [] /\ schedule r = None /\
  sections r = mkSections None None None None /\
  confidence r =
    Confidence.mk
      (round_percent (present (bookingNumber r) + present (HeaderFacts.talentName h)
                      + present (HeaderFacts.clientName h) + present (HeaderFacts.eventTitle h)
                      + present (HeaderFacts.eventDateText h)) 7)
      (is_present (bookingNumber r))
      (is_present (HeaderFacts.talentName h) || is_present (HeaderFacts.clientName h)
       || is_present (HeaderFacts.eventTitle h) || is_present (HeaderFacts.eventDateText h))
      false false /\
  (Confidence.overall (confidence r) <= 71)%Z.
Proof.
  intros Hm. cbv zeta.
  destruct (no_heading_parts rawText Hm) as (Hs & Hc & Hsch & Hsec & Hconf).
  assert (Hk : forall v, bookingNumber (parseLaiEventBrief rawText) = Some v -> v <> []).
  { intros v Hv. apply (bookingNumber_nonempty (normalize rawText)). exact Hv. }
  destruct (header_fields_nonempty (matchBlock header_re (normalize rawText)))
    as (H1 & H2 & H3 & H4).
  assert (Hconf' : confidence (parseLaiEventBrief rawText) =
    Confidence.mk
      (round_percent (present (bookingNumber (parseLaiEventBrief rawText))
         + present (HeaderFacts.talentName (header (parseLaiEventBrief rawText)))
         + present (HeaderFacts.clientName (header (parseLaiEventBrief rawText)))
         + present (HeaderFacts.eventTitle (header (parseLaiEventBrief rawText)))
         + present (HeaderFacts.eventDateText (header (parseLaiEventBrief rawText)))) 7)
      (is_present (bookingNumber (parseLaiEventBrief rawText)))
      (is_present (HeaderFacts.talentName (header (parseLaiEventBrief rawText)))
       || is_present (HeaderFacts.clientName (header (parseLaiEventBrief rawText)))
       || is_present (HeaderFacts.eventTitle (header (parseLaiEventBrief rawText)))
       || is_present (HeaderFacts.eventDateText (header (parseLaiEventBrief rawText))))
      false false).
  { rewrite Hconf, computeConfidence_present by (simpl; assumption). simpl.
    f_equal. f_equal. lia. }
  split; [exact Hs|]. split; [exact Hc|]. split; [exact Hsch|]. split; [exact Hsec|].
  split; [exact Hconf'|]. rewrite Hconf'. cbn [Confidence.overall].
  change 71%Z with (round_percent 5 7). apply round_percent_mono.
  pose proof (present_bounds (bookingNumber (parseLaiEventBrief rawText))).
  pose proof (present_bounds (HeaderFacts.talentName (header (parseLaiEventBrief rawText)))).
  pose proof (present_bounds (HeaderFacts.clientName (header (parseLaiEventBrief rawText)))).
  pose proof (present_bounds (HeaderFacts.eventTitle (header (parseLaiEventBrief rawText)))).
  pose proof (present_bounds (HeaderFacts.eventDateText (header (parseLaiEventBrief rawText)))).
  lia.
Qed.

Lemma no_heading_brief_witness :
  splitByHeadingsMulti (normalize (js "Booking # 999999")) heading_list = ∅ /\
  let r := parseLaiEventBrief (js "Booking # 999999") in
  let h := header r in
  sites r = [] /\ contacts r = [] /\ schedule r = None /\
  sections r = mkSections None None None None /\
  confidence r =
    Confidence.mk
      (round_percent (present (bookingNumber r) + present (HeaderFacts.talentName h)
                      + present (HeaderFacts.clientName h) + present (HeaderFacts.eventTitle h)
                      + present (HeaderFacts.eventDateText h)) 7)
      (is_present (bookingNumber r))
      (is_present (HeaderFacts.talentName h) || is_present (HeaderFacts.clientName h)
       || is_present (HeaderFacts.eventTitle h) || is_present (HeaderFacts.eventDateText h))
      false false /\
  (Confidence.overall (confidence r) <= 71)%Z.
Proof.
  assert (Hm : splitByHeadingsMulti (normalize (js "Booking # 999999")) heading_list = ∅)
    by (vm_compute; reflexivity).
  split; [exact Hm|]. exact (no_heading_brief (js "Booking # 999999") Hm).
Defined.

(** C8 counterexample: a text in which the segmenter finds no recognized
    heading (the map is empty), yet the brief has a booking number and
    all four header facts, and its confidence is 71, not near zero. *)
Lemma no_heading_high_confidence :
  splitByHeadingsMulti (normalize no_heading_input) heading_list = ∅ /\
  bookingNumber (parseLaiEventBrief no_heading_input) = Some (js "12345") /\
  header (parseLaiEventBrief no_heading_input) =
    HeaderFacts.mk (Some (js "A")) (Some (js "B")) (Some (js "C")) (Some (js "Monday"))
      (Some (js "A" ++ nl :: js "B" ++ nl :: js "C" ++ nl :: js "Monday")) /\
  confidence (parseLaiEventBrief no_heading_input) = Confidence.mk 71 true true false false.
Proof. vm_compute. repeat split; reflexivity. Qed.

(* ------------------------------------------------------------------ *)
(** ** An empty site text *)

(** C9: the leaf [raw] of a site is the site's chunk as it is, without
    the [|| null] the other leaves get: for "CONTACT INFORMATION",
    "EVENT SITE:", "HOTEL SITE: Inn" the first site (type "event", every
    other field absent) has [raw] equal to the empty string. *)
Theorem empty_site_raw :
  map (fun s => (Site.type_ s, Site.name s, Site.address s, Site.phone s, Site.email s,
                 Site.raw s))
      (sites (parseLaiEventBrief empty_site_input)) =
  [(js "event", None, None, None, None, []);
   (js "hotel", Some (js "Inn"), Some (js "Inn"), None, None, js "Inn")].
Proof. vm_compute. reflexivity. Qed.

(* ------------------------------------------------------------------ *)
(** ** Base64 decoding, page limits and paged text *)

Lemma list_ind3 {A} (P : list A -> Prop) :
  P [] -> (forall a, P [a]) -> (forall a b, P [a; b]) ->
  (forall a b c r, P r -> P (a :: b :: c :: r)) -> forall l, P l.
Proof.
  intros H0 H1 H2 H3. fix IH 1.
  intros [|a [|b [|c r]]]; [exact H0|apply H1|apply H2|apply H3, IH].
Qed.

Lemma lor_shiftl_small b v k :
  (0 <= k)%Z -> (0 <= v < 2 ^ k)%Z -> Z.lor (Z.shiftl b k) v = (b * 2 ^ k + v)%Z.
Proof.
  intros Hk Hv. rewrite <- Z.shiftl_mul_pow2 by lia.
  assert (H0 : Z.land (Z.shiftl b k) v = 0%Z).
  2:{ rewrite Z.add_nocarry_lxor, Z.lxor_lor by exact H0. done. }
  apply Z.bits_inj_iff'. intros n Hn. rewrite Z.land_spec, Z.bits_0.
  rewrite Z.shiftl_spec by lia.
  destruct (Z.lt_ge_cases n k).
  - rewrite Z.testbit_neg_r by lia. done.
  - rewrite (proj1 (Z.bounded_iff_bits_nonneg k v ltac:(lia) ltac:(lia))) by lia.
    apply andb_false_r.
Qed.

Lemma b64_char_ok v :
  (0 <= v < 64)%Z ->
  b64_value (b64_char v) = Some v /\ is_ascii_ws (b64_char v) = false /\
  ceq (b64_char v) "="%char = false.
Proof.
  intros Hv.
  assert (Hall : forallb (fun k => let v := Z.of_nat k in
                    bool_decide (b64_value (b64_char v) = Some v) && negb (is_ascii_ws (b64_char v))
                    && negb (ceq (b64_char v) "="%char)) (seq 0 64) = true) by reflexivity.
  rewrite forallb_forall in Hall. specialize (Hall (Z.to_nat v)).
  rewrite Z2Nat.id in Hall by lia.
  assert (Hin : In (Z.to_nat v) (seq 0 64)) by (apply in_seq; lia).
  specialize (Hall Hin). apply andb_prop in Hall as [Hall H3]. apply andb_prop in Hall as [H1 H2].
  apply bool_decide_eq_true in H1. apply negb_true_iff in H2, H3. done.
Qed.

Lemma b64_sextets_bounded bs :
  Forall (fun b => 0 <= b < 256)%Z bs -> Forall (fun v => 0 <= v < 64)%Z (b64_sextets bs).
Proof.
  induction bs as [|a|a b|a b c r IH] using list_ind3; intros H; simpl.
  - constructor.
  - inversion H; subst. repeat constructor; try apply Z.div_pos; try lia.
    + apply Z.div_lt_upper_bound; lia.
    + pose proof (Z.mod_pos_bound a 4). lia.
    + pose proof (Z.mod_pos_bound a 4). lia.
  - inversion H as [|? ? Ha Hb']; subst. inversion Hb' as [|? ? Hb _]; subst.
    repeat constructor; try (apply Z.div_pos; lia); try (apply Z.mod_pos_bound; lia).
    apply Z.div_lt_upper_bound; lia.
  - inversion H as [|? ? Ha H']; subst. inversion H' as [|? ? Hb H'']; subst.
    inversion H'' as [|? ? Hc Hr]; subst.
    repeat constructor; try (apply Z.div_pos; lia); try (apply Z.mod_pos_bound; lia).
    + apply Z.div_lt_upper_bound; lia.
    + apply IH, Hr.
Qed.

Lemma b64_bits_group v1 v2 v3 v4 r :
  Forall (fun v => 0 <= v < 64)%Z [v1; v2; v3; v4] ->
  b64_bits (v1 :: v2 :: v3 :: v4 :: r) 0 0 =
  let n := (((v1 * 64 + v2) * 64 + v3) * 64 + v4)%Z in
  (n / 65536)%Z :: (n / 256 mod 256)%Z :: (n mod 256)%Z :: b64_bits r 0 0.
Proof.
  intros H. repeat (inversion H as [|? ? ? H']; subst; clear H; rename H' into H).
  simpl. rewrite !lor_shiftl_small by (simpl; lia).
  rewrite !Z.shiftr_div_pow2 by lia.
  change 255%Z with (Z.ones 8). rewrite !Z.land_ones by lia. simpl. f_equal; f_equal; lia.
Qed.

Ltac pow_num :=
  repeat match goal with
  | |- context [(2 ^ ?k)%Z] => let v := eval compute in (2 ^ k)%Z in change (2 ^ k)%Z with v
  end.

Lemma b64_bits_sextets bs :
  Forall (fun b => 0 <= b < 256)%Z bs -> b64_bits (b64_sextets bs) 0 0 = bs.
Proof.
  induction bs as [|a|a b|a b c r IH] using list_ind3; intros H.
  - done.
  - inversion H; subst. simpl.
    pose proof (Z.mod_pos_bound a 4).
    rewrite !lor_shiftl_small; simpl; try lia.
    + rewrite Z.shiftr_div_pow2 by lia. pow_num. f_equal. Z.div_mod_to_equations. lia.
    + split; [apply Z.div_pos; lia|]. apply Z.div_lt_upper_bound; lia.
  - inversion H as [|? ? Ha Hb']; subst. inversion Hb' as [|? ? Hb _]; subst. simpl.
    pose proof (Z.mod_pos_bound ((a * 65536 + b * 256) / 4096) 64).
    pose proof (Z.mod_pos_bound ((a * 65536 + b * 256) / 64) 64).
    rewrite !lor_shiftl_small; simpl; try lia.
    + rewrite !Z.shiftr_div_pow2 by lia.
      change 255%Z with (Z.ones 8). rewrite !Z.land_ones by lia. pow_num.
      f_equal; [|f_equal]; Z.div_mod_to_equations; lia.
    + split; [apply Z.div_pos; lia|]. apply Z.div_lt_upper_bound; lia.
  - inversion H as [|? ? Ha H']; subst. inversion H' as [|? ? Hb H'']; subst.
    inversion H'' as [|? ? Hc Hr]; subst.
    simpl b64_sextets. rewrite b64_bits_group.
    + cbv zeta.
      set (n := (a * 65536 + b * 256 + c)%Z).
      assert (Hn : ((((n / 262144) * 64 + n / 4096 mod 64) * 64 + n / 64 mod 64) * 64 + n mod 64)%Z = n).
      { subst n. Z.div_mod_to_equations. lia. }
      rewrite Hn, IH by exact Hr. subst n. f_equal; [|f_equal; [|f_equal]];
        Z.div_mod_to_equations; lia.
    + assert (H3 : Forall (fun b => (0 <= b < 256)%Z) [a; b; c]).
      { apply List.Forall_cons; [exact Ha|]. apply List.Forall_cons; [exact Hb|].
        apply List.Forall_cons; [exact Hc|]. apply List.Forall_nil. }
      pose proof (b64_sextets_bounded [a; b; c] H3) as Hs. simpl in Hs. exact Hs.
Qed.

Lemma b64_lengths bs :
  length (b64_sextets bs) mod 4 <> 1 /\
  (length (b64_sextets bs) + (3 - length bs mod 3) mod 3) mod 4 = 0.
Proof.
  induction bs as [|a|a b|a b c r IH] using list_ind3; [done|done|done|].
  cbn [b64_sextets length]. destruct IH as [IH1 IH2].
  replace (S (S (S (length r)))) with (length r + 1 * 3) by lia.
  rewrite Nat.Div0.mod_add.
  replace (S (S (S (S (length (b64_sextets r)))))) with (length (b64_sextets r) + 1 * 4) by lia.
  rewrite Nat.Div0.mod_add. split; [exact IH1|].
  replace (length (b64_sextets r) + 1 * 4 + (3 - length r mod 3) mod 3)
    with ((length (b64_sextets r) + (3 - length r mod 3) mod 3) + 1 * 4) by lia.
  rewrite Nat.Div0.mod_add. exact IH2.
Qed.

Lemma strip_padding_app X k :
  Forall (fun c => ceq c "="%char = false) X -> k <= 2 -> (length X + k) mod 4 = 0 ->
  strip_padding (X ++ repeat "="%char k) = X.
Proof.
  intros HX Hk Hl. unfold strip_padding.
  rewrite length_app, repeat_length, Hl. simpl.
  rewrite rev_app_distr, rev_repeat.
  destruct k as [|[|[|k]]]; [| | |lia]; simpl.
  - rewrite app_nil_r. destruct (rev X) as [|a r] eqn:E; [done|].
    assert (Ha : In a X) by (apply in_rev; rewrite E; left; done).
    rewrite List.Forall_forall in HX. rewrite (HX a Ha). done.
  - destruct (rev X) as [|b r] eqn:E.
    + apply (f_equal (@rev ascii)) in E. rewrite rev_involutive in E. done.
    + assert (Hb : In b X) by (apply in_rev; rewrite E; left; done).
      rewrite List.Forall_forall in HX. rewrite (HX b Hb).
      rewrite <- E, rev_involutive. done.
  - apply rev_involutive.
Qed.

Lemma mapM_b64_char sx :
  Forall (fun v => 0 <= v < 64)%Z sx -> mapM b64_value (map b64_char sx) = Some sx.
Proof.
  induction sx as [|v sx IH]; intros H; [done|].
  inversion H as [|? ? Hv Hs]; subst. simpl.
  rewrite (proj1 (b64_char_ok v Hv)). simpl. rewrite (IH Hs). done.
Qed.

Lemma cs_lit_Some lit s r : cs_lit lit s = Some r -> s = lit ++ r.
Proof.
  revert s; induction lit as [|a lit IH]; intros s; simpl; [congruence|].
  destruct s as [|c s]; [done|].
  destruct (ceq a c) eqn:E; [|done].
  intros H. apply ceq_true in E. subst c. rewrite (IH s H). done.
Qed.

Lemma b64_encode_chars bs c :
  Forall (fun b => 0 <= b < 256)%Z bs -> In c (b64_encode bs) ->
  (exists v, b64_value c = Some v) \/ c = "="%char.
Proof.
  intros H Hc. unfold b64_encode in Hc. apply in_app_or in Hc as [Hc|Hc].
  - left. apply in_map_iff in Hc as (v & <- & Hv).
    pose proof (b64_sextets_bounded bs H) as Hb. rewrite List.Forall_forall in Hb.
    exists v. apply (b64_char_ok v (Hb v Hv)).
  - right. apply repeat_spec in Hc. exact Hc.
Qed.

Lemma strip_data_url_plain s bs :
  Forall (fun b => 0 <= b < 256)%Z bs ->
  filter (fun c => negb (is_ascii_ws c)) s = b64_encode bs -> strip_data_url s = s.
Proof.
  intros Hb Hf. unfold strip_data_url.
  destruct (cs_lit (js "data:") s) as [r|] eqn:E; [|done]. exfalso.
  apply cs_lit_Some in E.
  assert (Hin : ":"%char ∈ filter (fun c => negb (is_ascii_ws c)) s).
  { apply list_elem_of_filter. split; [done|]. rewrite E. apply elem_of_app. left.
    simpl. right. right. right. right. left. }
  rewrite Hf in Hin. apply list_elem_of_In in Hin.
  apply (b64_encode_chars bs _ Hb) in Hin as [[v Hv]|Hv]; done.
Qed.

Lemma atob_of_encoding s bs :
  Forall (fun b => 0 <= b < 256)%Z bs ->
  filter (fun c => negb (is_ascii_ws c)) s = b64_encode bs -> atob s = Some bs.
Proof.
  intros Hb Hf. unfold atob. rewrite Hf. unfold b64_encode.
  destruct (b64_lengths bs) as [Hl1 Hl2].
  pose proof (b64_sextets_bounded bs Hb) as Hs.
  rewrite strip_padding_app.
  - rewrite length_map. destruct (Nat.eqb_spec (length (b64_sextets bs) mod 4) 1); [contradiction|].
    rewrite mapM_b64_char by exact Hs. rewrite b64_bits_sextets by exact Hb. done.
  - apply List.Forall_map. eapply List.Forall_impl; [|exact Hs]. intros v Hv. apply (b64_char_ok v Hv).
  - pose proof (Nat.mod_upper_bound (3 - length bs mod 3) 3). lia.
  - rewrite length_map. exact Hl2.
Qed.

Lemma cs_lit_app lit r : cs_lit lit (lit ++ r) = Some r.
Proof. induction lit as [|a lit IH]; simpl; [done|]. rewrite ceq_refl. exact IH. Qed.

Lemma lazy_base64_eq s :
  lazy_base64 s =
  match cs_lit (js ";base64,") s with
  | Some r => Some r
  | None => match s with c :: s' => if is_lt c then None else lazy_base64 s' | [] => None end
  end.
Proof. destruct s; reflexivity. Qed.

Lemma lazy_base64_app m p :
  Forall (fun c => c <> ";"%char /\ is_lt c = false) m ->
  lazy_base64 (m ++ js ";base64," ++ p) = Some p.
Proof.
  induction m as [|c m IH]; intros H.
  - rewrite app_nil_l, lazy_base64_eq, cs_lit_app. done.
  - inversion H as [|? ? [Hc Hlt] Hm]; subst. rewrite <- app_comm_cons, lazy_base64_eq.
    assert (Hn : cs_lit (js ";base64,") (c :: m ++ js ";base64," ++ p) = None).
    { change (js ";base64,") with (";"%char :: js "base64,") at 1. cbn [cs_lit].
      destruct (ceq ";"%char c) eqn:E; [|done]. apply ceq_true in E. subst c. done. }
    rewrite Hn, Hlt. apply IH, Hm.
Qed.

Lemma strip_padding_suffix s : exists j, s = strip_padding s ++ repeat "="%char j.
Proof.
  unfold strip_padding. destruct (length s mod 4 =? 0); [|exists 0; by rewrite app_nil_r].
  destruct (rev s) as [|a r] eqn:E; [exists 0; by rewrite app_nil_r|].
  apply (f_equal (@rev ascii)) in E. rewrite rev_involutive in E. simpl in E.
  destruct (ceq a "="%char) eqn:Ea; [|exists 0; by rewrite app_nil_r].
  apply ceq_true in Ea. subst a.
  destruct r as [|b r'].
  - exists 1. rewrite E. done.
  - simpl in E. destruct (ceq b "="%char) eqn:Eb.
    + apply ceq_true in Eb. subst b. exists 2. rewrite E, <- app_assoc. done.
    + exists 1. rewrite E. simpl. done.
Qed.

Lemma mapM_None_In {A B} (f : A -> option B) l c : In c l -> f c = None -> mapM f l = None.
Proof.
  induction l as [|x l IH]; intros Hin Hc; [done|].
  destruct Hin as [<-|Hin]; simpl; [by rewrite Hc|].
  destruct (f x); simpl; [|done]. rewrite (IH Hin Hc). done.
Qed.

(** [base64ToUint8Array] inverts standard padded base64: for every byte
    list [bs], a text that, once its ASCII white space is dropped, is the
    padded base64 encoding of [bs] decodes to [bs]. Line breaks or spaces
    inside the text are ignored. *)
Theorem base64_decodes_padded_encoding bs s :
  Forall (fun b => 0 <= b < 256)%Z bs ->
  filter (fun c => negb (is_ascii_ws c)) s = b64_encode bs ->
  base64ToUint8Array s = Some bs.
Proof.
  intros Hb Hf. unfold base64ToUint8Array.
  rewrite (strip_data_url_plain s bs Hb Hf). apply atob_of_encoding; assumption.
Qed.

Lemma base64_decodes_padded_encoding_witness :
  base64ToUint8Array hello_wrapped = Some hello_bytes.
Proof.
  apply base64_decodes_padded_encoding; [repeat constructor; done|vm_compute; reflexivity].
Defined.

(** A [data:] URL prefix is stripped before decoding: [data:], then a
    media type without [;] or line terminator, then [;base64,], then the
    padded encoding of [bs] (white space allowed) decodes to [bs]. *)
Theorem base64_data_url_prefix m s bs :
  Forall (fun b => 0 <= b < 256)%Z bs ->
  Forall (fun c => c <> ";"%char /\ is_lt c = false) m ->
  filter (fun c => negb (is_ascii_ws c)) s = b64_encode bs ->
  base64ToUint8Array (js "data:" ++ m ++ js ";base64," ++ s) = Some bs.
Proof.
  intros Hb Hm Hf. unfold base64ToUint8Array, strip_data_url.
  rewrite cs_lit_app, lazy_base64_app by exact Hm. apply atob_of_encoding; assumption.
Qed.

Lemma base64_data_url_prefix_witness :
  base64ToUint8Array (js "data:" ++ js "application/pdf" ++ js ";base64," ++ hello_wrapped)
  = Some hello_bytes.
Proof.
  apply base64_data_url_prefix;
    [repeat constructor; done|repeat constructor; done|vm_compute; reflexivity].
Defined.

(** [base64ToUint8Array] fails (returns [None], where [atob] throws) when
    the text left after stripping a data-URL prefix and ASCII white space
    has a length of 1 modulo 4, or contains a character other than [=]
    that is not in the base64 alphabet. *)
Theorem base64_rejects_malformed s :
  let d := filter (fun c => negb (is_ascii_ws c)) (strip_data_url s) in
  (length d mod 4 = 1 -> base64ToUint8Array s = None) /\
  (forall c, In c d -> c <> "="%char -> b64_value c = None -> base64ToUint8Array s = None).
Proof.
  cbv zeta. unfold base64ToUint8Array, atob.
  set (d := filter (fun c => negb (is_ascii_ws c)) (strip_data_url s)).
  split.
  - intros Hl. assert (Hs : strip_padding d = d).
    { unfold strip_padding. destruct (Nat.eqb_spec (length d mod 4) 0); [lia|done]. }
    rewrite Hs, Hl. done.
  - intros c Hc Hne Hv.
    destruct (length (strip_padding d) mod 4 =? 1); [done|].
    destruct (strip_padding_suffix d) as [j Hj].
    assert (Hc' : In c (strip_padding d)).
    { rewrite Hj in Hc. apply in_app_or in Hc as [Hc|Hc]; [exact Hc|].
      apply repeat_spec in Hc. contradiction. }
    rewrite (mapM_None_In b64_value _ c Hc' Hv). done.
Qed.

(** [clampInt n min max def] with [min <= def <= max] always lies in
    [min..max]; for a finite number whose floor is already in range, it is
    that floor. *)
Theorem clampInt_bounds n min max def :
  (min <= max)%Z -> (min <= def <= max)%Z ->
  (min <= clampInt n min max def <= max)%Z /\
  (forall q, n = JFin q -> (min <= Qfloor q <= max)%Z -> clampInt n min max def = Qfloor q).
Proof.
  intros H1 H2. destruct n as [| | |q0]; simpl; (split; [lia|intros q Hq; try discriminate]).
  injection Hq as ->. lia.
Qed.

Lemma clampInt_bounds_witness :
  (1 <= clampInt (JFin (7 # 2)) 1 10 1 <= 10)%Z /\ clampInt (JFin (7 # 2)) 1 10 1 = 3%Z.
Proof.
  destruct (clampInt_bounds (JFin (7 # 2)) 1 10 1 ltac:(lia) ltac:(lia)) as [H1 H2].
  split; [exact H1|]. apply (H2 (7 # 2) eq_refl). vm_compute. split; discriminate.
Defined.

Lemma imap_page_no (g : nat -> nat) l :
  map page_no (imap (fun i t => mkPage (g i) t 0) l) = map g (seq 0 (length l)).
Proof.
  revert g; induction l as [|x l IH]; intros g; [done|].
  rewrite imap_cons. simpl. f_equal.
  etransitivity; [apply (IH (fun i => g (S i)))|]. rewrite <- seq_shift, map_map. done.
Qed.

Lemma imap_page_text (g : nat -> nat) l :
  map page_text (imap (fun i t => mkPage (g i) t 0) l) = l.
Proof.
  revert g; induction l as [|x l IH]; intros g; [done|].
  rewrite imap_cons. simpl. f_equal. apply (IH (fun i => g (S i))).
Qed.

Lemma pages_of_chunks_text chunks m :
  exists j, map page_text (pages (pages_of_chunks chunks m)) = take j chunks.
Proof.
  unfold pages_of_chunks, slice0. cbn [pages]. rewrite imap_page_text. eexists. reflexivity.
Qed.

Lemma pages_of_chunks_spec chunks m :
  (1 <= m)%Z -> chunks <> [] ->
  let r := pages_of_chunks chunks m in
  extractedPages r = length (pages r) /\ 1 <= extractedPages r /\
  (Z.of_nat (extractedPages r) <= m)%Z /\
  map page_no (pages r) = seq 1 (extractedPages r) /\
  rawText r = mjoin (map page_block (pages r)).
Proof.
  intros Hm Hc. cbv zeta. unfold pages_of_chunks. cbn [extractedPages pages rawText].
  assert (Hlen : 1 <= length chunks) by (destruct chunks; [done|simpl; lia]).
  set (k := Z.min (Z.of_nat (length chunks)) m).
  assert (Hk : slice0 chunks k = take (Z.to_nat k) chunks).
  { unfold slice0. destruct (Z.ltb_spec k 0); [lia|done]. }
  rewrite Hk. rewrite length_imap, length_take.
  split; [done|]. split; [lia|]. split; [lia|]. split; [|done].
  rewrite imap_page_no, length_take, <- seq_shift. done.
Qed.

Lemma trimmed_chunks_ok l :
  Forall (fun t => is_trimmed t = true /\ t <> []) (trimmed_chunks l).
Proof.
  unfold trimmed_chunks. induction l as [|a l IH]; simpl; [constructor|].
  rewrite filter_cons. case_decide as H; [|exact IH].
  constructor; [|exact IH]. split; [apply trim_trimmed|]. destruct (trim a); done.
Qed.

Lemma buildPagedText_spec fullText maxPages :
  (1 <= maxPages)%Z ->
  let r := buildPagedText fullText maxPages in
  extractedPages r = length (pages r) /\ 1 <= extractedPages r /\
  (Z.of_nat (extractedPages r) <= maxPages)%Z /\
  map page_no (pages r) = seq 1 (extractedPages r) /\
  rawText r = mjoin (map page_block (pages r)).
Proof.
  intros Hm. cbv zeta. unfold buildPagedText. cbv zeta.
  destruct (Nat.leb_spec 2 (length (trimmed_chunks (split_ch ff (trim fullText))))) as [H|H].
  { apply pages_of_chunks_spec; [exact Hm|]. intros E. rewrite E in H. simpl in H. lia. }
  destruct (Nat.leb_spec 2 (length (trimmed_chunks (marker_split None [] (trim fullText))))) as [H'|H'].
  { apply pages_of_chunks_spec; [exact Hm|]. intros E. rewrite E in H'. simpl in H'. lia. }
  cbn. split; [done|]. split; [lia|]. split; [lia|]. split; [done|]. rewrite app_nil_r. done.
Qed.

(** For [maxPages >= 1], [buildPagedText] returns at least one and at most
    [maxPages] pages, [extractedPages] is the number of pages, the pages are
    numbered 1, 2, ... in order, and [rawText] is the concatenation of the
    pages' ["\n\n=== PAGE n ===\n" + text] blocks. *)
Theorem buildPagedText_pages fullText maxPages :
  (1 <= maxPages)%Z ->
  let r := buildPagedText fullText maxPages in
  extractedPages r = length (pages r) /\ 1 <= extractedPages r /\
  (Z.of_nat (extractedPages r) <= maxPages)%Z /\
  map page_no (pages r) = seq 1 (extractedPages r) /\
  rawText r = mjoin (map page_block (pages r)).
Proof. apply buildPagedText_spec. Qed.

Lemma buildPagedText_pages_witness :
  let r := buildPagedText (js "Page 1 of 2 intro Page 2 of 2 agenda") 1 in
  extractedPages r = length (pages r) /\ 1 <= extractedPages r /\
  (Z.of_nat (extractedPages r) <= 1)%Z /\
  map page_no (pages r) = seq 1 (extractedPages r) /\
  rawText r = mjoin (map page_block (pages r)).
Proof. apply buildPagedText_pages. lia. Defined.

(** The handler's composition: with the page limit computed by
    [clampInt(.., 1, 10, 1)] from any number, [buildPagedText] extracts
    between 1 and 10 pages, numbered 1, 2, ... in order. *)
Theorem paged_text_with_clamped_limit fullText n :
  let r := buildPagedText fullText (clampInt n 1 10 1) in
  1 <= extractedPages r <= 10 /\ extractedPages r = length (pages r) /\
  map page_no (pages r) = seq 1 (extractedPages r).
Proof.
  assert (Hc : (1 <= clampInt n 1 10 1 <= 10)%Z).
  { destruct n; simpl; lia. }
  destruct (buildPagedText_spec fullText (clampInt n 1 10 1) ltac:(lia))
    as (H1 & H2 & H3 & H4 & _).
  cbv zeta. split; [lia|]. split; assumption.
Qed.

Lemma pages_of_chunks_Forall (P : list ascii -> Prop) chunks m :
  Forall P chunks -> Forall (fun x => P (page_text x)) (pages (pages_of_chunks chunks m)).
Proof.
  intros H. destruct (pages_of_chunks_text chunks m) as [j Hj].
  apply List.Forall_map. rewrite Hj. apply Forall_take, H.
Qed.

(** Every page text of [buildPagedText] is trimmed; when the trimmed input
    is not empty no page text is empty; and an input that is empty or all
    white space gives the single empty page 1. *)
Theorem buildPagedText_page_texts fullText maxPages :
  let r := buildPagedText fullText maxPages in
  Forall (fun x => is_trimmed (page_text x) = true) (pages r) /\
  (trim fullText <> [] -> Forall (fun x => page_text x <> []) (pages r)) /\
  (trim fullText = [] -> r = mkPaged (page_block (mkPage 1 [] 0)) [mkPage 1 [] 0] 1).
Proof.
  cbv zeta. unfold buildPagedText. cbv zeta.
  pose proof (trimmed_chunks_ok (split_ch ff (trim fullText))) as Hf.
  pose proof (trimmed_chunks_ok (marker_split None [] (trim fullText))) as Hm.
  split; [|split].
  - destruct (2 <=? _).
    { apply (pages_of_chunks_Forall (fun t => is_trimmed t = true)).
      eapply List.Forall_impl; [|exact Hf]. simpl. tauto. }
    destruct (2 <=? _).
    { apply (pages_of_chunks_Forall (fun t => is_trimmed t = true)).
      eapply List.Forall_impl; [|exact Hm]. simpl. tauto. }
    repeat constructor. apply trim_trimmed.
  - intros Hne.
    destruct (2 <=? _).
    { apply (pages_of_chunks_Forall (fun t => t <> [])).
      eapply List.Forall_impl; [|exact Hf]. simpl. tauto. }
    destruct (2 <=? _).
    { apply (pages_of_chunks_Forall (fun t => t <> [])).
      eapply List.Forall_impl; [|exact Hm]. simpl. tauto. }
    repeat constructor. exact Hne.
  - intros He. rewrite He. reflexivity.
Qed.

Lemma split_ch_acc_nosep sep cur s :
  existsb (fun c => ceq c sep) s = false -> split_ch_acc sep cur s = [rev cur ++ s].
Proof.
  revert cur; induction s as [|c s IH]; intros cur H; simpl; [by rewrite app_nil_r|].
  simpl in H. apply orb_false_iff in H as [Hc Hs]. rewrite Hc.
  rewrite (IH (c :: cur) Hs). simpl. rewrite <- app_assoc. done.
Qed.

Lemma marker_split_none prev cur s :
  (forall k, k < length s -> marker_at (prev_at prev s k) (drop k s) = false) ->
  marker_split prev cur s = [rev cur ++ s].
Proof.
  revert prev cur; induction s as [|c s IH]; intros prev cur H; cbn [marker_split];
    [by rewrite app_nil_r|].
  pose proof (H 0 ltac:(simpl; lia)) as H0. change (marker_at prev (c :: s) = false) in H0.
  rewrite H0, andb_false_r.
  rewrite IH.
  - simpl. rewrite <- app_assoc. done.
  - intros k Hk. rewrite <- (prev_at_cons prev c s k). apply (H (S k)). simpl. lia.
Qed.

Lemma trimmed_chunks_one t : length (trimmed_chunks [t]) <= 1.
Proof. unfold trimmed_chunks. simpl. rewrite filter_cons. case_decide; simpl; lia. Qed.

(** A text (once trimmed) with no form feed and no [Page N of M] marker
    gives exactly one page, holding the whole trimmed text, whatever the
    page limit. *)
Theorem buildPagedText_single_page fullText maxPages :
  existsb (fun c => ceq c ff) (trim fullText) = false ->
  forallb (fun k => negb (marker_at (prev_at None (trim fullText) k) (drop k (trim fullText))))
    (seq 0 (length (trim fullText))) = true ->
  buildPagedText fullText maxPages =
  mkPaged (page_block (mkPage 1 (trim fullText) 0)) [mkPage 1 (trim fullText) 0] 1.
Proof.
  intros Hff Hmk. unfold buildPagedText. cbv zeta. set (t := trim fullText) in *.
  unfold split_ch. rewrite split_ch_acc_nosep by exact Hff.
  rewrite marker_split_none.
  - cbn [rev app]. pose proof (trimmed_chunks_one t).
    destruct (Nat.leb_spec 2 (length (trimmed_chunks [t]))); [lia|]. reflexivity.
  - intros k Hk. rewrite forallb_forall in Hmk.
    specialize (Hmk k (proj2 (in_seq _ _ _) (conj (Nat.le_0_l k) Hk))).
    apply negb_true_iff in Hmk. exact Hmk.
Qed.

Lemma buildPagedText_single_page_witness :
  buildPagedText (js " Booking # 12345 ") 3 =
  mkPaged (page_block (mkPage 1 (js "Booking # 12345") 0)) [mkPage 1 (js "Booking # 12345") 0] 1.
Proof. apply buildPagedText_single_page; vm_compute; reflexivity. Defined.

(* ------------------------------------------------------------------ *)
(** ** Further properties of the parser *)

(** The text [normalize] returns has no carriage return and no tab, no
    space next to a space or a line feed, no run of more than two line
    feeds, and no white space at either end. *)
Theorem normalize_output_shape x :
  let n := normalize x in
  Forall (fun c => c <> cr) n /\ Forall (fun c => c <> tab) n /\
  no_adj blank_pair n = true /\ nl_ok 0 n = true /\ is_trimmed n = true.
Proof. exact (normalize_shape x). Qed.

Lemma keep_first_sublist l : sublist (keep_first l) l.
Proof.
  induction l as [|c l IH]; simpl; [constructor|]. apply sublist_skip.
  transitivity (keep_first l); [apply sublist_filter|exact IH].
Qed.

Lemma In_keep_first c l : In c (keep_first l) -> In c l.
Proof.
  intros H. apply list_elem_of_In. apply list_elem_of_In in H.
  exact (elem_of_sublist _ _ _ H (keep_first_sublist l)).
Qed.

Lemma In_filter_key c d k :
  In d (filter (fun d => contact_key d <> contact_key c) k) <->
  contact_key d <> contact_key c /\ In d k.
Proof. rewrite <- !list_elem_of_In, list_elem_of_filter. tauto. Qed.

Lemma NoDup_map_filter {A B} (f : A -> B) (P : A -> Prop) `{forall x, Decision (P x)} k :
  NoDup (map f k) -> NoDup (map f (filter P k)).
Proof.
  induction k as [|x k IH]; simpl; [constructor|]. intros Hnd. inversion Hnd as [|? ? Hx Hk]; subst.
  rewrite filter_cons. case_decide; simpl; [|exact (IH Hk)].
  constructor; [|exact (IH Hk)]. intros Hin. apply Hx.
  apply list_elem_of_In in Hin. apply list_elem_of_In.
  apply in_map_iff in Hin as (y & Hy & Hin). apply in_map_iff. exists y. split; [exact Hy|].
  apply list_elem_of_In in Hin. apply list_elem_of_In.
  apply list_elem_of_filter in Hin. tauto.
Qed.

Lemma keep_first_NoDup l : NoDup (map contact_key (keep_first l)).
Proof.
  induction l as [|c l IH]; simpl; [constructor|]. constructor.
  - intros Hin. apply list_elem_of_In in Hin. apply in_map_iff in Hin as (d & Hd & Hin).
    apply In_filter_key in Hin as [Hne _]. exact (Hne Hd).
  - apply NoDup_map_filter, IH.
Qed.

Lemma keep_first_cover l c : In c l -> exists d, In d (keep_first l) /\ contact_key d = contact_key c.
Proof.
  induction l as [|e l IH]; simpl; [tauto|]. intros [<-|Hc].
  - exists e. auto.
  - destruct (IH Hc) as (d & Hd & Hk).
    destruct (decide (contact_key d = contact_key e)) as [He|He].
    + exists e. split; [left; reflexivity|]. congruence.
    + exists d. split; [right; apply In_filter_key; auto|exact Hk].
Qed.

Lemma filter_key_id c l :
  contact_key c ∉ map contact_key l -> filter (fun d => contact_key d <> contact_key c) l = l.
Proof.
  induction l as [|d l IH]; simpl; [done|]. intros Hc.
  rewrite filter_cons_True.
  - f_equal. apply IH. intros H. apply Hc. right. exact H.
  - intros E. apply Hc. rewrite E. left.
Qed.

Lemma keep_first_id l : NoDup (map contact_key l) -> keep_first l = l.
Proof.
  induction l as [|c l IH]; simpl; [done|]. intros Hnd. inversion Hnd as [|? ? Hc Hl]; subst.
  rewrite (IH Hl). f_equal. apply filter_key_id, Hc.
Qed.

(** [dedupeContacts] keeps contacts in their input order (its output is
    a sublist of its input), the kept contacts have pairwise distinct
    composite keys, every input contact's key is the key of some kept
    contact, and deduplicating again changes nothing. *)
Theorem dedupeContacts_invariants l :
  let d := dedupeContacts l in
  sublist d l /\ NoDup (map contact_key d) /\
  (forall c, In c l -> exists c', In c' d /\ contact_key c' = contact_key c) /\
  dedupeContacts d = d.
Proof.
  cbv zeta. rewrite !dedupeContacts_keep_first.
  split; [apply keep_first_sublist|]. split; [apply keep_first_NoDup|].
  split; [apply keep_first_cover|]. apply keep_first_id, keep_first_NoDup.
Qed.

Lemma js_or_null_is_present x : is_present (js_or x None) = truthy x.
Proof. unfold js_or. destruct (truthy x) eqn:E; [|done]. destruct x; done. Qed.

Lemma js_or_null_nonempty x v : js_or x None = Some v -> v <> [].
Proof. unfold js_or, truthy. destruct x as [[|c l]|]; simpl; congruence. Qed.

Lemma digits_value_nonneg s : (0 <= digits_value s)%Z.
Proof.
  unfold digits_value.
  enough (H : forall a, (0 <= a)%Z ->
    (0 <= fold_left (fun acc c => acc * 10 + Z.of_nat (nat_of_ascii c - 48))%Z s a)%Z)
    by (apply H; lia).
  induction s as [|c s IH]; simpl; intros a Ha; [exact Ha|]. apply IH. lia.
Qed.

(** When [parseHotelDetails] returns a record, at least one of its six
    fields is set, each string field set is non-empty, and the number of
    nights, when set, is not negative. *)
Theorem parseHotelDetails_fields block h :
  parseHotelDetails block = Some h ->
  (is_present (HotelDetails.checkIn h) || is_present (HotelDetails.checkOut h)
   || is_present (HotelDetails.confirmation h) || is_present (HotelDetails.roomType h)
   || match HotelDetails.nights h with Some _ => true | None => false end
   || is_present (HotelDetails.rate h)) = true /\
  Forall (fun o => forall v, o = Some v -> v <> [])
    [HotelDetails.checkIn h; HotelDetails.checkOut h; HotelDetails.confirmation h;
     HotelDetails.roomType h; HotelDetails.rate h] /\
  (forall n, HotelDetails.nights h = Some n -> (0 <= n)%Z).
Proof.
  unfold parseHotelDetails. cbv zeta.
  set (a := match1 (check_re "In") block). set (b := match1 (check_re "Out") block).
  set (c := match1 confirmation_re block). set (d := match1 room_type_re block).
  set (e := match1 nights_re block). set (f := match1 rate_re block).
  destruct (truthy a || truthy b || truthy c || truthy d || truthy e || truthy f) eqn:E;
    [|discriminate]. intros H. injection H as <-. cbn.
  split; [|split].
  - rewrite !js_or_null_is_present.
    replace (match (if truthy e then option_map digits_value e else None) with
             | Some _ => true | None => false end) with (truthy e); [exact E|].
    destruct e as [l|]; simpl; [|done]. destruct l; done.
  - repeat constructor; intros v; apply js_or_null_nonempty.
  - intros n. destruct (truthy e); [|discriminate]. destruct e; simpl; [|discriminate].
    intros H. injection H as <-. apply digits_value_nonneg.
Qed.

Lemma parseHotelDetails_fields_witness :
  let h := HotelDetails.mk (Some (js "June 1")) None None None (Some 2%Z) None in
  (is_present (HotelDetails.checkIn h) || is_present (HotelDetails.checkOut h)
   || is_present (HotelDetails.confirmation h) || is_present (HotelDetails.roomType h)
   || match HotelDetails.nights h with Some _ => true | None => false end
   || is_present (HotelDetails.rate h)) = true /\
  Forall (fun o => forall v, o = Some v -> v <> [])
    [HotelDetails.checkIn h; HotelDetails.checkOut h; HotelDetails.confirmation h;
     HotelDetails.roomType h; HotelDetails.rate h] /\
  (forall n, HotelDetails.nights h = Some n -> (0 <= n)%Z).
Proof.
  apply (parseHotelDetails_fields (js "Check-In: June 1" ++ nl :: js "Nights: 2")).
  vm_compute. reflexivity.
Defined.

Lemma omap_Forall {A B} (f : A -> option B) (P : B -> Prop) l :
  (forall x y, In x l -> f x = Some y -> P y) -> Forall P (omap f l).
Proof.
  induction l as [|x l IH]; simpl; intros H; [constructor|].
  destruct (f x) eqn:E.
  - constructor; [exact (H x b (or_introl eq_refl) E)|]. apply IH. intros; eapply H; eauto.
  - apply IH. intros; eapply H; eauto.
Qed.

Lemma omap_length {A B} (f : A -> option B) l : length (omap f l) <= length l.
Proof.
  induction l as [|x l IH]; simpl; [lia|]. change (omap f l) with (list_omap A B f l) in IH.
  destruct (f x); simpl; lia.
Qed.

Lemma label_positions_ok block :
  Forall site_type_ok (label_positions block) /\ length (label_positions block) <= 4.
Proof.
  unfold label_positions. split; [|apply (omap_length _ siteLabels)].
  apply omap_Forall. intros sl lp Hsl E.
  destruct (search _ _ _ _) as [[i len]|]; [|discriminate]. injection E as <-.
  unfold site_type_ok. simpl.
  simpl in Hsl. repeat destruct Hsl as [<-|Hsl]; simpl; tauto.
Qed.

Lemma insert_lp_props (P : label_pos -> Prop) x l :
  P x -> Forall P l -> Forall P (insert_lp x l) /\ length (insert_lp x l) = S (length l).
Proof.
  intros Hx; induction l as [|y l IH]; simpl; intros Hl; [split; [constructor; auto|done]|].
  inversion Hl as [|? ? Hy Hl']; subst.
  destruct (lp_idx x <=? lp_idx y).
  - split; [constructor; auto|done].
  - destruct (IH Hl') as [H1 H2]. split; [constructor; auto|simpl; lia].
Qed.

Lemma sort_lp_props (P : label_pos -> Prop) l :
  Forall P l -> Forall P (sort_lp l) /\ length (sort_lp l) = length l.
Proof.
  induction l as [|x l IH]; simpl; intros Hl; [split; [constructor|done]|].
  inversion Hl as [|? ? Hx Hl']; subst. destruct (IH Hl') as [H1 H2].
  destruct (insert_lp_props P x (sort_lp l) Hx H1) as [H3 H4]. split; [exact H3|lia].
Qed.

Lemma make_site_shape ty chunk hotel :
  ty = "event"%string \/ ty = "hotel"%string ->
  (ty = "event"%string -> hotel = None) -> site_shape (make_site ty chunk hotel).
Proof.
  intros Hty Hh. unfold make_site.
  destruct (parseAddressBlock chunk) as [[[n a] p] e]. unfold site_shape. simpl.
  destruct Hty as [->| ->]; [left|right]; simpl; auto.
Qed.

Lemma sites_loop_props block lps li :
  Forall site_type_ok lps ->
  Forall site_shape (sites_loop block lps li) /\ length (sites_loop block lps li) = length lps.
Proof.
  revert li; induction lps as [|x rest IH]; intros li Hl; simpl; [split; [constructor|done]|].
  inversion Hl as [|? ? Hx Hr]; subst.
  destruct (caps_label_exec _ _) as [m2 li'].
  destruct (IH li' Hr) as [H1 H2]. split; [|simpl; lia].
  constructor; [|exact H1].
  apply make_site_shape; [exact Hx|]. intros ->. reflexivity.
Qed.

(** [parseSitesFromContactInfo] returns at most 4 sites; each is an event
    site labelled "EVENT SITE" without hotel details, or a hotel site
    labelled "HOTEL SITE". *)
Theorem parseSites_shape block :
  let ss := parseSitesFromContactInfo block in
  length ss <= 4 /\
  Forall (fun s =>
    (Site.type_ s = js "event" /\ Site.label s = js "EVENT SITE" /\ Site.hotelDetails s = None) \/
    (Site.type_ s = js "hotel" /\ Site.label s = js "HOTEL SITE")) ss.
Proof.
  cbv zeta. unfold parseSitesFromContactInfo.
  destruct block as [|c r]; [split; [simpl; lia|constructor]|].
  set (b := c :: r).
  destruct (label_positions_ok b) as [Hok Hlen].
  destruct (sort_lp_props _ _ Hok) as [Hs Hslen].
  destruct (sites_loop_props b (sort_lp (label_positions b)) 0 Hs) as [H1 H2].
  destruct (sites_loop b (sort_lp (label_positions b)) 0) as [|s ss] eqn:E.
  - destruct (truthy _).
    + split; [simpl; lia|]. constructor; [|constructor].
      apply make_site_shape; [left; reflexivity|reflexivity].
    + split; [simpl; lia|constructor].
  - split; [lia|exact H1].
Qed.

Lemma label_hits_groups block : Forall (fun x => label_group_ok (lh_group x)) (label_hits block).
Proof.
  unfold label_hits. apply List.Forall_forall. intros x Hx.
  apply in_concat in Hx as (l1 & Hl1 & Hx). apply in_map_iff in Hl1 as (d & <- & Hd).
  apply in_concat in Hx as (l2 & Hl2 & Hx). apply in_map_iff in Hl2 as (lab & <- & _).
  apply in_map_iff in Hx as ([i len] & <- & _). simpl.
  unfold label_group_ok. simpl in Hd. repeat destruct Hd as [<-|Hd]; simpl; tauto.
Qed.

Lemma insert_lh_Forall (P : label_hit -> Prop) x l :
  P x -> Forall P l -> Forall P (insert_lh x l).
Proof.
  intros Hx; induction l as [|y l IH]; simpl; intros Hl; [constructor; auto|].
  inversion Hl as [|? ? Hy Hl']; subst.
  destruct (lh_idx x <=? lh_idx y); constructor; auto.
Qed.

Lemma sort_lh_Forall (P : label_hit -> Prop) l : Forall P l -> Forall P (sort_lh l).
Proof.
  induction l as [|x l IH]; simpl; intros Hl; [constructor|].
  inversion Hl; subst. apply insert_lh_Forall; auto.
Qed.

Lemma chunks_of_groups (P : string -> Prop) block hs :
  Forall (fun x => P (lh_group x)) hs -> Forall (fun p => P (fst p)) (chunks_of block hs).
Proof.
  induction hs as [|x rest IH]; simpl; intros H; [constructor|].
  inversion H; subst. constructor; auto.
Qed.

Lemma sliceLabeledChunks_groups block :
  Forall (fun p => label_group_ok (fst p)) (sliceLabeledChunks block).
Proof.
  unfold sliceLabeledChunks. apply chunks_of_groups, sort_lh_Forall, label_hits_groups.
Qed.

Lemma parsePersonBlock_group b g c : parsePersonBlock b g = Some c -> Contact.group c = js g.
Proof.
  unfold parsePersonBlock. cbv zeta. destruct (trim _); [discriminate|].
  intros H. injection H as <-. reflexivity.
Qed.

Lemma parsePeopleList_group text g : Forall (fun c => Contact.group c = js g) (parsePeopleList text g).
Proof.
  unfold parsePeopleList. cbv zeta. destruct (lines_of text); [constructor|].
  apply omap_Forall. intros b c _. apply parsePersonBlock_group.
Qed.

Lemma parseTalentContacts_group text :
  Forall (fun c => Contact.group c = js "talent" \/ Contact.group c = js "talent_companion")
    (parseTalentContacts text).
Proof.
  unfold parseTalentContacts. cbv zeta. destruct (trim text); [constructor|].
  constructor; [left; reflexivity|]. destruct (truthy _); [constructor; [right; reflexivity|constructor]|constructor].
Qed.

(** Every contact [parseContactsFromContactInfo] returns has one of the
    groups client_onsite, lai_onsite, lai_contacts, talent or
    talent_companion, and no two returned contacts share a composite key. *)
Theorem parseContacts_groups block :
  let cs := parseContactsFromContactInfo block in
  Forall (fun c => In (Contact.group c) contact_groups) cs /\ NoDup (map contact_key cs).
Proof.
  cbv zeta. unfold parseContactsFromContactInfo.
  destruct block as [|ch r]; [split; constructor|].
  rewrite dedupeContacts_keep_first. split; [|apply keep_first_NoDup].
  apply List.Forall_forall. intros c Hc. apply In_keep_first in Hc.
  apply in_concat in Hc as (l & Hl & Hc). apply in_map_iff in Hl as ([g txt] & <- & Hg).
  pose proof (proj1 (List.Forall_forall _ _) (sliceLabeledChunks_groups (ch :: r)) _ Hg) as Hok.
  unfold label_group_ok in Hok. simpl in Hok.
  destruct (String.eqb_spec g "talent") as [->|Hne].
  - pose proof (proj1 (List.Forall_forall _ _) (parseTalentContacts_group txt) _ Hc) as [E|E];
      rewrite E; simpl; tauto.
  - pose proof (proj1 (List.Forall_forall _ _) (parsePeopleList_group txt g) _ Hc) as E.
    rewrite E. simpl.
    repeat destruct Hok as [<-|Hok]; try tauto.
Qed.

(** The overall confidence lies between 0 and 100; it is 100 exactly when
    all seven facts are present (the five header facts truthy, sites and
    contacts non-empty) and 0 exactly when none is. *)
Theorem computeConfidence_range x :
  let o := Confidence.overall (computeConfidence x) in
  (0 <= o <= 100)%Z /\
  (o = 100%Z <->
     truthy (ci_bookingNumber x) = true /\ truthy (ci_talentName x) = true /\
     truthy (ci_clientName x) = true /\ truthy (ci_eventTitle x) = true /\
     truthy (ci_eventDateText x) = true /\ ci_sites x <> [] /\ ci_contacts x <> []) /\
  (o = 0%Z <->
     truthy (ci_bookingNumber x) = false /\ truthy (ci_talentName x) = false /\
     truthy (ci_clientName x) = false /\ truthy (ci_eventTitle x) = false /\
     truthy (ci_eventDateText x) = false /\ ci_sites x = [] /\ ci_contacts x = []).
Proof.
  cbv zeta. unfold computeConfidence, score. cbn [Confidence.overall].
  destruct (truthy (ci_bookingNumber x)), (truthy (ci_talentName x)),
    (truthy (ci_clientName x)), (truthy (ci_eventTitle x)), (truthy (ci_eventDateText x)),
    (ci_sites x), (ci_contacts x);
    vm_compute; intuition congruence.
Qed.




Lemma normalize_fixpoint x : normalize (normalize x) = normalize x.
Proof.
  destruct (normalize_shape x) as (Hcr & Htab & Hbl & Hnl & Htr).
  set (n := normalize x) in *.
  unfold normalize at 1.
  rewrite strip_cr_id by exact Hcr.
  rewrite collapse_blanks_id; [| exact Htab
    | apply (no_adj_mono sp_sp blank_pair); [|exact Hbl];
      intros c d H; unfold blank_pair; unfold sp_sp in H; rewrite H; done
    | done].
  rewrite strip_nl_pad_id by exact Hbl.
  rewrite squeeze_nl_id by (lia || exact Hnl).
  apply trim_of_trimmed, Htr.
Qed.

(** Each flight leg's raw text is already normalized (normalizing it
    again changes nothing; it has no carriage return or tab), and its
    airline and flight number are trimmed. *)
Theorem parseFlights_legs scheduleBlock :
  Forall (fun f =>
    normalize (FlightLeg.raw f) = FlightLeg.raw f /\
    Forall (fun c => c <> cr) (FlightLeg.raw f) /\ Forall (fun c => c <> tab) (FlightLeg.raw f) /\
    is_trimmed (FlightLeg.airline f) = true /\ is_trimmed (FlightLeg.flightNumber f) = true)
    (parseFlights scheduleBlock).
Proof.
  unfold parseFlights. apply List.Forall_forall. intros f Hf.
  apply in_map_iff in Hf as ([[air ds] m0] & <- & _). simpl.
  destruct (normalize_shape m0) as (Hcr & Htab & _).
  split; [apply normalize_fixpoint|]. split; [exact Hcr|]. split; [exact Htab|].
  split; apply trim_trimmed.
Qed.

Lemma lines_of_trimmed s : Forall (fun l => is_trimmed l = true) (lines_of s).
Proof.
  unfold lines_of. apply List.Forall_forall. intros l Hl.
  apply list_elem_of_In, list_elem_of_filter in Hl as [_ Hl].
  apply list_elem_of_In, in_map_iff in Hl as (w & <- & _). apply trim_trimmed.
Qed.

Lemma line_or_null_In lines i v : line_or_null lines i = Some v -> In v lines.
Proof.
  unfold line_or_null, or_null. destruct (lines !! i) as [l|] eqn:E; [|discriminate].
  destruct (nonempty l); [|discriminate]. intros H. injection H as <-.
  apply list_elem_of_In. exact (list_elem_of_lookup_2 _ _ _ E).
Qed.

(** Each of talentName, clientName, eventTitle and eventDateText of
    [parseHeaderBlock] is null or a non-empty, trimmed, non-blank line of
    the header block; raw is the block itself, or null when the block is
    null or empty. *)
Theorem parseHeaderBlock_fields b :
  let h := parseHeaderBlock b in
  Forall (fun o => forall v, o = Some v ->
            v <> [] /\ is_trimmed v = true /\ exists blk, b = Some blk /\ In v (lines_of blk))
    [HeaderFacts.talentName h; HeaderFacts.clientName h; HeaderFacts.eventTitle h;
     HeaderFacts.eventDateText h] /\
  HeaderFacts.raw h = match b with Some (_ :: _) => b | _ => None end.
Proof.
  cbv zeta. destruct b as [[|c r]|];
    [split; [apply List.Forall_forall; intros o Ho v Hv; simpl in Ho; intuition congruence|done]| |
     split; [apply List.Forall_forall; intros o Ho v Hv; simpl in Ho; intuition congruence|done]].
  split; [|reflexivity].
  assert (Hline : forall v, In v (lines_of (c :: r)) ->
            v <> [] /\ is_trimmed v = true /\
            exists blk, Some (c :: r) = Some blk /\ In v (lines_of blk)).
  { intros v Hv. split; [exact (proj1 (List.Forall_forall _ _) (lines_of_nonempty _) v Hv)|].
    split; [exact (proj1 (List.Forall_forall _ _) (lines_of_trimmed _) v Hv)|].
    exists (c :: r). auto. }
  unfold parseHeaderBlock. cbn [HeaderFacts.talentName HeaderFacts.clientName
    HeaderFacts.eventTitle HeaderFacts.eventDateText].
  apply List.Forall_forall. intros o Ho v ->. apply Hline. simpl in Ho.
  destruct Ho as [Ho|[Ho|[Ho|[Ho|[]]]]];
    try exact (line_or_null_In _ _ _ Ho).
  destruct (find_index _ _) as [i|]; [|discriminate].
  apply list_elem_of_In. exact (list_elem_of_lookup_2 _ _ _ Ho).
Qed.

Lemma pages_of_chunks_texts chunks m :
  map page_text (pages (pages_of_chunks chunks m)) =
  take (if (0 <=? m)%Z then Z.to_nat m else length chunks - Z.to_nat (- m)) chunks.
Proof.
  unfold pages_of_chunks, slice0. cbn [pages]. rewrite imap_page_text.
  destruct (Z.leb_spec 0 m) as [Hm|Hm].
  - destruct (Z.ltb_spec (Z.min (Z.of_nat (length chunks)) m) 0); [lia|].
    destruct (Z.le_ge_cases m (Z.of_nat (length chunks))).
    + f_equal. lia.
    + rewrite !take_ge by lia. reflexivity.
  - destruct (Z.ltb_spec (Z.min (Z.of_nat (length chunks)) m) 0); [|lia].
    f_equal. lia.
Qed.

(** When the trimmed text splits at form feeds into at least two
    non-blank chunks, the page texts are the first [maxPages] trimmed
    chunks; a negative [maxPages] drops that many chunks from the end
    instead, as [Array.prototype.slice] does. *)
Theorem buildPagedText_form_feed_pages fullText maxPages :
  2 <= length (trimmed_chunks (split_ch ff (trim fullText))) ->
  let chunks := trimmed_chunks (split_ch ff (trim fullText)) in
  map page_text (pages (buildPagedText fullText maxPages)) =
  take (if (0 <=? maxPages)%Z then Z.to_nat maxPages
        else length chunks - Z.to_nat (- maxPages)) chunks.
Proof.
  intros H. cbv zeta. unfold buildPagedText. cbv zeta.
  destruct (Nat.leb_spec 2 (length (trimmed_chunks (split_ch ff (trim fullText))))); [|lia].
  apply pages_of_chunks_texts.
Qed.

Lemma buildPagedText_form_feed_pages_witness :
  map page_text (pages (buildPagedText (js "p1" ++ ff :: js " p2 " ++ ff :: js "p3") (-1))) =
  [js "p1"; js "p2"].
Proof.
  apply (buildPagedText_form_feed_pages (js "p1" ++ ff :: js " p2 " ++ ff :: js "p3") (-1)).
  vm_compute. lia.
Defined.

Lemma split_nl_acc_nonl cur x : no_nl x -> split_nl_acc cur x = [rev cur ++ x].
Proof.
  revert cur; induction x as [|c x IH]; intros cur Hx; simpl; [by rewrite app_nil_r|].
  inversion Hx as [|? ? Hc Hx']; subst.
  destruct (ceq c nl) eqn:E; [apply ceq_true in E; contradiction|].
  rewrite (IH (c :: cur) Hx'). simpl. rewrite <- app_assoc. done.
Qed.

Lemma split_nl_acc_line cur x r :
  no_nl x -> split_nl_acc cur (x ++ nl :: r) = (rev cur ++ x) :: split_nl_acc [] r.
Proof.
  revert cur; induction x as [|c x IH]; intros cur Hx; simpl.
  - rewrite app_nil_r. reflexivity.
  - inversion Hx as [|? ? Hc Hx']; subst.
    destruct (ceq c nl) eqn:E; [apply ceq_true in E; contradiction|].
    rewrite (IH (c :: cur) Hx'). simpl. rewrite <- app_assoc. done.
Qed.

Lemma split_nl_join ls : ls <> [] -> Forall no_nl ls -> split_nl (join [nl] ls) = ls.
Proof.
  induction ls as [|x r IH]; intros Hne Hl; [done|].
  inversion Hl as [|? ? Hx Hr]; subst.
  destruct r as [|y r].
  - unfold split_nl. simpl. rewrite split_nl_acc_nonl by assumption. done.
  - change (join [nl] (x :: y :: r)) with (x ++ [nl] ++ join [nl] (y :: r)).
    unfold split_nl. simpl. rewrite split_nl_acc_line by exact Hx. simpl.
    f_equal. apply IH; [done|exact Hr].
Qed.

Lemma split_nl_acc_no_nl cur s : no_nl cur -> Forall no_nl (split_nl_acc cur s).
Proof.
  revert cur; induction s as [|c s IH]; intros cur Hcur; simpl.
  - constructor; [|constructor]. unfold no_nl. rewrite List.Forall_forall.
    intros d Hd. apply in_rev in Hd. exact (proj1 (List.Forall_forall _ _) Hcur d Hd).
  - destruct (ceq c nl) eqn:E.
    + constructor; [|apply IH; constructor].
      unfold no_nl. rewrite List.Forall_forall.
      intros d Hd. apply in_rev in Hd. exact (proj1 (List.Forall_forall _ _) Hcur d Hd).
    + apply IH. constructor; [|exact Hcur]. intros ->. rewrite ceq_refl in E. discriminate.
Qed.

Lemma lines_of_no_nl s : Forall no_nl (lines_of s).
Proof.
  unfold lines_of. apply List.Forall_forall. intros l Hl.
  apply list_elem_of_In, list_elem_of_filter in Hl as [_ Hl].
  apply list_elem_of_In, in_map_iff in Hl as (w & <- & Hw).
  pose proof (proj1 (List.Forall_forall _ _) (split_nl_acc_no_nl [] s (List.Forall_nil _)) w Hw) as Hn.
  destruct (trim_infix w) as (a & b & Eab).
  unfold no_nl in *. rewrite List.Forall_forall in *. intros c Hc. apply Hn.
  rewrite Eab. apply in_or_app. right. apply in_or_app. left. exact Hc.
Qed.

Lemma people_blocks_concat cur ls :
  Forall no_nl cur -> Forall no_nl ls ->
  concat (map split_nl (people_blocks cur ls)) = rev cur ++ ls.
Proof.
  revert cur; induction ls as [|l rest IH]; intros cur Hcur Hls; simpl.
  - destruct cur as [|c cur]; [done|]. simpl. rewrite app_nil_r, app_nil_r.
    apply split_nl_join.
    + intros E. apply (f_equal (@length _)) in E. rewrite length_app in E. simpl in E. lia.
    + apply List.Forall_app. split; [apply List.Forall_rev; inversion Hcur; assumption|].
      inversion Hcur; subst. repeat constructor. assumption.
  - inversion Hls as [|? ? Hl Hrest]; subst.
    destruct (new_person_line l && negb (bool_decide (cur = []))) eqn:E.
    + simpl. rewrite IH by first [assumption | repeat constructor; assumption]. simpl.
      rewrite split_nl_join.
      * done.
      * apply andb_true_iff in E as [_ E]. apply negb_true_iff, bool_decide_eq_false in E.
        intros E'. apply E. destruct cur; [done|]. simpl in E'.
        apply (f_equal (@length _)) in E'. rewrite length_app in E'. simpl in E'. lia.
      * apply List.Forall_rev, Hcur.
    + rewrite IH by first [assumption | constructor; assumption]. simpl. rewrite <- app_assoc. done.
Qed.

Lemma people_blocks_nonempty ls cur : cur <> [] \/ ls <> [] -> people_blocks cur ls <> [].
Proof.
  revert cur; induction ls as [|l rest IH]; intros cur H; simpl.
  - destruct cur; [destruct H; contradiction|discriminate].
  - destruct (_ && _); [discriminate|]. apply IH. left. discriminate.
Qed.

Lemma omap_raw_sublist g bs :
  sublist (map Contact.raw (omap (fun b => parsePersonBlock b g) bs)) bs.
Proof.
  induction bs as [|b bs IH]; [constructor|].
  change (omap (fun b => parsePersonBlock b g) (b :: bs)) with
    (match parsePersonBlock b g with
     | Some c => c :: omap (fun b => parsePersonBlock b g) bs
     | None => omap (fun b => parsePersonBlock b g) bs end).
  destruct (parsePersonBlock b g) as [c|] eqn:E.
  - simpl. replace (Contact.raw c) with b; [apply sublist_skip, IH|].
    unfold parsePersonBlock in E. cbv zeta in E. destruct (trim _); [discriminate|].
    injection E as <-. reflexivity.
  - apply sublist_cons, IH.
Qed.

Lemma people_raw_sublist (L bs : list (list ascii)) g :
  (L <> [] -> bs <> []) ->
  sublist (map Contact.raw
    (match L with
     | [] => []
     | _ => omap (fun b => parsePersonBlock b g)
              (match bs with [] => [join [nl] L] | b :: r => b :: r end)
     end)) bs.
Proof.
  intros Hne. destruct L as [|l ls]; [apply sublist_nil_l|].
  destruct bs as [|b bs]; [exfalso; exact (Hne ltac:(discriminate) eq_refl)|].
  apply omap_raw_sublist.
Qed.

(** [parsePeopleList] groups the non-blank lines of its text into person
    blocks without losing or reordering a line (the blocks, split at line
    feeds, give back the lines); each contact's raw text is one of those
    blocks, in block order, and carries the group it was given. *)
Theorem parsePeopleList_blocks text g :
  let blocks := people_blocks [] (lines_of text) in
  concat (map split_nl blocks) = lines_of text /\
  sublist (map Contact.raw (parsePeopleList text g)) blocks /\
  Forall (fun c => Contact.group c = js g) (parsePeopleList text g).
Proof.
  cbv zeta. split; [|split].
  - rewrite people_blocks_concat; [reflexivity|constructor|apply lines_of_no_nl].
  - unfold parsePeopleList. cbv zeta.
    apply (people_raw_sublist (lines_of text) (people_blocks [] (lines_of text)) g).
    intros H. apply people_blocks_nonempty. right. exact H.
  - apply parsePeopleList_group.
Qed.

(** The earlier parser and [parseLaiEventBrief] read the same
    talentName, clientName and eventTitle from every text: the first
    three non-blank lines of the header block. *)
Theorem legacy_header_agrees rawText :
  let h := header (parseLaiEventBrief rawText) in
  let '(talentName, clientName, eventTitle, _) := legacy_header_fields rawText in
  talentName = HeaderFacts.talentName h /\ clientName = HeaderFacts.clientName h /\
  eventTitle = HeaderFacts.eventTitle h.
Proof.
  unfold legacy_header_fields, parseLaiEventBrief. cbv zeta. cbn [header].
  destruct (matchBlock header_re (normalize rawText)) as [[|c r]|]; simpl; auto.
Qed.
